(** * chessPGN: a shallow embedding of the engine, FEN codec and PGN cursor

    The development follows the TypeScript sources: [Game.ts] (position,
    make/unmake, move generation, SAN, FEN), [chessPGN.ts] (the validating
    wrapper), [headerParser.ts] and [Cursor.ts] (indexer and lazy cursor).

    Conventions.
    - JavaScript numbers that hold squares, counters and bit masks are [Z];
      [&], [|], [>>] are [Z.land], [Z.lor], [Z.shiftr].  BigInt hashes are
      [Z] with [Z.lxor].
    - The sparse 128-slot board array is a [gmap Z Piece]; a missing key is
      an empty slot ([undefined]).
    - Mutating methods are computations in a state-and-exception monad
      [M]: a run ends in [Ok] with a result, or in [Throw] with the error,
      and in both cases carries the state reached so far. *)

From Stdlib Require Import ZArith Lia Bool List Ascii String.
From Stdlib Require Import DecimalString DecimalPos DecimalZ.
From stdpp Require Import base decidable option list gmap strings.

Local Open Scope Z_scope.

(** ** Pieces, squares and moves *)

Inductive Color := WHITE | BLACK.
Inductive PieceSymbol := PAWN | KNIGHT | BISHOP | ROOK | QUEEN | KING.

#[global] Instance Color_eq_dec : EqDecision Color.
Proof. solve_decision. Defined.
#[global] Instance PieceSymbol_eq_dec : EqDecision PieceSymbol.
Proof. solve_decision. Defined.

Record Piece := mkPiece { ptype : PieceSymbol; pcolor : Color }.

#[global] Instance Piece_eq_dec : EqDecision Piece.
Proof. solve_decision. Defined.

Definition swapColor (c : Color) : Color :=
  match c with WHITE => BLACK | BLACK => WHITE end.

Definition EMPTY : Z := -1.

(** Modelled from the spec: [types.ts] is not part of the sources at hand.
    The spec fixes the flag set of an internal move (NORMAL, CAPTURE,
    BIG_PAWN, EP_CAPTURE, PROMOTION, KSIDE_CASTLE, QSIDE_CASTLE, NULL_MOVE);
    the bit values are the ones [_castlingKey] relies on when it shifts the
    white rights by 5 and the black rights by 3 to build a 4-bit index. *)
Module BITS.
Definition NORMAL : Z := 1.
Definition CAPTURE : Z := 2.
Definition BIG_PAWN : Z := 4.
Definition EP_CAPTURE : Z := 8.
Definition PROMOTION : Z := 16.
Definition KSIDE_CASTLE : Z := 32.
Definition QSIDE_CASTLE : Z := 64.
Definition NULL_MOVE : Z := 128.
End BITS.

(** [x & mask] used as a condition. *)
Definition has (x mask : Z) : bool := negb (Z.land x mask =? 0).

(** Modelled from the spec: 0x88 squares are [rank*16 + file] with a8 = 0
    and h1 = 119; [(s & 0x88) != 0] detects off-board. *)
Definition off_board (s : Z) : bool := has s 136.
Definition rank (s : Z) : Z := Z.shiftr s 4.
Definition file (s : Z) : Z := Z.land s 15.

Module Ox88.
Definition a8 : Z := 0.
Definition e8 : Z := 4.
Definition h8 : Z := 7.
Definition a1 : Z := 112.
Definition e1 : Z := 116.
Definition h1 : Z := 119.
End Ox88.

Definition char_at (s : string) (i : Z) : string :=
  if (0 <=? i) && (i <? Z.of_nat (String.length s))
  then String.substring (Z.to_nat i) 1 s else EmptyString.

(** Modelled from the spec: squares are named a1..h8, file letter first. *)
Definition algebraic (s : Z) : string :=
  char_at "abcdefgh" (file s) +:+ char_at "87654321" (rank s).

Record InternalMove := mkMove {
  m_color : Color;
  m_from : Z;
  m_to : Z;
  m_piece : PieceSymbol;
  m_captured : option PieceSymbol;
  m_promotion : option PieceSymbol;
  m_flags : Z
}.

#[global] Instance InternalMove_eq_dec : EqDecision InternalMove.
Proof. solve_decision. Defined.

(** ** Game state *)

(** [Record<Color, number>]. *)
Record PerColor := mkPC { pc_w : Z; pc_b : Z }.

Definition pc_get (p : PerColor) (c : Color) : Z :=
  match c with WHITE => pc_w p | BLACK => pc_b p end.
Definition pc_set (p : PerColor) (c : Color) (v : Z) : PerColor :=
  match c with
  | WHITE => mkPC v (pc_b p)
  | BLACK => mkPC (pc_w p) v
  end.

(** The part of [positionSnapshot] that [_undoMove] reads; [_push] fills the
    [board], [hash] and [positionCount] slots with dummies that are never
    read back. *)
Record Snapshot := mkSnap {
  snap_kings : PerColor;
  snap_turn : Color;
  snap_castling : PerColor;
  snap_epSquare : Z;
  snap_fenEpSquare : Z;
  snap_halfMoves : Z;
  snap_moveNumber : Z
}.

Record History := mkHistory { h_move : InternalMove; positionSnapshot : Snapshot }.

(** The fields of [class Game] that the engine reads and writes.  [_history]
    is kept with the most recent entry first ([push] conses, [pop] takes the
    head).  Headers, comments and suffixes do not interact with any of
    them. *)
Record Game := mkGame {
  _board : gmap Z Piece;
  _turn : Color;
  _kings : PerColor;
  _halfMoves : Z;
  _hash : Z;
  _positionCount : gmap Z Z;
  _epSquare : Z;
  _castling : PerColor;
  _history : list History;
  _fenEpSquare : Z;
  _moveNumber : Z
}.

Definition set_board (v : gmap Z Piece) (g : Game) : Game :=
  mkGame v (_turn g) (_kings g) (_halfMoves g) (_hash g) (_positionCount g)
         (_epSquare g) (_castling g) (_history g) (_fenEpSquare g) (_moveNumber g).
Definition set_turn (v : Color) (g : Game) : Game :=
  mkGame (_board g) v (_kings g) (_halfMoves g) (_hash g) (_positionCount g)
         (_epSquare g) (_castling g) (_history g) (_fenEpSquare g) (_moveNumber g).
Definition set_kings (v : PerColor) (g : Game) : Game :=
  mkGame (_board g) (_turn g) v (_halfMoves g) (_hash g) (_positionCount g)
         (_epSquare g) (_castling g) (_history g) (_fenEpSquare g) (_moveNumber g).
Definition set_halfMoves (v : Z) (g : Game) : Game :=
  mkGame (_board g) (_turn g) (_kings g) v (_hash g) (_positionCount g)
         (_epSquare g) (_castling g) (_history g) (_fenEpSquare g) (_moveNumber g).
Definition set_hash (v : Z) (g : Game) : Game :=
  mkGame (_board g) (_turn g) (_kings g) (_halfMoves g) v (_positionCount g)
         (_epSquare g) (_castling g) (_history g) (_fenEpSquare g) (_moveNumber g).
Definition set_positionCount (v : gmap Z Z) (g : Game) : Game :=
  mkGame (_board g) (_turn g) (_kings g) (_halfMoves g) (_hash g) v
         (_epSquare g) (_castling g) (_history g) (_fenEpSquare g) (_moveNumber g).
Definition set_epSquare (v : Z) (g : Game) : Game :=
  mkGame (_board g) (_turn g) (_kings g) (_halfMoves g) (_hash g) (_positionCount g)
         v (_castling g) (_history g) (_fenEpSquare g) (_moveNumber g).
Definition set_castling (v : PerColor) (g : Game) : Game :=
  mkGame (_board g) (_turn g) (_kings g) (_halfMoves g) (_hash g) (_positionCount g)
         (_epSquare g) v (_history g) (_fenEpSquare g) (_moveNumber g).
Definition set_history (v : list History) (g : Game) : Game :=
  mkGame (_board g) (_turn g) (_kings g) (_halfMoves g) (_hash g) (_positionCount g)
         (_epSquare g) (_castling g) v (_fenEpSquare g) (_moveNumber g).
Definition set_fenEpSquare (v : Z) (g : Game) : Game :=
  mkGame (_board g) (_turn g) (_kings g) (_halfMoves g) (_hash g) (_positionCount g)
         (_epSquare g) (_castling g) (_history g) v (_moveNumber g).
Definition set_moveNumber (v : Z) (g : Game) : Game :=
  mkGame (_board g) (_turn g) (_kings g) (_halfMoves g) (_hash g) (_positionCount g)
         (_epSquare g) (_castling g) (_history g) (_fenEpSquare g) v.

(** ** The state-and-exception monad *)

Inductive Err :=
| TypeError              (* a JavaScript TypeError raised by the runtime *)
| Error (msg : string)   (* [throw new Error(msg)] *)
| Unmodelled.            (* the run stores a value the state type cannot
                            hold: [NaN], [undefined], a side to move
                            other than w or b *)

Inductive Res (A : Type) :=
| Ok (a : A) (g : Game)
| Throw (e : Err) (g : Game).
Arguments Ok {A} a g.
Arguments Throw {A} e g.

Definition M (A : Type) : Type := Game -> Res A.

Definition ret {A} (a : A) : M A := fun g => Ok a g.
Definition bind {A B} (m : M A) (f : A -> M B) : M B :=
  fun g => match m g with
           | Ok a g' => f a g'
           | Throw e g' => Throw e g'
           end.
Definition throw {A} (e : Err) : M A := fun g => Throw e g.
Definition gets {A} (f : Game -> A) : M A := fun g => Ok (f g) g.
Definition modify (f : Game -> Game) : M unit := fun g => Ok tt (f g).
Definition when (c : bool) (m : M unit) : M unit := if c then m else ret tt.

Definition state_of {A} (r : Res A) : Game :=
  match r with Ok _ g => g | Throw _ g => g end.

Declare Scope game_scope.
Delimit Scope game_scope with game.
Notation "'let*' x ':=' m 'in' k" := (bind m (fun x => k))
  (at level 10, x name, m at level 100, k at level 200) : game_scope.
Notation "m ';;' k" := (bind m (fun _ => k))
  (at level 100, k at level 200, right associativity) : game_scope.
Local Open Scope game_scope.

(** [for (x of l) body(x)] *)
Fixpoint forM {A} (l : list A) (body : A -> M unit) : M unit :=
  match l with
  | [] => ret tt
  | x :: l' => body x ;; forM l' body
  end.

(** ** Zobrist keys *)

(** Modelled from the spec: the key tables live in [types.ts], which is not
    part of the sources at hand.  The spec gives their shape,
    [PIECE_KEYS[2][6][128]], [EP_KEYS[8]], [CASTLING_KEYS[16]] and
    [SIDE_KEY], all 64-bit values drawn from a seeded generator.  The
    engine is parametrised by the table contents; the array bounds are
    enforced where the tables are read. *)
Record Zobrist := mkZobrist {
  PIECE_KEYS : Color -> PieceSymbol -> Z -> Z;
  EP_KEYS : Z -> Z;
  CASTLING_KEYS : Z -> Z;
  SIDE_KEY : Z
}.

(** ** Static tables *)

(** [ATTACKS] and [RAYS] as listed in [chessPGN.ts], indexed by
    [from - to + 119]. *)
Definition ATTACKS : list Z :=
  [20; 0; 0; 0; 0; 0; 0; 24;  0; 0; 0; 0; 0; 0;20; 0;
    0;20; 0; 0; 0; 0; 0; 24;  0; 0; 0; 0; 0;20; 0; 0;
    0; 0;20; 0; 0; 0; 0; 24;  0; 0; 0; 0;20; 0; 0; 0;
    0; 0; 0;20; 0; 0; 0; 24;  0; 0; 0;20; 0; 0; 0; 0;
    0; 0; 0; 0;20; 0; 0; 24;  0; 0;20; 0; 0; 0; 0; 0;
    0; 0; 0; 0; 0;20; 2; 24;  2;20; 0; 0; 0; 0; 0; 0;
    0; 0; 0; 0; 0; 2;53; 56; 53; 2; 0; 0; 0; 0; 0; 0;
   24;24;24;24;24;24;56;  0; 56;24;24;24;24;24;24; 0;
    0; 0; 0; 0; 0; 2;53; 56; 53; 2; 0; 0; 0; 0; 0; 0;
    0; 0; 0; 0; 0;20; 2; 24;  2;20; 0; 0; 0; 0; 0; 0;
    0; 0; 0; 0;20; 0; 0; 24;  0; 0;20; 0; 0; 0; 0; 0;
    0; 0; 0;20; 0; 0; 0; 24;  0; 0; 0;20; 0; 0; 0; 0;
    0; 0;20; 0; 0; 0; 0; 24;  0; 0; 0; 0;20; 0; 0; 0;
    0;20; 0; 0; 0; 0; 0; 24;  0; 0; 0; 0; 0;20; 0; 0;
   20; 0; 0; 0; 0; 0; 0; 24;  0; 0; 0; 0; 0; 0;20].

Definition RAYS : list Z :=
  [ 17;  0;  0;  0;  0;  0;  0; 16;  0;  0;  0;  0;  0;  0; 15; 0;
     0; 17;  0;  0;  0;  0;  0; 16;  0;  0;  0;  0;  0; 15;  0; 0;
     0;  0; 17;  0;  0;  0;  0; 16;  0;  0;  0;  0; 15;  0;  0; 0;
     0;  0;  0; 17;  0;  0;  0; 16;  0;  0;  0; 15;  0;  0;  0; 0;
     0;  0;  0;  0; 17;  0;  0; 16;  0;  0; 15;  0;  0;  0;  0; 0;
     0;  0;  0;  0;  0; 17;  0; 16;  0; 15;  0;  0;  0;  0;  0; 0;
     0;  0;  0;  0;  0;  0; 17; 16; 15;  0;  0;  0;  0;  0;  0; 0;
     1;  1;  1;  1;  1;  1;  1;  0; -1; -1; -1; -1; -1; -1; -1; 0;
     0;  0;  0;  0;  0;  0;-15;-16;-17;  0;  0;  0;  0;  0;  0; 0;
     0;  0;  0;  0;  0;-15;  0;-16;  0;-17;  0;  0;  0;  0;  0; 0;
     0;  0;  0;  0;-15;  0;  0;-16;  0;  0;-17;  0;  0;  0;  0; 0;
     0;  0;  0;-15;  0;  0;  0;-16;  0;  0;  0;-17;  0;  0;  0; 0;
     0;  0;-15;  0;  0;  0;  0;-16;  0;  0;  0;  0;-17;  0;  0; 0;
     0;-15;  0;  0;  0;  0;  0;-16;  0;  0;  0;  0;  0;-17;  0; 0;
   -15;  0;  0;  0;  0;  0;  0;-16;  0;  0;  0;  0;  0;  0;-17].

(** A table read; an index outside the array reads [undefined], which the
    bitwise operators applied to it turn into 0. *)
Definition table_get (t : list Z) (i : Z) : Z :=
  if 0 <=? i then nth (Z.to_nat i) t 0 else 0.

Definition PIECE_MASKS (t : PieceSymbol) : Z :=
  match t with
  | PAWN => 1 | KNIGHT => 2 | BISHOP => 4 | ROOK => 8 | QUEEN => 16 | KING => 32
  end.

(** Modelled from the spec: [PAWN_OFFSETS[color][0..3]] are the single
    push, the double push and the two capture diagonals; white moves
    towards rank 8, that is towards smaller indices. *)
Definition PAWN_OFFSETS (c : Color) : list Z :=
  match c with
  | BLACK => [16; 32; 17; 15]
  | WHITE => [-16; -32; -17; -15]
  end.

(** Modelled from the spec: [PIECE_OFFSETS[kind]] is the step set of a
    leaper or slider on the 0x88 board. *)
Definition PIECE_OFFSETS (t : PieceSymbol) : list Z :=
  match t with
  | PAWN => []
  | KNIGHT => [-18; -33; -31; -14; 18; 33; 31; 14]
  | BISHOP => [-17; -15; 17; 15]
  | ROOK => [-16; 1; 16; -1]
  | QUEEN => [-17; -16; -15; 1; 17; 16; 15; -1]
  | KING => [-17; -16; -15; 1; 17; 16; 15; -1]
  end.

(** Modelled from the spec: the rank index (0 is rank 8) from which a pawn
    may push two squares. *)
Definition SECOND_RANK (c : Color) : Z :=
  match c with BLACK => 1 | WHITE => 6 end.

(** Modelled from the spec: the home squares of the rooks and the castling
    right each of them carries. *)
Definition ROOKS (c : Color) : list (Z * Z) :=
  match c with
  | WHITE => [(Ox88.a1, BITS.QSIDE_CASTLE); (Ox88.h1, BITS.KSIDE_CASTLE)]
  | BLACK => [(Ox88.a8, BITS.QSIDE_CASTLE); (Ox88.h8, BITS.KSIDE_CASTLE)]
  end.

(** Modelled from the spec: a pawn reaching the last rank promotes to each
    of queen, rook, bishop, knight. *)
Definition PROMOTIONS : list PieceSymbol := [QUEEN; ROOK; BISHOP; KNIGHT].

(** Modelled from the spec: [addMove] records one move, or one move per
    promotion piece (with the PROMOTION flag) when a pawn lands on rank 1
    or rank 8.  The result is what the call pushes onto [moves]. *)
Definition addMove (color : Color) (from to : Z) (piece : PieceSymbol)
    (captured : option PieceSymbol) (flags : Z) : list InternalMove :=
  let r := rank to in
  if bool_decide (piece = PAWN) && ((r =? 7) || (r =? 0))
  then List.map (fun pr => mkMove color from to piece captured (Some pr)
                                  (Z.lor flags BITS.PROMOTION)) PROMOTIONS
  else [mkMove color from to piece captured None flags].

(** The squares visited by [for (i = a8; i <= h1; i++)] once the
    off-board half of each row is skipped. *)
Definition board_squares : list Z :=
  List.filter (fun i => negb (off_board i)) (seqZ 0 120).

(** Lower-case piece letters, as stored in [Piece.type]. *)
Definition symbol (t : PieceSymbol) : string :=
  match t with
  | PAWN => "p" | KNIGHT => "n" | BISHOP => "b"
  | ROOK => "r" | QUEEN => "q" | KING => "k"
  end.

Definition color_symbol (c : Color) : string :=
  match c with WHITE => "w" | BLACK => "b" end.

(** ** Attacks (pure reads of the board) *)

(** The inner [while (j !== square)] walk of [_attacked]; [true] means a
    piece stands strictly between.  The walk takes at most seven steps on
    the tables above, see [ray_walk_terminates]. *)
Fixpoint ray_blocked (fuel : nat) (board : gmap Z Piece) (j offset square : Z) : bool :=
  match fuel with
  | O => true
  | S fuel' =>
      if j =? square then false
      else match board !! j with
           | Some _ => true
           | None => ray_blocked fuel' board (j + offset) offset square
           end
  end.

(** One iteration of the square loop of [_attacked] (non-verbose form):
    does the piece on [i], if it has colour [color], attack [square]? *)
Definition attacks_from (board : gmap Z Piece) (color : Color) (square i : Z) : bool :=
  match board !! i with
  | None => false
  | Some piece =>
      if negb (bool_decide (pcolor piece = color)) then false
      else
        let difference := i - square in
        if difference =? 0 then false
        else
          let index := difference + 119 in
          if has (table_get ATTACKS index) (PIECE_MASKS (ptype piece)) then
            match ptype piece with
            | PAWN =>
                ((0 <? difference) && bool_decide (pcolor piece = WHITE))
                || ((difference <=? 0) && bool_decide (pcolor piece = BLACK))
            | KNIGHT | KING => true
            | _ =>
                let offset := table_get RAYS index in
                negb (ray_blocked 8 board (i + offset) offset square)
            end
          else false
  end.

Definition _attacked (g : Game) (color : Color) (square : Z) : bool :=
  existsb (attacks_from (_board g) color square) board_squares.

Definition _isKingAttacked (g : Game) (color : Color) : bool :=
  let square := pc_get (_kings g) color in
  if square =? -1 then false else _attacked g (swapColor color) square.

Definition isCheck (g : Game) : bool := _isKingAttacked g (_turn g).

(** ** Pseudo-legal move generation (pure reads of the position) *)

(** The [while (true)] walk along one offset of [PIECE_OFFSETS]. *)
Fixpoint slide (fuel : nat) (board : gmap Z Piece) (us : Color)
    (type : PieceSymbol) (from to offset : Z) : list InternalMove :=
  match fuel with
  | O => []
  | S fuel' =>
      let to := to + offset in
      if off_board to then []
      else match board !! to with
           | None =>
               addMove us from to type None BITS.NORMAL
               ++ (if bool_decide (type = KNIGHT) || bool_decide (type = KING)
                   then []
                   else slide fuel' board us type from to offset)
           | Some p =>
               if bool_decide (pcolor p = us) then []
               else addMove us from to type (Some (ptype p)) BITS.CAPTURE
           end
  end.

Definition pawn_pushes (g : Game) (us : Color) (from : Z) : list InternalMove :=
  let to := from + nth 0 (PAWN_OFFSETS us) 0 in
  match _board g !! to with
  | Some _ => []
  | None =>
      addMove us from to PAWN None BITS.NORMAL
      ++ (let to := from + nth 1 (PAWN_OFFSETS us) 0 in
          if (SECOND_RANK us =? rank from) && bool_decide (_board g !! to = None)
          then addMove us from to PAWN None BITS.BIG_PAWN
          else [])
  end.

Definition pawn_capture (g : Game) (us them : Color) (from : Z) (j : nat) : list InternalMove :=
  let to := from + nth j (PAWN_OFFSETS us) 0 in
  if off_board to then []
  else match _board g !! to with
       | Some p =>
           if bool_decide (pcolor p = them)
           then addMove us from to PAWN (Some (ptype p)) BITS.CAPTURE
           else if to =? _epSquare g
                then addMove us from to PAWN (Some PAWN) BITS.EP_CAPTURE
                else []
       | None =>
           if to =? _epSquare g
           then addMove us from to PAWN (Some PAWN) BITS.EP_CAPTURE
           else []
       end.

(** [forPiece && forPiece !== type]: the filter is off for [undefined] and
    for the empty string. *)
Definition skips_piece (forPiece : option string) (type : PieceSymbol) : bool :=
  match forPiece with
  | None => false
  | Some s => negb (String.eqb s EmptyString) && negb (String.eqb s (symbol type))
  end.

(** The body of the [from] loop of [_moves]. *)
Definition moves_from (g : Game) (forPiece : option string) (from : Z) : list InternalMove :=
  let us := _turn g in
  let them := swapColor us in
  match _board g !! from with
  | None => []
  | Some p =>
      if bool_decide (pcolor p = them) then []
      else if skips_piece forPiece (ptype p) then []
      else match ptype p with
           | PAWN =>
               pawn_pushes g us from
               ++ pawn_capture g us them from 2
               ++ pawn_capture g us them from 3
           | type =>
               flat_map (fun offset => slide 8 (_board g) us type from from offset)
                        (PIECE_OFFSETS type)
           end
  end.

Definition castling_moves (g : Game) : list InternalMove :=
  let us := _turn g in
  let them := swapColor us in
  let b := _board g in
  let king := pc_get (_kings g) us in
  (if has (pc_get (_castling g) us) BITS.KSIDE_CASTLE then
     let castlingFrom := king in
     let castlingTo := castlingFrom + 2 in
     if bool_decide (b !! (castlingFrom + 1) = None)
        && bool_decide (b !! castlingTo = None)
        && negb (_attacked g them king)
        && negb (_attacked g them (castlingFrom + 1))
        && negb (_attacked g them castlingTo)
     then addMove us king castlingTo KING None BITS.KSIDE_CASTLE
     else []
   else [])
  ++
  (if has (pc_get (_castling g) us) BITS.QSIDE_CASTLE then
     let castlingFrom := king in
     let castlingTo := castlingFrom - 2 in
     if bool_decide (b !! (castlingFrom - 1) = None)
        && bool_decide (b !! (castlingFrom - 2) = None)
        && bool_decide (b !! (castlingFrom - 3) = None)
        && negb (_attacked g them king)
        && negb (_attacked g them (castlingFrom - 1))
        && negb (_attacked g them castlingTo)
     then addMove us king castlingTo KING None BITS.QSIDE_CASTLE
     else []
   else []).

(** Modelled from the spec: [Ox88] maps the 64 square names to their
    0x88 index. *)
Definition Ox88_of (name : string) : option Z :=
  match name with
  | String f (String r EmptyString) =>
      let fi := Z.of_N (N_of_ascii f) - 97 in
      let ri := Z.of_N (N_of_ascii r) - 49 in
      if (0 <=? fi) && (fi <? 8) && (0 <=? ri) && (ri <? 8)
      then Some ((7 - ri) * 16 + fi) else None
  | _ => None
  end.

Definition ascii_lower (c : ascii) : ascii :=
  let n := N_of_ascii c in
  if ((65 <=? n) && (n <=? 90))%N then ascii_of_N (n + 32) else c.
Definition ascii_upper (c : ascii) : ascii :=
  let n := N_of_ascii c in
  if ((97 <=? n) && (n <=? 122))%N then ascii_of_N (n - 32) else c.

Fixpoint string_map (f : ascii -> ascii) (s : string) : string :=
  match s with
  | EmptyString => EmptyString
  | String c s' => String (f c) (string_map f s')
  end.
Definition toLowerCase : string -> string := string_map ascii_lower.
Definition toUpperCase : string -> string := string_map ascii_upper.

(** The moves collected by [_moves] before the legality filter.  [piece]
    and [square] are the optional filters of the call. *)
Definition pseudo_moves (g : Game) (piece square : option string) : list InternalMove :=
  let forPiece := toLowerCase <$> piece in
  let us := _turn g in
  let scan (squares : list Z) (singleSquare : bool) (lastSquare : Z) :=
    flat_map (moves_from g forPiece) squares
    ++ (if bool_decide (forPiece = None) || bool_decide (forPiece = Some (symbol KING))
        then if negb singleSquare || (lastSquare =? pc_get (_kings g) us)
             then castling_moves g else []
        else []) in
  match square with
  | Some sq =>
      if String.eqb sq EmptyString then scan board_squares false Ox88.h1
      else match Ox88_of (toLowerCase sq) with
           | None => []
           | Some i => scan [i] true i
           end
  | None => scan board_squares false Ox88.h1
  end.

(** ** The mutable engine *)

Section Engine.

Context (K : Zobrist).

(** [_pieceKey(i)].  Every caller XORs the result into a hash at once; for
    an occupied slot outside the 128 keyed squares the table read is
    [undefined] and that XOR raises a TypeError, which is where the model
    raises it. *)
Definition _pieceKey (i : Z) : M Z := fun g =>
  match _board g !! i with
  | None => Ok 0 g
  | Some p =>
      if bool_decide (0 <= i < 128)
      then Ok (PIECE_KEYS K (pcolor p) (ptype p) i) g
      else Throw TypeError g
  end.

Definition _epKey : M Z :=
  gets (fun g => if _epSquare g =? EMPTY then 0
                 else EP_KEYS K (Z.land (_epSquare g) 7)).

Definition castling_index (c : PerColor) : Z :=
  Z.lor (Z.shiftr (pc_w c) 5) (Z.shiftr (pc_b c) 3).

Definition _castlingKey : M Z := fun g =>
  let index := castling_index (_castling g) in
  if bool_decide (0 <= index < 16)
  then Ok (CASTLING_KEYS K index) g
  else Throw TypeError g.

(** [this._hash ^= k] *)
Definition xor_hash (k : Z) : M unit :=
  modify (fun g => set_hash (Z.lxor (_hash g) k) g).

Fixpoint hash_squares (squares : list Z) (hash : Z) : M Z :=
  match squares with
  | [] => ret hash
  | i :: rest =>
      let* occupied := gets (fun g => bool_decide (is_Some (_board g !! i))) in
      if occupied
      then let* k := _pieceKey i in hash_squares rest (Z.lxor hash k)
      else hash_squares rest hash
  end.

Definition _computeHash : M Z :=
  let* hash := hash_squares board_squares 0 in
  let* ek := _epKey in
  let hash := Z.lxor hash ek in
  let* ck := _castlingKey in
  let hash := Z.lxor hash ck in
  let* t := gets _turn in
  ret (if bool_decide (t = BLACK) then Z.lxor hash (SIDE_KEY K) else hash).

Definition _set (sq : Z) (piece : Piece) : M unit :=
  let* k := _pieceKey sq in
  xor_hash k ;;
  modify (fun g => set_board (<[sq := piece]> (_board g)) g) ;;
  let* k' := _pieceKey sq in
  xor_hash k'.

Definition _clear (sq : Z) : M unit :=
  let* k := _pieceKey sq in
  xor_hash k ;;
  modify (fun g => set_board (delete sq (_board g)) g).

(** [board[to] = board[from]; delete board[from]]: copying an empty slot
    leaves [to] empty. *)
Definition move_slot (from to : Z) (b : gmap Z Piece) : gmap Z Piece :=
  delete from (match b !! from with
               | Some p => <[to := p]> b
               | None => delete to b
               end).

Definition _movePiece (from to : Z) : M unit :=
  let* k := _pieceKey from in
  xor_hash k ;;
  modify (fun g => set_board (move_slot from to (_board g)) g) ;;
  let* k' := _pieceKey to in
  xor_hash k'.

Definition snapshot (g : Game) : Snapshot :=
  mkSnap (_kings g) (_turn g) (_castling g) (_epSquare g) (_fenEpSquare g)
         (_halfMoves g) (_moveNumber g).

Definition _push (move : InternalMove) : M unit :=
  modify (fun g => set_history (mkHistory move (snapshot g) :: _history g) g).

(** The two [for] loops of [_makeMove] over [ROOKS[c]]: clear the right of
    the first rook whose home square is [sq] and whose right is still
    set. *)
Fixpoint rook_right_off (rooks : list (Z * Z)) (sq rights : Z) : Z :=
  match rooks with
  | [] => rights
  | (square, flag) :: rest =>
      if (sq =? square) && has rights flag
      then Z.lxor rights flag
      else rook_right_off rest sq rights
  end.

Definition update_rook_rights (c : Color) (sq : Z) : M unit :=
  modify (fun g =>
    let rights := pc_get (_castling g) c in
    if rights =? 0 then g
    else set_castling (pc_set (_castling g) c (rook_right_off (ROOKS c) sq rights)) g).

(** The test that decides whether a double push creates an en-passant
    square: an enemy pawn stands on the board right beside the pushed
    pawn. *)
Definition enemy_pawn_beside (b : gmap Z Piece) (them : Color) (to : Z) : bool :=
  let enemy_pawn (sq : Z) :=
    negb (off_board sq) && bool_decide (b !! sq = Some (mkPiece PAWN them)) in
  enemy_pawn (to - 1) || enemy_pawn (to + 1).

Definition bump_moveNumber (us : Color) : M unit :=
  when (bool_decide (us = BLACK))
       (modify (fun g => set_moveNumber (_moveNumber g + 1) g)).

Definition _makeMove (move : InternalMove) : M unit :=
  let* us := gets _turn in
  let them := swapColor us in
  _push move ;;
  if has (m_flags move) BITS.NULL_MOVE then
    bump_moveNumber us ;;
    modify (fun g => set_halfMoves (_halfMoves g + 1) g) ;;
    modify (set_turn them) ;;
    modify (set_epSquare EMPTY)
  else
    (let* ek := _epKey in xor_hash ek) ;;
    (let* ck := _castlingKey in xor_hash ck) ;;
    when (bool_decide (is_Some (m_captured move)))
         (let* k := _pieceKey (m_to move) in xor_hash k) ;;
    _movePiece (m_from move) (m_to move) ;;
    (* if ep capture, remove the captured pawn *)
    when (has (m_flags move) BITS.EP_CAPTURE)
         (let* t := gets _turn in
          if bool_decide (t = BLACK) then _clear (m_to move - 16)
          else _clear (m_to move + 16)) ;;
    (* if pawn promotion, replace with new piece *)
    match m_promotion move with
    | Some pr => _clear (m_to move) ;; _set (m_to move) (mkPiece pr us)
    | None => ret tt
    end ;;
    (* if we moved the king *)
    (let* landed := gets (fun g => _board g !! m_to move) in
     match landed with
     | None => throw TypeError
     | Some p =>
         when (bool_decide (ptype p = KING))
           (modify (fun g => set_kings (pc_set (_kings g) us (m_to move)) g) ;;
            (if has (m_flags move) BITS.KSIDE_CASTLE then
               let castlingTo := m_to move - 1 in
               let castlingFrom := m_to move + 1 in
               _movePiece castlingFrom castlingTo
             else if has (m_flags move) BITS.QSIDE_CASTLE then
               let castlingTo := m_to move + 1 in
               let castlingFrom := m_to move - 2 in
               _movePiece castlingFrom castlingTo
             else ret tt) ;;
            modify (fun g => set_castling (pc_set (_castling g) us 0) g))
     end) ;;
    (* turn off castling if we move a rook / capture a rook *)
    update_rook_rights us (m_from move) ;;
    update_rook_rights them (m_to move) ;;
    (let* ck := _castlingKey in xor_hash ck) ;;
    (* if big pawn move, update the en passant square *)
    (if has (m_flags move) BITS.BIG_PAWN then
       let epSquare := if bool_decide (us = BLACK) then m_to move - 16
                       else m_to move + 16 in
       modify (set_fenEpSquare epSquare) ;;
       let* b := gets _board in
       if enemy_pawn_beside b them (m_to move)
       then modify (set_epSquare epSquare) ;;
            let* ek := _epKey in xor_hash ek
       else modify (set_epSquare EMPTY)
     else
       modify (set_epSquare EMPTY) ;;
       modify (set_fenEpSquare EMPTY)) ;;
    (* reset the 50 move counter if a pawn is moved or a piece is captured *)
    (if bool_decide (m_piece move = PAWN) then modify (set_halfMoves 0)
     else if has (m_flags move) (Z.lor BITS.CAPTURE BITS.EP_CAPTURE)
          then modify (set_halfMoves 0)
          else modify (fun g => set_halfMoves (_halfMoves g + 1) g)) ;;
    bump_moveNumber us ;;
    modify (set_turn them) ;;
    xor_hash (SIDE_KEY K).

Definition _undoMove : M (option InternalMove) :=
  let* h := gets _history in
  match h with
  | [] => ret None
  | old :: rest =>
      modify (set_history rest) ;;
      (* XOR out current ep/castling before restoring old state *)
      (let* ek := _epKey in xor_hash ek) ;;
      (let* ck := _castlingKey in xor_hash ck) ;;
      let move := h_move old in
      let snap := positionSnapshot old in
      modify (set_kings (snap_kings snap)) ;;
      modify (set_turn (snap_turn snap)) ;;
      modify (set_castling (snap_castling snap)) ;;
      modify (set_epSquare (snap_epSquare snap)) ;;
      modify (set_fenEpSquare (snap_fenEpSquare snap)) ;;
      modify (set_halfMoves (snap_halfMoves snap)) ;;
      modify (set_moveNumber (snap_moveNumber snap)) ;;
      (* XOR in restored ep/castling/side *)
      (let* ek := _epKey in xor_hash ek) ;;
      (let* ck := _castlingKey in xor_hash ck) ;;
      xor_hash (SIDE_KEY K) ;;
      let* us := gets _turn in
      let them := swapColor us in
      if has (m_flags move) BITS.NULL_MOVE then ret (Some move)
      else
        _movePiece (m_to move) (m_from move) ;;
        (* to undo any promotions *)
        _clear (m_from move) ;;
        _set (m_from move) (mkPiece (m_piece move) us) ;;
        match m_captured move with
        | Some captured =>
            if has (m_flags move) BITS.EP_CAPTURE then
              let index := if bool_decide (us = BLACK) then m_to move - 16
                           else m_to move + 16 in
              _set index (mkPiece PAWN them)
            else
              _set (m_to move) (mkPiece captured them)
        | None => ret tt
        end ;;
        (if has (m_flags move) (Z.lor BITS.KSIDE_CASTLE BITS.QSIDE_CASTLE) then
           let castlingTo := if has (m_flags move) BITS.KSIDE_CASTLE
                             then m_to move + 1 else m_to move - 2 in
           let castlingFrom := if has (m_flags move) BITS.KSIDE_CASTLE
                               then m_to move - 1 else m_to move + 1 in
           _movePiece castlingFrom castlingTo
         else ret tt) ;;
        ret (Some move)
  end.

(** The legality filter of [_moves]: make, test, unmake, for each
    collected move in turn. *)
Fixpoint filter_legal (us : Color) (moves : list InternalMove) : M (list InternalMove) :=
  match moves with
  | [] => ret []
  | m :: rest =>
      _makeMove m ;;
      let* attacked := gets (fun g => _isKingAttacked g us) in
      _undoMove ;;
      let* legalMoves := filter_legal us rest in
      ret (if attacked then legalMoves else m :: legalMoves)
  end.

Definition _moves (legal : bool) (piece square : option string) : M (list InternalMove) :=
  let* moves := gets (fun g => pseudo_moves g piece square) in
  let* us := gets _turn in
  let* king := gets (fun g => pc_get (_kings g) us) in
  if negb legal || (king =? -1) then ret moves
  else filter_legal us moves.

End Engine.

(** ** Strings

    JavaScript strings are modelled by [string], whose characters are
    8-bit; the inputs of interest (FEN, SAN, PGN headers) are ASCII. *)

(** The characters below 256 matched by [\s]. *)
Definition is_space (c : ascii) : bool :=
  let n := N_of_ascii c in
  (((9 <=? n) && (n <=? 13)) || (n =? 32) || (n =? 160))%N.

Definition is_digit (c : ascii) : bool :=
  let n := N_of_ascii c in ((48 <=? n) && (n <=? 57))%N.

Definition digit_value (c : ascii) : Z := Z.of_N (N_of_ascii c) - 48.

Fixpoint string_rev_acc (s acc : string) : string :=
  match s with
  | EmptyString => acc
  | String c s' => string_rev_acc s' (String c acc)
  end.
Definition string_rev (s : string) : string := string_rev_acc s EmptyString.

(** [s.split(/\s+/)]: [cur] is the token being read, reversed; [in_gap]
    tells that the previous character was white space. *)
Fixpoint split_ws_go (s : string) (cur : string) (in_gap : bool) : list string :=
  match s with
  | EmptyString => [string_rev cur]
  | String c s' =>
      if is_space c
      then if in_gap then split_ws_go s' cur true
           else string_rev cur :: split_ws_go s' EmptyString true
      else split_ws_go s' (String c cur) false
  end.
Definition split_ws (s : string) : list string := split_ws_go s EmptyString false.

(** [s.split(sep)] for a one-character separator. *)
Fixpoint split_char_go (sep : ascii) (s : string) (cur : string) : list string :=
  match s with
  | EmptyString => [string_rev cur]
  | String c s' =>
      if Ascii.eqb c sep
      then string_rev cur :: split_char_go sep s' EmptyString
      else split_char_go sep s' (String c cur)
  end.
Definition split_char (sep : ascii) (s : string) : list string :=
  split_char_go sep s EmptyString.

Definition join (sep : string) (l : list string) : string := String.concat sep l.

Fixpoint string_forallb (f : ascii -> bool) (s : string) : bool :=
  match s with
  | EmptyString => true
  | String c s' => f c && string_forallb f s'
  end.
Definition string_existsb (f : ascii -> bool) (s : string) : bool :=
  negb (string_forallb (fun c => negb (f c)) s).

Fixpoint string_count (f : ascii -> bool) (s : string) : nat :=
  match s with
  | EmptyString => O
  | String c s' => (if f c then 1 else 0)%nat + string_count f s'
  end.

(** [s.indexOf(c) > -1] *)
Definition contains_char (c : ascii) (s : string) : bool :=
  string_existsb (Ascii.eqb c) s.

Fixpoint take_digits (s : string) : string :=
  match s with
  | String c s' => if is_digit c then String c (take_digits s') else EmptyString
  | EmptyString => EmptyString
  end.

(** [parseInt(s, 10)] on a string without leading white space; [None] is
    [NaN]. *)
Definition parseInt (s : string) : option Z :=
  let unsigned (t : string) :=
    let d := take_digits t in
    if String.eqb d EmptyString then None
    else Z.of_uint <$> NilEmpty.uint_of_string d in
  match s with
  | String "-" t => Z.opp <$> unsigned t
  | String "+" t => unsigned t
  | _ => unsigned s
  end.

(** Decimal rendering of a number that holds an integer. *)
Definition Z_to_string (n : Z) : string := NilEmpty.string_of_int (Z.to_int n).

(** ** FEN emission and loading *)

Definition piece_letter (p : Piece) : string :=
  match pcolor p with
  | WHITE => toUpperCase (symbol (ptype p))
  | BLACK => toLowerCase (symbol (ptype p))
  end.

(** The placement loop of [fen()]. *)
Fixpoint fen_placement (squares : list Z) (b : gmap Z Piece) (empty : Z) (fen : string) : string :=
  match squares with
  | [] => fen
  | i :: rest =>
      let '(empty, fen) :=
        match b !! i with
        | Some p =>
            (0, (if 0 <? empty then fen +:+ Z_to_string empty else fen) +:+ piece_letter p)
        | None => (empty + 1, fen)
        end in
      if off_board (i + 1) then
        let fen := if 0 <? empty then fen +:+ Z_to_string empty else fen in
        let fen := if negb (i =? Ox88.h1) then fen +:+ "/" else fen in
        fen_placement rest b 0 fen
      else fen_placement rest b empty fen
  end.

Definition fen_castling (c : PerColor) : string :=
  let castling :=
    (if has (pc_get c WHITE) BITS.KSIDE_CASTLE then "K" else EmptyString)
    +:+ (if has (pc_get c WHITE) BITS.QSIDE_CASTLE then "Q" else EmptyString)
    +:+ (if has (pc_get c BLACK) BITS.KSIDE_CASTLE then "k" else EmptyString)
    +:+ (if has (pc_get c BLACK) BITS.QSIDE_CASTLE then "q" else EmptyString) in
  if String.eqb castling EmptyString then "-" else castling.

Definition in_tag (c : ascii) (s : string) : bool := contains_char c s.

(** The piece type named by a placement letter, if any. *)
Definition piece_of_letter (c : ascii) : option PieceSymbol :=
  let l := ascii_lower c in
  if Ascii.eqb l "p" then Some PAWN
  else if Ascii.eqb l "n" then Some KNIGHT
  else if Ascii.eqb l "b" then Some BISHOP
  else if Ascii.eqb l "r" then Some ROOK
  else if Ascii.eqb l "q" then Some QUEEN
  else if Ascii.eqb l "k" then Some KING
  else None.

(** The character loop of [validateFen] over one row of the placement;
    the result is the error message of the first failed check. *)
Fixpoint valid_row_from (s : string) (sumFields : Z) (previousWasNumber : bool)
    : option string :=
  match s with
  | EmptyString =>
      if sumFields =? 8 then None
      else Some "Invalid FEN: piece data is invalid (too many squares in rank)"
  | String c s' =>
      if is_digit c then
        if previousWasNumber
        then Some "Invalid FEN: piece data is invalid (consecutive number)"
        else valid_row_from s' (sumFields + digit_value c) true
      else if negb (contains_char c "prnbqkPRNBQK")
      then Some "Invalid FEN: piece data is invalid (invalid piece)"
      else valid_row_from s' (sumFields + 1) false
  end.

Definition valid_row (row : string) : option string := valid_row_from row 0 false.

Fixpoint first_error {A} (f : A -> option string) (l : list A) : option string :=
  match l with
  | [] => None
  | x :: l' => match f x with Some e => Some e | None => first_error f l' end
  end.

Definition valid_ep (t : string) : bool :=
  match t with
  | String "-" EmptyString => true
  | String f (String r EmptyString) =>
      contains_char f "abcdefgh" && contains_char r "36"
  | _ => false
  end.

(** [validateFen], returning the error message of the first failed
    criterion. *)
Definition validateFen (fen : string) : option string :=
  let tokens := split_ws fen in
  let tok (i : nat) := nth i tokens EmptyString in
  if negb (length tokens =? 6)%nat
  then Some "Invalid FEN: must contain six space-delimited fields"
  else if match parseInt (tok 5%nat) with None => true | Some n => n <=? 0 end
  then Some "Invalid FEN: move number must be a positive integer"
  else if match parseInt (tok 4%nat) with None => true | Some n => n <? 0 end
  then Some "Invalid FEN: half move counter number must be a non-negative integer"
  else if negb (valid_ep (tok 3%nat))
  then Some "Invalid FEN: en-passant square is invalid"
  else if string_existsb (fun c => negb (contains_char c "kKqQ-")) (tok 2%nat)
  then Some "Invalid FEN: castling availability is invalid"
  else if negb (String.eqb (tok 1%nat) "w" || String.eqb (tok 1%nat) "b")
  then Some "Invalid FEN: side-to-move is invalid"
  else
    let rows := split_char "/" (tok 0%nat) in
    if negb (length rows =? 8)%nat
    then Some "Invalid FEN: piece data does not contain 8 '/'-delimited rows"
    else match first_error valid_row rows with
    | Some e => Some e
    | None =>
      if (String.eqb (char_at (tok 3%nat) 1) "3" && String.eqb (tok 1%nat) "w")
         || (String.eqb (char_at (tok 3%nat) 1) "6" && String.eqb (tok 1%nat) "b")
      then Some "Invalid FEN: illegal en-passant square"
      else if (string_count (Ascii.eqb "K") (tok 0%nat) =? 0)%nat
      then Some "Invalid FEN: missing white king"
      else if (1 <? string_count (Ascii.eqb "K") (tok 0%nat))%nat
      then Some "Invalid FEN: too many white kings"
      else if (string_count (Ascii.eqb "k") (tok 0%nat) =? 0)%nat
      then Some "Invalid FEN: missing black king"
      else if (1 <? string_count (Ascii.eqb "k") (tok 0%nat))%nat
      then Some "Invalid FEN: too many black kings"
      else if string_existsb (fun c => Ascii.eqb (ascii_upper c) "P")
                (nth 0 rows EmptyString +:+ nth 7 rows EmptyString)
      then Some "Invalid FEN: some pawns are on the edge rows"
      else None
    end.

(** ** SAN strings (pure part) *)

Definition DEFAULT_POSITION : string :=
  "rnbqkbnr/pppppppp/8/8/8/8/PPPPPPPP/RNBQKBNR w KQkq - 0 1".

Definition SAN_NULLMOVE : string := "--".

(** [s.replace(c, '')] for a one-character pattern: drop its first
    occurrence. *)
Fixpoint remove_first (c : ascii) (s : string) : string :=
  match s with
  | EmptyString => EmptyString
  | String d s' => if Ascii.eqb c d then s' else String d (remove_first c s')
  end.

(** Does the whole of [s] match [[+#]?[?!]*]? *)
Definition is_decoration (s : string) : bool :=
  match s with
  | String c r =>
      if contains_char c "+#" then string_forallb (fun d => contains_char d "?!") r
      else string_forallb (fun d => contains_char d "?!") s
  | EmptyString => true
  end.

(** [s.replace(/[+#]?[?!]*$/, '')]: cut at the leftmost position from
    which the rest is a decoration. *)
Fixpoint strip_decoration (s : string) : string :=
  if is_decoration s then EmptyString
  else match s with
       | EmptyString => EmptyString
       | String c s' => String c (strip_decoration s')
       end.

Definition _strippedSan (move : string) : string :=
  strip_decoration (remove_first "=" move).

Definition is_file (c : ascii) : bool := contains_char c "abcdefgh".
Definition is_rank (c : ascii) : bool := contains_char c "12345678".
Definition is_newline (c : ascii) : bool :=
  let n := N_of_ascii c in ((n =? 10) || (n =? 13))%N.

(** [/[a-h]\d.*[a-h]\d/] *)
Fixpoint has_pair_on_line (s : string) : bool :=
  match s with
  | String f ((String d _) as s') =>
      (is_file f && is_digit d)
      || (negb (is_newline f) && has_pair_on_line s')
  | _ => false
  end.
Fixpoint two_squares (s : string) : bool :=
  match s with
  | String f ((String d rest) as s') =>
      (is_file f && is_digit d && has_pair_on_line rest) || two_squares s'
  | _ => false
  end.

(** [_inferPieceType]; [None] is [undefined], and the result is whatever
    one-character string the SAN begins with otherwise. *)
Definition _inferPieceType (san : string) : option string :=
  let pieceType := char_at san 0 in
  match pieceType with
  | String c EmptyString =>
      if ((97 <=? N_of_ascii c) && (N_of_ascii c <=? 104))%N
      then if two_squares san then None else Some (symbol PAWN)
      else let pieceType := toLowerCase pieceType in
           if String.eqb pieceType "o" then Some (symbol KING) else Some pieceType
  | _ => Some pieceType
  end.

(** [_getDisambiguator] *)
Definition _getDisambiguator (move : InternalMove) (moves : list InternalMove) : string :=
  let from := m_from move in
  let to := m_to move in
  let piece := m_piece move in
  let ambiguous (m : InternalMove) : bool :=
    bool_decide (piece = m_piece m) && negb (from =? m_from m) && (to =? m_to m) in
  let count (f : InternalMove -> bool) := length (List.filter f moves) in
  let ambiguities := count ambiguous in
  let sameRank := count (fun m => ambiguous m && (rank from =? rank (m_from m))) in
  let sameFile := count (fun m => ambiguous m && (file from =? file (m_from m))) in
  if (0 <? ambiguities)%nat then
    if (0 <? sameRank)%nat && (0 <? sameFile)%nat then algebraic from
    else if (0 <? sameFile)%nat then char_at (algebraic from) 1
    else char_at (algebraic from) 0
  else EmptyString.

(** The part of [_moveToSan] written before the move is tried on the
    board; [None] for the null move, which returns at once. *)
Definition san_body (move : InternalMove) (moves : list InternalMove) : option string :=
  if has (m_flags move) BITS.KSIDE_CASTLE then Some "O-O"
  else if has (m_flags move) BITS.QSIDE_CASTLE then Some "O-O-O"
  else if has (m_flags move) BITS.NULL_MOVE then None
  else
    let output :=
      if negb (bool_decide (m_piece move = PAWN))
      then toUpperCase (symbol (m_piece move)) +:+ _getDisambiguator move moves
      else EmptyString in
    let output :=
      if has (m_flags move) (Z.lor BITS.CAPTURE BITS.EP_CAPTURE)
      then (if bool_decide (m_piece move = PAWN)
            then output +:+ char_at (algebraic (m_from move)) 0
            else output) +:+ "x"
      else output in
    let output := output +:+ algebraic (m_to move) in
    Some (match m_promotion move with
          | Some pr => output +:+ "=" +:+ toUpperCase (symbol pr)
          | None => output
          end).

(** *** The two regular expressions of the permissive parser *)

Record SanMatch := mkSanMatch {
  sm_piece : option string;
  sm_from : string;
  sm_to : string;
  sm_promotion : option string
}.

Definition str1 (c : ascii) : string := String c EmptyString.
Definition str2 (c d : ascii) : string := String c (String d EmptyString).

(** [([a-h][1-8])([qrbnQRBN])?] at the head of [s]. *)
Definition match_target (s : string) : option (string * option string) :=
  match s with
  | String f (String r rest) =>
      if is_file f && is_rank r
      then Some (str2 f r,
                 match rest with
                 | String p _ => if contains_char p "qrbnQRBN" then Some (str1 p) else None
                 | EmptyString => None
                 end)
      else None
  | _ => None
  end.

(** [-?] followed by the target, greedy first. *)
Definition match_dash (s : string) : option (string * option string) :=
  match s with
  | String "-" rest =>
      match match_target rest with
      | Some r => Some r
      | None => match_target s
      end
  | _ => match_target s
  end.

(** [x?-?] followed by the target, greedy first. *)
Definition match_x (s : string) : option (string * option string) :=
  match s with
  | String "x" rest =>
      match match_dash rest with
      | Some r => Some r
      | None => match_dash s
      end
  | _ => match_dash s
  end.

(** The source square of the first expression, [[a-h][1-8]]. *)
Definition match_from_square (s : string) : option (string * (string * option string)) :=
  match s with
  | String f (String r rest) =>
      if is_file f && is_rank r
      then (fun t => (str2 f r, t)) <$> match_x rest
      else None
  | _ => None
  end.

(** The source of the second expression, [[a-h]?[1-8]?], longest first. *)
Definition match_from_partial (s : string) : option (string * (string * option string)) :=
  let with_rank (prefix : string) (t : string) :=
    match t with
    | String r rest =>
        if is_rank r
        then match match_x rest with
             | Some m => Some (prefix +:+ str1 r, m)
             | None => (fun m => (prefix, m)) <$> match_x t
             end
        else (fun m => (prefix, m)) <$> match_x t
    | EmptyString => (fun m => (prefix, m)) <$> match_x t
    end in
  match s with
  | String f rest =>
      if is_file f
      then match with_rank (str1 f) rest with
           | Some m => Some m
           | None => with_rank EmptyString s
           end
      else with_rank EmptyString s
  | EmptyString => with_rank EmptyString s
  end.

(** The optional piece letter in front, greedy first, at one start
    position. *)
Definition match_piece_at
    (from_part : string -> option (string * (string * option string)))
    (s : string) : option SanMatch :=
  let build (piece : option string) (r : string * (string * option string)) :=
    mkSanMatch piece (fst r) (fst (snd r)) (snd (snd r)) in
  match s with
  | String p rest =>
      if contains_char p "pnbrqkPNBRQK"
      then match from_part rest with
           | Some r => Some (build (Some (str1 p)) r)
           | None => build None <$> from_part s
           end
      else build None <$> from_part s
  | EmptyString => build None <$> from_part s
  end.

(** [s.match(re)] for an unanchored expression: the leftmost start
    position that matches. *)
Fixpoint match_leftmost
    (from_part : string -> option (string * (string * option string)))
    (s : string) : option SanMatch :=
  match match_piece_at from_part s with
  | Some m => Some m
  | None => match s with
            | EmptyString => None
            | String _ s' => match_leftmost from_part s'
            end
  end.

(** ** Game: SAN, FEN, load, move *)

(** What [new Move(internal, san, before, after)] is built from. *)
Record Move := mkPretty {
  pm_internal : InternalMove;
  pm_san : string;
  pm_before : string;
  pm_after : string
}.

(** The argument of [move()]: a SAN string, [null], or an object
    [{from, to, promotion?}]. *)
Inductive MoveInput :=
| MoveSan (san : string)
| MoveNull
| MoveObject (from to : string) (promotion : option string).

Section GameOps.

Context (K : Zobrist).

Definition isCheckmate (legalMoves : list InternalMove) : M bool :=
  gets (fun g => isCheck g && bool_decide (legalMoves = [])).

Definition _moveToSan (move : InternalMove) (moves : list InternalMove) : M string :=
  match san_body move moves with
  | None => ret SAN_NULLMOVE
  | Some output =>
      _makeMove K move ;;
      let* legalMoves := _moves K true None None in
      let* check := gets isCheck in
      let* mate := isCheckmate legalMoves in
      let output := if check then (if mate then output +:+ "#" else output +:+ "+")
                    else output in
      _undoMove K ;;
      ret output
  end.

(** First element of [moves] whose SAN, transformed by [key], equals
    [cleanMove]. *)
Fixpoint find_by_san (key : string -> string) (cleanMove : string)
    (all rest : list InternalMove) : M (option InternalMove) :=
  match rest with
  | [] => ret None
  | m :: rest' =>
      let* san := _moveToSan m all in
      if String.eqb cleanMove (key san) then ret (Some m)
      else find_by_san key cleanMove all rest'
  end.

Definition eq_symbol (s : option string) (t : PieceSymbol) : bool :=
  match s with
  | None => true       (* [!piece] *)
  | Some s => String.eqb (toLowerCase s) (symbol t)
  end.
Definition eq_promotion (s : option string) (t : option PieceSymbol) : bool :=
  match s, t with
  | None, _ => true    (* [!promotion] *)
  | Some s, Some t => String.eqb (toLowerCase s) (symbol t)
  | Some _, None => false
  end.
Definition eq_square (name : string) (sq : Z) : bool :=
  match Ox88_of name with
  | Some i => i =? sq
  | None => false
  end.

(** The last loop of [_moveFromSan]. *)
Fixpoint find_permissive (cleanMove : string) (mt : SanMatch) (overlyDisambiguated : bool)
    (all rest : list InternalMove) : M (option InternalMove) :=
  match rest with
  | [] => ret None
  | m :: rest' =>
      if String.eqb (sm_from mt) EmptyString then
        let* san := _moveToSan m all in
        if String.eqb cleanMove (remove_first "x" (_strippedSan san)) then ret (Some m)
        else find_permissive cleanMove mt overlyDisambiguated all rest'
      else if eq_symbol (sm_piece mt) (m_piece m)
              && eq_square (sm_from mt) (m_from m)
              && eq_square (sm_to mt) (m_to m)
              && eq_promotion (sm_promotion mt) (m_promotion m)
      then ret (Some m)
      else if overlyDisambiguated then
        let square := algebraic (m_from m) in
        if eq_symbol (sm_piece mt) (m_piece m)
           && eq_square (sm_to mt) (m_to m)
           && (String.eqb (sm_from mt) (char_at square 0)
               || String.eqb (sm_from mt) (char_at square 1))
           && eq_promotion (sm_promotion mt) (m_promotion m)
        then ret (Some m)
        else find_permissive cleanMove mt overlyDisambiguated all rest'
      else find_permissive cleanMove mt overlyDisambiguated all rest'
  end.

Definition _moveFromSan (move : string) (strict : bool) : M (option InternalMove) :=
  let cleanMove := _strippedSan move in
  let cleanMove :=
    if negb strict then
      if String.eqb cleanMove "0-0" then "O-O"
      else if String.eqb cleanMove "0-0-0" then "O-O-O"
      else cleanMove
    else cleanMove in
  if String.eqb cleanMove SAN_NULLMOVE then
    let* t := gets _turn in
    ret (Some (mkMove t 0 0 KING None None BITS.NULL_MOVE))
  else
    let pieceType := _inferPieceType cleanMove in
    let* moves := _moves K true pieceType None in
    (* strict parser *)
    let* found := find_by_san _strippedSan cleanMove moves moves in
    match found with
    | Some m => ret (Some m)
    | None =>
        if strict then ret None
        else
          let matches :=
            match match_leftmost match_from_square cleanMove with
            | Some mt => Some mt
            | None => match_leftmost match_from_partial cleanMove
            end in
          let overlyDisambiguated :=
            match matches with
            | Some mt => (String.length (sm_from mt) =? 1)%nat
            | None => false
            end in
          let piece := matches ≫= sm_piece in
          let* moves := _moves K true (match piece with
                                        | Some p => Some p
                                        | None => pieceType
                                        end) None in
          match matches with
          | None => ret None
          | Some mt => find_permissive cleanMove mt overlyDisambiguated moves moves
          end
    end.

(** The en-passant field of [fen()] in the default mode: try the capture
    from each neighbour of the pushed pawn. *)
Fixpoint fen_ep_try (squares : list Z) : M string :=
  match squares with
  | [] => ret "-"
  | square :: rest =>
      if off_board square then fen_ep_try rest
      else
        let* color := gets _turn in
        let* here := gets (fun g => _board g !! square) in
        if bool_decide (here = Some (mkPiece PAWN color)) then
          let* ep := gets _epSquare in
          _makeMove K (mkMove color square ep PAWN (Some PAWN) None BITS.EP_CAPTURE) ;;
          let* isLegal := gets (fun g => negb (_isKingAttacked g color)) in
          _undoMove K ;;
          if isLegal
          then let* ep := gets _epSquare in ret (algebraic ep)
          else fen_ep_try rest
        else fen_ep_try rest
  end.

Definition fen (forceEnpassantSquare : bool) : M string :=
  let* placement := gets (fun g => fen_placement board_squares (_board g) 0 EmptyString) in
  let* castling := gets (fun g => fen_castling (_castling g)) in
  let* fenEp := gets _fenEpSquare in
  let* ep := gets _epSquare in
  let* epSquare :=
    if negb (fenEp =? EMPTY) then
      if forceEnpassantSquare then ret (algebraic fenEp)
      else if negb (ep =? EMPTY) then
        let* t := gets _turn in
        let bigPawnSquare := ep + (if bool_decide (t = WHITE) then 16 else -16) in
        fen_ep_try [bigPawnSquare + 1; bigPawnSquare - 1]
      else ret "-"
    else ret "-" in
  let* g := gets id in
  ret (join " " [placement; color_symbol (_turn g); castling; epSquare;
                 Z_to_string (_halfMoves g); Z_to_string (_moveNumber g)]).

(** The four tests of [_updateCastlingRights]: a right survives only while
    its king and its rook stand on their home squares. *)
Definition pruned_rights (b : gmap Z Piece) (r : PerColor) : PerColor :=
  let whiteKingInPlace := bool_decide (b !! Ox88.e1 = Some (mkPiece KING WHITE)) in
  let blackKingInPlace := bool_decide (b !! Ox88.e8 = Some (mkPiece KING BLACK)) in
  let rook_missing (sq : Z) (c : Color) :=
    negb (bool_decide (b !! sq = Some (mkPiece ROOK c))) in
  let drop (cond : bool) (c : Color) (flag : Z) (r : PerColor) :=
    if cond then pc_set r c (Z.land (pc_get r c) (Z.lnot flag)) else r in
  let r := drop (negb whiteKingInPlace || rook_missing Ox88.a1 WHITE) WHITE BITS.QSIDE_CASTLE r in
  let r := drop (negb whiteKingInPlace || rook_missing Ox88.h1 WHITE) WHITE BITS.KSIDE_CASTLE r in
  let r := drop (negb blackKingInPlace || rook_missing Ox88.a8 BLACK) BLACK BITS.QSIDE_CASTLE r in
  let r := drop (negb blackKingInPlace || rook_missing Ox88.h8 BLACK) BLACK BITS.KSIDE_CASTLE r in
  r.

Definition _updateCastlingRights : M unit :=
  (let* ck := _castlingKey K in xor_hash ck) ;;
  modify (fun g => set_castling (pruned_rights (_board g) (_castling g)) g) ;;
  (let* ck := _castlingKey K in xor_hash ck).

(** The placement loop of [load].  A letter that names no piece makes
    [_pieceKey] raise a TypeError inside [_set]; the model raises it
    before the slot is written. *)
Fixpoint load_placement (position : string) (square : Z) : M unit :=
  match position with
  | EmptyString => ret tt
  | String piece rest =>
      if Ascii.eqb piece "/" then load_placement rest (square + 8)
      else if is_digit piece then load_placement rest (square + digit_value piece)
      else
        let color := if (N_of_ascii piece <? 97)%N then WHITE else BLACK in
        match piece_of_letter piece with
        | None => throw TypeError
        | Some type =>
            _set K square (mkPiece type color) ;;
            when (bool_decide (type = KING))
                 (modify (fun g => set_kings (pc_set (_kings g) color square) g)) ;;
            load_placement rest (square + 1)
        end
  end.

(** [tokens.concat(adjustments.slice(-(6 - tokens.length))).join(' ')] *)
Definition autofill (fen : string) : string :=
  let tokens := split_ws fen in
  let n := length tokens in
  if (2 <=? n)%nat && (n <? 6)%nat
  then join " " (tokens ++ drop (n - 2) ["-"; "-"; "0"; "1"])
  else fen.

Definition or_unmodelled {A} (o : option A) : M A :=
  match o with Some a => ret a | None => throw Unmodelled end.

(** [Game.load].  The closing [this._position.load(fen)] parses the same
    string into the same board a second time and leaves every other field
    alone, so it has no counterpart here. *)
Definition load (fen : string) : M unit :=
  let tokens := split_ws (autofill fen) in
  let tok (i : nat) := nth i tokens EmptyString in
  let position := tok 0%nat in
  modify (set_board ∅) ;;
  modify (set_kings (mkPC EMPTY EMPTY)) ;;
  modify (set_turn WHITE) ;;
  modify (set_castling (mkPC 0 0)) ;;
  modify (set_epSquare EMPTY) ;;
  modify (set_fenEpSquare EMPTY) ;;
  modify (set_halfMoves 0) ;;
  modify (set_moveNumber 1) ;;
  modify (set_history []) ;;
  (let* h := _computeHash K in modify (set_hash h)) ;;
  modify (set_positionCount ∅) ;;
  load_placement position 0 ;;
  (if (length tokens <? 3)%nat then throw TypeError
   else if String.eqb (tok 1%nat) "w" then modify (set_turn WHITE)
   else if String.eqb (tok 1%nat) "b" then modify (set_turn BLACK)
   else throw Unmodelled) ;;
  let grant (letter : ascii) (c : Color) (flag : Z) : M unit :=
    when (contains_char letter (tok 2%nat))
         (modify (fun g => set_castling
                    (pc_set (_castling g) c (Z.lor (pc_get (_castling g) c) flag)) g)) in
  grant "K"%char WHITE BITS.KSIDE_CASTLE ;;
  grant "Q"%char WHITE BITS.QSIDE_CASTLE ;;
  grant "k"%char BLACK BITS.KSIDE_CASTLE ;;
  grant "q"%char BLACK BITS.QSIDE_CASTLE ;;
  _updateCastlingRights ;;
  (let* ep := if String.eqb (tok 3%nat) "-" then ret EMPTY
              else or_unmodelled (Ox88_of (tok 3%nat)) in
   modify (set_epSquare ep) ;;
   modify (set_fenEpSquare ep)) ;;
  (let* n := or_unmodelled (parseInt (tok 4%nat)) in modify (set_halfMoves n)) ;;
  (let* n := or_unmodelled (parseInt (tok 5%nat)) in modify (set_moveNumber n)) ;;
  (let* h := _computeHash K in modify (set_hash h)).

(** The field initialisers of [class Game]. *)
Definition blank_game : Game :=
  mkGame ∅ WHITE (mkPC EMPTY EMPTY) 0 0 ∅ (-1) (mkPC 0 0) [] (-1) 0.

(** [new Game()] *)
Definition new_Game : Res unit := load DEFAULT_POSITION blank_game.

Definition _getPositionCount (hash : Z) : M Z :=
  gets (fun g => default 0 (_positionCount g !! hash)).

Definition isThreefoldRepetition : M bool :=
  let* h := gets _hash in
  let* n := _getPositionCount h in
  ret (3 <=? n).

Definition _incPositionCount : M unit :=
  modify (fun g =>
    set_positionCount
      (<[_hash g := default 0 (_positionCount g !! _hash g) + 1]> (_positionCount g)) g).

Definition _decPositionCount (hash : Z) : M unit :=
  modify (fun g =>
    let currentCount := default 0 (_positionCount g !! hash) in
    if currentCount =? 1
    then set_positionCount (delete hash (_positionCount g)) g
    else set_positionCount (<[hash := currentCount - 1]> (_positionCount g)) g).

(** [createPrettyMove(game, internal)] *)
Definition createPrettyMove (internal : InternalMove) : M Move :=
  let* legalMoves := _moves K true None None in
  let* san := _moveToSan internal legalMoves in
  let* before := fen false in
  _makeMove K internal ;;
  let* after := fen false in
  _undoMove K ;;
  ret (mkPretty internal san before after).

(** The object form of [move()]: the first legal move that agrees on
    from, to and, when the move promotes, on the promotion piece. *)
Definition find_object_move (from to : string) (promotion : option string)
    (moves : list InternalMove) : option InternalMove :=
  List.find (fun m =>
    String.eqb from (algebraic (m_from m))
    && String.eqb to (algebraic (m_to m))
    && match m_promotion m with
       | None => true
       | Some pr => bool_decide (promotion = Some (symbol pr))
       end) moves.

(** The text of [JSON.stringify(move)] for the inputs that are not
    strings (values are written without escapes). *)
Definition json_of_input (move : MoveInput) : string :=
  let q := String "034" EmptyString in
  let field (k v : string) := q +:+ k +:+ q +:+ ":" +:+ q +:+ v +:+ q in
  match move with
  | MoveSan s => s
  | MoveNull => "null"
  | MoveObject from to promotion =>
      "{" +:+ field "from" from +:+ "," +:+ field "to" to
      +:+ match promotion with
          | Some p => "," +:+ field "promotion" p
          | None => EmptyString
          end +:+ "}"
  end.

Definition resolve_move (legal_moves : M (list InternalMove))
    (move : MoveInput) (strict : bool) : M InternalMove :=
  let* moveObj :=
    match move with
    | MoveSan san => _moveFromSan san strict
    | MoveNull => _moveFromSan SAN_NULLMOVE strict
    | MoveObject from to promotion =>
        let* moves := legal_moves in
        ret (find_object_move from to promotion moves)
    end in
  match moveObj with
  | None => throw (Error ("Invalid move: " +:+ json_of_input move))
  | Some moveObj =>
      let* check := gets isCheck in
      if check && has (m_flags moveObj) BITS.NULL_MOVE
      then throw (Error "Null move not allowed when in check")
      else ret moveObj
  end.

(** [Game.move] *)
Definition Game_move (move : MoveInput) (strict : bool) : M Move :=
  let* moveObj := resolve_move (_moves K true None None) move strict in
  let* prettyMove := createPrettyMove moveObj in
  _makeMove K moveObj ;;
  ret prettyMove.

(** [Game.undo] *)
Definition Game_undo : M (option Move) :=
  let* move := _undoMove K in
  match move with
  | Some move => let* pm := createPrettyMove move in ret (Some pm)
  | None => ret None
  end.

(** ** The ChessPGN wrapper *)

(** [ChessPGN._moves] *)
Definition ChessPGN_moves (legal : bool) (piece square : option string)
    : M (list InternalMove) :=
  let* moves := _moves K false piece square in
  let* us := gets _turn in
  let* king := gets (fun g => pc_get (_kings g) us) in
  if negb legal || (king =? -1) then ret moves
  else filter_legal K us moves.

(** [ChessPGN._createMove] *)
Definition _createMove (internal : InternalMove) : M Move :=
  let* legalMoves := ChessPGN_moves true None None in
  let* san := _moveToSan internal legalMoves in
  let* before := fen false in
  _makeMove K internal ;;
  let* after := fen false in
  _undoMove K ;;
  ret (mkPretty internal san before after).

(** [ChessPGN.load]; the header bookkeeping ([_updateSetup]) touches no
    engine field. *)
Definition ChessPGN_load (fen : string) (skipValidation : bool) : M unit :=
  load fen ;;
  (if negb skipValidation then
     match validateFen fen with
     | Some error => throw (Error error)
     | None => ret tt
     end
   else ret tt) ;;
  _incPositionCount.

(** [ChessPGN.move] *)
Definition ChessPGN_move (move : MoveInput) (strict : bool) : M Move :=
  let* moveObj := resolve_move (ChessPGN_moves true None None) move strict in
  let* prettyMove := _createMove moveObj in
  _makeMove K moveObj ;;
  _incPositionCount ;;
  ret prettyMove.

(** [ChessPGN.undo] *)
Definition ChessPGN_undo : M (option Move) :=
  let* hash := gets _hash in
  let* move := _undoMove K in
  match move with
  | Some move =>
      let* prettyMove := _createMove move in
      _decPositionCount hash ;;
      ret (Some prettyMove)
  | None => ret None
  end.

(** [ChessPGN.setTurn] *)
Definition setTurn (color : Color) : M bool :=
  let* t := gets _turn in
  if bool_decide (t = color) then ret false
  else ChessPGN_move (MoveSan "--") false ;; ret true.

(** [new ChessPGN(fen)] *)
Definition new_ChessPGN (fen : string) : Res unit :=
  match new_Game with
  | Ok _ g => ChessPGN_load fen false g
  | Throw e g => Throw e g
  end.

End GameOps.

(** ** Header scanner and indexer *)

Fixpoint drop_spaces (s : string) : string :=
  match s with
  | String c s' => if is_space c then drop_spaces s' else s
  | EmptyString => EmptyString
  end.

(** [s.trim()] *)
Definition trim (s : string) : string :=
  string_rev (drop_spaces (string_rev (drop_spaces s))).

Definition startsWith (c : ascii) (s : string) : bool :=
  match s with
  | String d _ => Ascii.eqb c d
  | EmptyString => false
  end.

Definition is_name_char (c : ascii) : bool :=
  let n := N_of_ascii c in
  (((65 <=? n) && (n <=? 90)) || ((97 <=? n) && (n <=? 122))
   || ((48 <=? n) && (n <=? 57)) || (n =? 95))%N.

Fixpoint take_while (f : ascii -> bool) (s : string) : string :=
  match s with
  | String c s' => if f c then String c (take_while f s') else EmptyString
  | EmptyString => EmptyString
  end.
Fixpoint drop_while (f : ascii -> bool) (s : string) : string :=
  match s with
  | String c s' => if f c then drop_while f s' else s
  | EmptyString => EmptyString
  end.

Definition dquote : ascii := "034"%char.
Definition backslash : ascii := "092"%char.
Definition newline : ascii := "010"%char.

(** [ln.indexOf(quote, pos)] seen from [pos]: the text after the first
    double quote, if there is one. *)
Fixpoint after_first_quote (s : string) : option string :=
  match s with
  | EmptyString => None
  | String c s' => if Ascii.eqb c dquote then Some s' else after_first_quote s'
  end.

(** The search for the closing quote: [bs] counts the backslashes that
    immediately precede the current character, [raw] is the value read so
    far, reversed.  A quote closes the value when [bs] is even.  The
    result is the raw value and the text after the closing quote. *)
Fixpoint scan_value (s : string) (bs : nat) (raw : string) : option (string * string) :=
  match s with
  | EmptyString => None
  | String c s' =>
      if Ascii.eqb c dquote && Nat.even bs then Some (string_rev raw, s')
      else scan_value s' (if Ascii.eqb c backslash then S bs else O) (String c raw)
  end.

(** The first replacement of the unescaping: every pair of backslashes
    becomes one backslash, left to right. *)
Fixpoint unescape_backslashes (s : string) : string :=
  match s with
  | String c ((String d rest) as s') =>
      if Ascii.eqb c backslash && Ascii.eqb d backslash
      then String backslash (unescape_backslashes rest)
      else String c (unescape_backslashes s')
  | _ => s
  end.

(** The second replacement: every backslash followed by a double quote
    becomes the double quote. *)
Fixpoint unescape_quotes (s : string) : string :=
  match s with
  | String c ((String d rest) as s') =>
      if Ascii.eqb c backslash && Ascii.eqb d dquote
      then String dquote (unescape_quotes rest)
      else String c (unescape_quotes s')
  | _ => s
  end.

(** [parseTagPairLine] of [headerParser.ts]; the header loop inside
    [indexPgnGames] performs the same steps inline. *)
Definition parseTagPairLine (line : string) : option (string * string) :=
  let ln := trim line in
  match ln with
  | String "[" rest =>
      (* /^\[([A-Za-z0-9_]+)\s+/ *)
      let key := take_while is_name_char rest in
      let rest := drop_while is_name_char rest in
      if String.eqb key EmptyString then None
      else if negb (match rest with String c _ => is_space c | _ => false end) then None
      else
        let rest := drop_while is_space rest in
        match after_first_quote rest with
        | None => None
        | Some value_on =>
            match scan_value value_on 0 EmptyString with
            | None => None
            | Some (raw, after) =>
                if negb (startsWith "]" (trim after)) then None
                else Some (key, unescape_quotes (unescape_backslashes raw))
            end
        end
  | _ => None
  end.

(** The header block starting at the head of [lines]: stop at the first
    line that is blank or does not begin with a bracket, skip lines that
    do not scan. *)
Fixpoint scan_headers (lines : list string) (headers : gmap string string)
    : gmap string string :=
  match lines with
  | [] => headers
  | l :: rest =>
      let ln := trim l in
      if String.eqb ln EmptyString then headers
      else if negb (startsWith "[" ln) then headers
      else match parseTagPairLine ln with
           | Some (key, value) => scan_headers rest (<[key := value]> headers)
           | None => scan_headers rest headers
           end
  end.

Record GameIndex := mkIndex {
  startOffset : Z;
  endOffset : Z;
  headers : gmap string string
}.

(** [indices[indices.length - 1].endOffset = v] when the last entry is
    still open. *)
Definition close_last (indices : list GameIndex) (v : Z) : list GameIndex :=
  match reverse indices with
  | last :: before =>
      if endOffset last =? 0
      then reverse (mkIndex (startOffset last) v (headers last) :: before)
      else indices
  | [] => indices
  end.

(** The line loop of [indexPgnGames]: [prev] is the previous line ([None]
    before the first), [offset] is [getLineOffset(pgn, i)] for the line
    at the head. *)
Fixpoint index_lines (lines : list string) (prev : option string) (offset : Z)
    (indices : list GameIndex) : list GameIndex :=
  match lines with
  | [] => indices
  | l :: rest =>
      let next := offset + Z.of_nat (String.length l) + 1 in
      if startsWith "[" (trim l) then
        let prev_trimmed := match prev with Some p => trim p | None => EmptyString end in
        if negb (String.eqb prev_trimmed EmptyString)
        then index_lines rest (Some l) next indices
        else
          let indices := close_last indices offset in
          let hs := scan_headers lines ∅ in
          index_lines rest (Some l) next (indices ++ [mkIndex offset 0 hs])
      else index_lines rest (Some l) next indices
  end.

Definition indexPgnGames (pgn : string) : list GameIndex :=
  let lines := split_char newline pgn in
  close_last (index_lines lines None 0 []) (Z.of_nat (String.length pgn)).

(** ** The cursor *)

(** The error values a parse can throw: the message and, for a syntax
    error of the generated parser, the offending text [found]. *)
Record JsError := mkJsError { message : string; found : option string }.

Fixpoint is_prefix (p s : string) : bool :=
  match p, s with
  | EmptyString, _ => true
  | String a p', String c s' => Ascii.eqb a c && is_prefix p' s'
  | _, _ => false
  end.
Fixpoint includes (needle s : string) : bool :=
  is_prefix needle s
  || match s with
     | EmptyString => false
     | String _ s' => includes needle s'
     end.

(** [looksLikeHeaderIssue], the test that [parseGame] applies to the
    error of the full parse in the copies of the cursor that have it
    (module [Classified] below): [found] is an opening bracket or holds
    one, or the message reports one. *)
Definition looksLikeHeaderIssue (err : JsError) : bool :=
  match found err with
  | Some f => String.eqb f "[" || contains_char "[" f
  | None => false
  end
  || includes "'[' found" (message err).

(** [s.substring(a, b)] for [0 <= a]. *)
Definition substring (a b : Z) (s : string) : string :=
  let a := Z.max 0 a in
  let b := Z.max 0 b in
  let lo := Z.min a b in
  let hi := Z.max a b in
  String.substring (Z.to_nat lo) (Z.to_nat (hi - lo)) s.

(** The text after the first match of [/\r?\n\s*\r?\n/], if any: a line
    break, optional white space, a line break. *)
Fixpoint after_blank_line (s : string) : option string :=
  let fix gap (t : string) (last_lf : option string) : option string :=
    (* [t] follows a line break; remember the text after the last line
       break seen inside the white space that follows *)
    match t with
    | String c t' =>
        if is_space c
        then gap t' (if Ascii.eqb c newline then Some t' else last_lf)
        else last_lf
    | EmptyString => last_lf
    end in
  match s with
  | EmptyString => None
  | String c s' =>
      if Ascii.eqb c newline
      then match gap s' None with
           | Some rest => Some rest
           | None => after_blank_line s'
           end
      else after_blank_line s'
  end.

(** The options the cursor reads.  [onError] is a function of the
    caller: a call either returns ([None]) or throws ([Some] of what it
    throws). *)
Record CursorOptions := mkOptions {
  opt_start : Z;
  opt_length : Z;
  opt_prefetch : Z;
  opt_cacheSize : Z;
  opt_strict : bool;
  opt_onError : JsError -> Z -> option JsError
}.

(** The default [onError], [() => {}]. *)
Definition no_onError (e : JsError) (index : Z) : option JsError := None.

Section Cursor.

(** The parsed game objects and the three operations of other modules
    that the cursor calls ([pgnProcessor], the generated [pgn] parser and
    the [Game] constructor); each either returns or throws. *)
Context {G Root : Type}.
Context (processPgnToGame : string -> bool -> G + JsError).
Context (parse : string -> Root + JsError).
Context (Game_of : gmap string string -> Root -> G + JsError).

(** The fields of [CursorImpl]; [cache] keeps the insertion order of the
    JavaScript [Map], and [onError_calls] logs the calls made to the
    [onError] option. *)
Record CursorImpl := mkCursor {
  pgn : string;
  gameIndices : list GameIndex;
  currentPosition : Z;
  cache : list (Z * G);
  options : CursorOptions;
  errors : list (Z * JsError);
  onError_calls : list (JsError * Z)
}.

Definition set_currentPosition (v : Z) (c : CursorImpl) : CursorImpl :=
  mkCursor (pgn c) (gameIndices c) v (cache c) (options c) (errors c) (onError_calls c).
Definition set_cache (v : list (Z * G)) (c : CursorImpl) : CursorImpl :=
  mkCursor (pgn c) (gameIndices c) (currentPosition c) v (options c) (errors c) (onError_calls c).
Definition push_error (index : Z) (e : JsError) (c : CursorImpl) : CursorImpl :=
  mkCursor (pgn c) (gameIndices c) (currentPosition c) (cache c) (options c)
           (errors c ++ [(index, e)]) (onError_calls c).
Definition log_onError (e : JsError) (index : Z) (c : CursorImpl) : CursorImpl :=
  mkCursor (pgn c) (gameIndices c) (currentPosition c) (cache c) (options c)
           (errors c) (onError_calls c ++ [(e, index)]).

(** How a cursor method ends: it returns a value, or an error escapes to
    the caller; either way with the cursor as it then is. *)
Inductive Outcome (A : Type) :=
| Returns (a : A) (c : CursorImpl)
| Throws (e : JsError) (c : CursorImpl).
Arguments Returns {A} a c.
Arguments Throws {A} e c.

(** [this.options.onError(e, index)]: the call is logged, and what the
    callback throws escapes. *)
Definition call_onError (e : JsError) (index : Z) (c : CursorImpl) : Outcome unit :=
  match opt_onError (options c) e index with
  | None => Returns tt (log_onError e index c)
  | Some thrown => Throws thrown (log_onError e index c)
  end.

Definition cursor_of {A} (o : Outcome A) : CursorImpl :=
  match o with Returns _ c => c | Throws _ c => c end.

(** [new CursorImpl(pgn, indices, options)] with the defaults the
    constructor fills in with [||]. *)
Definition new_Cursor (source : string) (indices : list GameIndex)
    (start len prefetch cacheSize : option Z) (strict : option bool)
    (onError : option (JsError -> Z -> option JsError)) : CursorImpl :=
  let or_default (o : option Z) (d : Z) :=
    match o with
    | Some v => if v =? 0 then d else v
    | None => d
    end in
  mkCursor source indices (or_default start 0) []
           (mkOptions (or_default start 0)
                      (or_default len (Z.of_nat (length indices)))
                      (or_default prefetch 1)
                      (or_default cacheSize 10)
                      (default false strict)
                      (default no_onError onError))
           [] [].

Definition cache_get (index : Z) (c : CursorImpl) : option G :=
  snd <$> List.find (fun kv => fst kv =? index) (cache c).

Definition hasNext (c : CursorImpl) : bool :=
  let maxPosition := opt_start (options c) + opt_length (options c) in
  (currentPosition c <? maxPosition)
  && (currentPosition c <? Z.of_nat (length (gameIndices c))).

Definition evictOldest (c : CursorImpl) : CursorImpl :=
  set_cache (tail (cache c)) c.

(** [this.cache.set(index, game)] after the size check. *)
Definition cache_store (index : Z) (game : G) (c : CursorImpl) : CursorImpl :=
  let c := if Z.of_nat (length (cache c)) >=? opt_cacheSize (options c)
           then evictOldest c else c in
  let replaced :=
    List.map (fun kv => if fst kv =? index then (index, game) else kv) (cache c) in
  if existsb (fun kv => fst kv =? index) (cache c)
  then set_cache replaced c
  else set_cache (cache c ++ [(index, game)]) c.

(** [this.pgn.substring(gameIndex.startOffset, gameIndex.endOffset)] *)
Definition game_text (gameIndex : GameIndex) (c : CursorImpl) : string :=
  substring (startOffset gameIndex) (endOffset gameIndex) (pgn c).

(** The body of the inner [try] of [parseGame], up to the cache update:
    parse the movetext alone behind a dummy tag pair and build the game
    from the headers found by the indexer. *)
Definition fallback_parse (gameIndex : GameIndex) (gamePgn : string) : G + JsError :=
  let movesOnly := default EmptyString (after_blank_line gamePgn) in
  let safe := "[Event " +:+ str1 dquote +:+ "_" +:+ str1 dquote +:+ "]"
              +:+ str1 newline +:+ str1 newline +:+ movesOnly in
  match parse safe with
  | inl root => Game_of (headers gameIndex) root
  | inr e => inr e
  end.

(** [parseGame(index)], in the copy of the cursor that tries the fallback
    after every failed full parse; an index outside [gameIndices] makes
    the read of [gameIndex.startOffset] raise a TypeError. *)
Definition parseGame (index : Z) (c : CursorImpl) : Outcome (option G) :=
  match cache_get index c with
  | Some game => Returns (Some game) c
  | None =>
      match (if 0 <=? index then gameIndices c !! Z.to_nat index else None) with
      | None => Throws (mkJsError "TypeError" None) c
      | Some gameIndex =>
          let gamePgn := game_text gameIndex c in
          match processPgnToGame gamePgn (opt_strict (options c)) with
          | inl game => Returns (Some game) (cache_store index game c)
          | inr err =>
              (* Record the original error *)
              let c := push_error index err c in
              (* Attempt a fallback *)
              match fallback_parse gameIndex gamePgn with
              | inl game => Returns (Some game) (cache_store index game c)
              | inr fErr =>
                  let c := push_error index fErr c in
                  if opt_strict (options c) then Throws fErr c
                  else match call_onError fErr index c with
                       | Returns _ c' => Returns None c'
                       | Throws thrown c' => Throws thrown c'
                       end
              end
          end
      end
  end.

(** The loop of [prefetchGames], for [i] from [i] up to [prefetch];
    [fuel] bounds the number of iterations. *)
Fixpoint prefetch_loop (fuel : nat) (i : Z) (c : CursorImpl) : Outcome unit :=
  match fuel with
  | O => Returns tt c
  | S fuel' =>
      if i <=? opt_prefetch (options c) then
        let prefetchIndex := currentPosition c + i in
        if (prefetchIndex <? Z.of_nat (length (gameIndices c)))
           && negb (bool_decide (is_Some (cache_get prefetchIndex c)))
        then match parseGame prefetchIndex c with
             | Returns _ c' => prefetch_loop fuel' (i + 1) c'
             | Throws e c' => Throws e c'
             end
        else prefetch_loop fuel' (i + 1) c
      else Returns tt c
  end.

Definition prefetchGames (c : CursorImpl) : Outcome unit :=
  prefetch_loop (Z.to_nat (opt_prefetch (options c))) 1 c.

(** [next()] *)
Definition next (c : CursorImpl) : Outcome (option G) :=
  if negb (hasNext c) then Returns None c
  else match parseGame (currentPosition c) c with
       | Throws e c' => Throws e c'
       | Returns game c' =>
           let c' := set_currentPosition (currentPosition c' + 1) c' in
           if 0 <? opt_prefetch (options c') then
             match prefetchGames c' with
             | Returns _ c'' => Returns game c''
             | Throws e c'' => Throws e c''
             end
           else Returns game c'
       end.

(** [n] accesses to the same index in a row, whatever each of them
    ends with. *)
Fixpoint access (n : nat) (index : Z) (c : CursorImpl) : CursorImpl :=
  match n with
  | O => c
  | S n' => access n' index (cursor_of (parseGame index c))
  end.

(** The game at [index] parses neither in full ([e1]) nor through the
    fallback ([e2]). *)
Definition fails (index : Z) (c : CursorImpl) (e1 e2 : JsError) : Prop :=
  0 <= index /\
  exists gameIndex,
    gameIndices c !! Z.to_nat index = Some gameIndex /\
    processPgnToGame (game_text gameIndex c) (opt_strict (options c)) = inr e1 /\
    fallback_parse gameIndex (game_text gameIndex c) = inr e2.

(** [c'] is [c] after some cursor work: same text, index, options and
    position, and the two logs only grew. *)
Definition extends (c c' : CursorImpl) : Prop :=
  pgn c' = pgn c /\ gameIndices c' = gameIndices c /\ options c' = options c /\
  currentPosition c' = currentPosition c /\
  (exists l, errors c' = errors c ++ l) /\
  (exists l, onError_calls c' = onError_calls c ++ l).

End Cursor.

Arguments Returns {G A} a c.
Arguments Throws {G A} e c.

(** ** Well-formed positions *)

Definition on_board (i : Z) : Prop := 0 <= i < 128 /\ off_board i = false.

(** The direction from the en-passant square to the pawn that has just
    made the double push, seen from the side to move. *)
Definition ep_victim (turn : Color) (ep : Z) : Z :=
  match turn with WHITE => ep + 16 | BLACK => ep - 16 end.

Definition home_king (c : Color) : Z :=
  match c with WHITE => Ox88.e1 | BLACK => Ox88.e8 end.

(** What a per-colour castling mask may hold: a combination of the two
    castling bits. *)
Definition is_rights (x : Z) : Prop := x = 0 \/ x = 32 \/ x = 64 \/ x = 96.

(** The invariants of the data model that make and unmake rely on:
    - every occupied slot is a square of the board;
    - no pawn stands on rank 1 or rank 8;
    - when an en-passant square is set, it is empty and the pawn that
      passed over it stands right behind it;
    - castling rights are combinations of the two castling bits, and a
      colour that still has a right has its king on its home square, where
      [_kings] records it. *)
Record WF (g : Game) : Prop := mkWF {
  wf_board : forall i p, _board g !! i = Some p -> on_board i;
  wf_pawns : forall i c, _board g !! i = Some (mkPiece PAWN c) -> 16 <= i < 112;
  wf_ep : _epSquare g = EMPTY \/
          (_board g !! _epSquare g = None /\
           _board g !! ep_victim (_turn g) (_epSquare g)
             = Some (mkPiece PAWN (swapColor (_turn g))));
  wf_rights : forall c, is_rights (pc_get (_castling g) c);
  wf_castling : forall c, pc_get (_castling g) c <> 0 ->
          pc_get (_kings g) c = home_king c /\
          _board g !! home_king c = Some (mkPiece KING c)
}.

(** No move the generator collects takes a king: the side that is not to
    move is not in check. *)
Definition no_king_capture (g : Game) : Prop :=
  forall m, m ∈ pseudo_moves g None None -> m_captured m <> Some KING.

(** The fields that the specification lists as the identity of a
    position. *)
Definition same_position (g1 g2 : Game) : Prop :=
  _board g1 = _board g2 /\ _turn g1 = _turn g2 /\ _castling g1 = _castling g2 /\
  _epSquare g1 = _epSquare g2 /\ _fenEpSquare g1 = _fenEpSquare g2 /\
  _halfMoves g1 = _halfMoves g2 /\ _moveNumber g1 = _moveNumber g2 /\
  _hash g1 = _hash g2.

(** ** A sample key table *)

(** Modelled from the spec: a table of the stated shape, used to run the
    engine on concrete positions.  Its entries are distinct non-zero
    64-bit values, numbered colour-major, kind-major, then square, then the
    en-passant files, the castling indices and the side key; every theorem
    stated for an arbitrary [Zobrist] table is independent of it. *)
Definition sample_key (n : Z) : Z := ((n + 1) * 11400714819323198485) mod 2 ^ 64.

Definition kind_index (t : PieceSymbol) : Z :=
  match t with
  | PAWN => 0 | KNIGHT => 1 | BISHOP => 2 | ROOK => 3 | QUEEN => 4 | KING => 5
  end.
Definition color_index (c : Color) : Z :=
  match c with WHITE => 0 | BLACK => 1 end.

Definition sample_keys : Zobrist :=
  mkZobrist
    (fun c t i => sample_key ((color_index c * 6 + kind_index t) * 128 + i))
    (fun f => sample_key (1536 + f))
    (fun i => sample_key (1544 + i))
    (sample_key 1560).

(** ** The moves the generator collects *)

(** Flags and promotion piece recorded by [addMove] for a move that lands
    on [to]: the base flags alone, or, for a pawn, the base flags with
    PROMOTION and one of the promotion pieces. *)
Definition recorded (piece : PieceSymbol) (base : Z) (promo : option PieceSymbol)
    (flags : Z) : Prop :=
  (promo = None /\ flags = base) \/
  (piece = PAWN /\ exists pr, pr ∈ PROMOTIONS /\ promo = Some pr /\
                              flags = Z.lor base BITS.PROMOTION).

(** The shapes of the moves that [_moves] collects in position [g]: a
    move to an empty square (possibly a double pawn push), a capture, an
    en-passant capture, and the two castlings. *)
Inductive generated (g : Game) : InternalMove -> Prop :=
| gen_quiet from to piece base promo flags :
    _board g !! from = Some (mkPiece piece (_turn g)) ->
    _board g !! to = None ->
    0 <= to < 128 ->
    base = BITS.NORMAL \/ (base = BITS.BIG_PAWN /\ piece = PAWN) ->
    recorded piece base promo flags ->
    generated g (mkMove (_turn g) from to piece None promo flags)
| gen_capture from to piece captured promo flags :
    _board g !! from = Some (mkPiece piece (_turn g)) ->
    _board g !! to = Some (mkPiece captured (swapColor (_turn g))) ->
    recorded piece BITS.CAPTURE promo flags ->
    generated g (mkMove (_turn g) from to piece (Some captured) promo flags)
| gen_ep from to promo flags :
    _board g !! from = Some (mkPiece PAWN (_turn g)) ->
    _board g !! to = None ->
    0 <= to < 128 ->
    _board g !! ep_victim (_turn g) to = Some (mkPiece PAWN (swapColor (_turn g))) ->
    recorded PAWN BITS.EP_CAPTURE promo flags ->
    generated g (mkMove (_turn g) from to PAWN (Some PAWN) promo flags)
| gen_kside king :
    king = home_king (_turn g) ->
    _board g !! king = Some (mkPiece KING (_turn g)) ->
    _board g !! (king + 1) = None ->
    _board g !! (king + 2) = None ->
    generated g (mkMove (_turn g) king (king + 2) KING None None BITS.KSIDE_CASTLE)
| gen_qside king :
    king = home_king (_turn g) ->
    _board g !! king = Some (mkPiece KING (_turn g)) ->
    _board g !! (king - 1) = None ->
    _board g !! (king - 2) = None ->
    _board g !! (king - 3) = None ->
    generated g (mkMove (_turn g) king (king - 2) KING None None BITS.QSIDE_CASTLE).

(** ** Reasoning about runs *)

(** [runs m g a g']: started in [g], the computation returns [a] and
    leaves [g']. *)
Definition runs {A} (m : M A) (g : Game) (a : A) (g' : Game) : Prop := m g = Ok a g'.

(** What a computation leaves untouched: the occurrence counts. *)
Definition frame_pc {A} (m : M A) : Prop :=
  forall g, _positionCount (state_of (m g)) = _positionCount g.

(** The key of whatever stands on a square. *)
Definition key_at (K : Zobrist) (b : gmap Z Piece) (i : Z) : Z :=
  match b !! i with
  | Some p => PIECE_KEYS K (pcolor p) (ptype p) i
  | None => 0
  end.

(** Every occupied slot has a key. *)
Definition in_range (b : gmap Z Piece) : Prop :=
  forall i p, b !! i = Some p -> 0 <= i < 128.

Definition rights_ok (c : PerColor) : Prop :=
  is_rights (pc_w c) /\ is_rights (pc_b c).

(** A test for [WF] that can be run on a concrete position. *)
Definition wf_check (g : Game) : bool :=
  forallb (fun '(i, p) =>
             (0 <=? i) && (i <? 128) && negb (off_board i)
             && (negb (bool_decide (ptype p = PAWN)) || ((16 <=? i) && (i <? 112))))
          (map_to_list (_board g))
  && ((_epSquare g =? EMPTY)
      || (bool_decide (_board g !! _epSquare g = None)
          && bool_decide (_board g !! ep_victim (_turn g) (_epSquare g)
                          = Some (mkPiece PAWN (swapColor (_turn g))))))
  && forallb (fun c =>
                let r := pc_get (_castling g) c in
                ((r =? 0) || (r =? 32) || (r =? 64) || (r =? 96))
                && ((r =? 0)
                    || ((pc_get (_kings g) c =? home_king c)
                        && bool_decide (_board g !! home_king c = Some (mkPiece KING c)))))
             [WHITE; BLACK].

(** A run of [Game.move] calls on one game; a call that throws leaves
    the game in the state it had reached, and the run goes on. *)
Fixpoint play (K : Zobrist) (moves : list (MoveInput * bool)) (g : Game) : Game :=
  match moves with
  | [] => g
  | (move, strict) :: rest => play K rest (state_of (Game_move K move strict g))
  end.

(** ** Sample inputs *)

(** A state with a new board and hash, as [_set], [_clear] and
    [_movePiece] leave it. *)
Definition with_bh (b : gmap Z Piece) (h : Z) (g : Game) : Game :=
  set_hash h (set_board b g).

Definition quoted (s : string) : string := str1 dquote +:+ s +:+ str1 dquote.
Definition tag_line (name value : string) : string :=
  "[" +:+ name +:+ " " +:+ quoted value +:+ "]".

(** Two games; the second carries an Annotator tag whose value holds a
    backslash-escaped quote. *)
Definition two_game_pgn : string :=
  join (str1 newline)
    [tag_line "Event" "Game One"; tag_line "Site" "Somewhere";
     tag_line "White" "Alice"; tag_line "Black" "Bob";
     EmptyString;
     "1. e4 e5 2. Nf3 Nc6 *";
     EmptyString;
     tag_line "Event" "Game Two"; tag_line "Site" "Other";
     tag_line "White" "Carol"; tag_line "Black" "Dave";
     tag_line "Annotator" ("O" +:+ str1 backslash +:+ str1 dquote +:+ "Connor");
     EmptyString;
     "1. d4 d5 *";
     EmptyString].

(** The state of [new Game()]. *)
Definition start_game : Game := state_of (new_Game sample_keys).

Definition two_field_fen : string := "rnbqkbnr/pppppppp/8/8/8/8/PPPPPPPP/RNBQKBNR w".

(** A FEN that names an en-passant square behind which no pawn stands. *)
Definition ep_fen : string := "4k3/8/8/3P4/8/8/8/4K3 w - e6 0 1".
Definition ep_game : Game := state_of (new_ChessPGN sample_keys ep_fen).
Definition ep_move : InternalMove :=
  mkMove WHITE 51 36 PAWN (Some PAWN) None BITS.EP_CAPTURE.

(** 1. e4 from the initial position. *)
Definition e4_move : InternalMove :=
  mkMove WHITE 100 68 PAWN None None BITS.BIG_PAWN.

(** A six-field FEN with a white pawn on a8. *)
Definition edge_pawn_fen : string := "P3k3/8/8/8/8/8/8/4K3 w - - 0 1".

(** The null move, as [_moveFromSan] builds it. *)
Definition null_move (t : Color) : InternalMove :=
  mkMove t 0 0 KING None None BITS.NULL_MOVE.

(** [new ChessPGN()] *)
Definition start_pgn : Game := state_of (new_ChessPGN sample_keys DEFAULT_POSITION).

(** Stand-ins for the parsers, with the game text itself as the parsed
    game: a full parse that always fails with an error that mentions no
    bracket, a movetext parse that succeeds, and one that fails. *)
Definition move_error : JsError :=
  mkJsError "Expected move number but end of input found" None.
Definition failing_process (text : string) (strict : bool) : string + JsError :=
  inr move_error.
Definition ok_parse (text : string) : string + JsError := inl text.
Definition failing_parse (text : string) : string + JsError :=
  inr (mkJsError "Expected tag pair" None).
Definition text_game (hs : gmap string string) (root : string) : string + JsError :=
  inl root.

(** A cursor over [two_game_pgn] with the default options. *)
Definition two_game_cursor (strict : bool) : @CursorImpl string :=
  new_Cursor two_game_pgn (indexPgnGames two_game_pgn) None None None None (Some strict)
             None.

(** Three one-move games and a cursor over them with the default
    options. *)
Definition three_game_pgn : string :=
  join (str1 newline)
    [tag_line "Event" "A"; EmptyString; "1. e4 *"; EmptyString;
     tag_line "Event" "B"; EmptyString; "1. d4 *"; EmptyString;
     tag_line "Event" "C"; EmptyString; "1. c4 *"; EmptyString].
Definition three_game_cursor : @CursorImpl string :=
  new_Cursor three_game_pgn (indexPgnGames three_game_pgn) None None None None None None.


(** ** The placement field as data *)

(** The board that the placement loop of [load] builds, as a function of
    the text alone. *)
Fixpoint placement_board (position : string) (square : Z) (b : gmap Z Piece)
    : gmap Z Piece :=
  match position with
  | EmptyString => b
  | String piece rest =>
      if Ascii.eqb piece "/" then placement_board rest (square + 8) b
      else if is_digit piece then placement_board rest (square + digit_value piece) b
      else
        let color := if (N_of_ascii piece <? 97)%N then WHITE else BLACK in
        match piece_of_letter piece with
        | None => b
        | Some type => placement_board rest (square + 1) (<[square := mkPiece type color]> b)
        end
  end.

(** The slots that loop passes over, in order: one for a piece letter,
    [d] empty ones for the digit [d], and eight for a slash, the off-board
    half of a row. *)
Fixpoint linear_cells (position : string) : list (option Piece) :=
  match position with
  | EmptyString => []
  | String piece rest =>
      if Ascii.eqb piece "/" then replicate 8 None ++ linear_cells rest
      else if is_digit piece
           then replicate (Z.to_nat (digit_value piece)) None ++ linear_cells rest
           else
             let color := if (N_of_ascii piece <? 97)%N then WHITE else BLACK in
             match piece_of_letter piece with
             | None => []
             | Some type => Some (mkPiece type color) :: linear_cells rest
             end
  end.

(** One step of the placement loop of [fen()] on the content of a slot,
    and what it writes at the end of a row. *)
Definition emit_step (st : Z * string) (cell : option Piece) : Z * string :=
  match cell with
  | Some p =>
      (0, (if 0 <? fst st then snd st +:+ Z_to_string (fst st) else snd st)
          +:+ piece_letter p)
  | None => (fst st + 1, snd st)
  end.
Definition flush (st : Z * string) : string :=
  if 0 <? fst st then snd st +:+ Z_to_string (fst st) else snd st.

(** The characters the placement loop of [load] can handle. *)
Definition placement_char (c : ascii) : bool :=
  Ascii.eqb c "/" || is_digit c || contains_char c "prnbqkPRNBQK".

(** The state the placement loop leaves: a new board, kings and hash. *)
Definition placed (b : gmap Z Piece) (kings : PerColor) (h : Z) (g : Game) : Game :=
  mkGame b (_turn g) kings (_halfMoves g) h (_positionCount g) (_epSquare g)
         (_castling g) (_history g) (_fenEpSquare g) (_moveNumber g).

(** ** FEN strings that [fen()] writes back unchanged *)

(** The sixteen ways [fen()] writes the castling field. *)
Definition castling_fields : list string :=
  ["-"; "K"; "Q"; "KQ"; "k"; "Kk"; "Qk"; "KQk";
   "q"; "Kq"; "Qq"; "KQq"; "kq"; "Kkq"; "Qkq"; "KQkq"].

(** Every right named in [field] has its king and rook at home on [b]. *)
Definition castling_supported (field : string) (b : gmap Z Piece) : bool :=
  let at_home (sq : Z) (t : PieceSymbol) (c : Color) :=
    bool_decide (b !! sq = Some (mkPiece t c)) in
  (negb (contains_char "K" field)
   || (at_home Ox88.e1 KING WHITE && at_home Ox88.h1 ROOK WHITE))
  && (negb (contains_char "Q" field)
      || (at_home Ox88.e1 KING WHITE && at_home Ox88.a1 ROOK WHITE))
  && (negb (contains_char "k" field)
      || (at_home Ox88.e8 KING BLACK && at_home Ox88.h8 ROOK BLACK))
  && (negb (contains_char "q" field)
      || (at_home Ox88.e8 KING BLACK && at_home Ox88.a8 ROOK BLACK)).

(** A counter field written as [fen()] writes a number: plain decimal, no
    sign, no leading zero, nothing after the digits, and small enough to be
    held exactly. *)
Definition plain_counter (field : string) : Prop :=
  exists n, 0 <= n < 2 ^ 53 /\ field = Z_to_string n.

(** The form in which [fen()] writes a position: no digit 0 in the
    placement, a castling field that lists, in the order KQkq, only rights
    whose king and rook stand at home, and plain counters. *)
Record canonical_fen (fen : string) : Prop := mkCanonical {
  cf_no_zero : contains_char "0" (nth 0 (split_ws fen) EmptyString) = false;
  cf_castling_form : nth 2 (split_ws fen) EmptyString ∈ castling_fields;
  cf_castling_board :
    castling_supported (nth 2 (split_ws fen) EmptyString)
      (placement_board (nth 0 (split_ws fen) EmptyString) 0 ∅) = true;
  cf_halfMoves : plain_counter (nth 4 (split_ws fen) EmptyString);
  cf_moveNumber : plain_counter (nth 5 (split_ws fen) EmptyString)
}.

(** FEN strings that pass [validateFen] and that [fen()] writes back
    differently: castling rights without rooks, a digit 0 in the placement,
    a counter with leading zeros, castling letters in another order. *)
Definition rookless_fen : string := "4k3/8/8/8/8/8/8/4K3 w KQkq - 0 1".
Definition zero_digit_fen : string := "4k3/8/8/8/8/8/8/0K7 w - - 0 1".
Definition padded_counter_fen : string := "4k3/8/8/8/8/8/8/4K3 w - - 007 1".
Definition unordered_castling_fen : string := "4k2r/8/8/8/8/8/8/4K2R w kK - 0 1".

(** A test for [canonical_fen] that can be run on a concrete string. *)
Definition canonical_check (fen : string) : bool :=
  let tok (i : nat) := nth i (split_ws fen) EmptyString in
  negb (contains_char "0" (tok 0%nat))
  && bool_decide (tok 2%nat ∈ castling_fields)
  && castling_supported (tok 2%nat) (placement_board (tok 0%nat) 0 ∅)
  && match parseInt (tok 4%nat), parseInt (tok 5%nat) with
     | Some h, Some n =>
         (0 <=? h) && (h <? 2 ^ 53) && String.eqb (tok 4%nat) (Z_to_string h)
         && (0 <=? n) && (n <? 2 ^ 53) && String.eqb (tok 5%nat) (Z_to_string n)
     | _, _ => false
     end.

(** The position after 1. e4, with its en-passant square. *)
Definition after_e4_fen : string :=
  "rnbqkbnr/pppppppp/8/8/4P3/8/PPPP1PPP/RNBQKBNR b KQkq e3 0 1".

(** ** Further notions *)

(** No stored occurrence count is below one. *)
Definition counts_positive (pc : gmap Z Z) : Prop :=
  forall h n, pc !! h = Some n -> 1 <= n.

(** ** Navigating the cursor *)

Section CursorNavigation.

Context {G Root : Type}.
Context (processPgnToGame : string -> bool -> G + JsError).
Context (parse : string -> Root + JsError).
Context (Game_of : gmap string string -> Root -> G + JsError).

(** [hasBefore()] *)
Definition hasBefore (c : @CursorImpl G) : bool :=
  opt_start (options c) <? currentPosition c.

(** [before()] *)
Definition before (c : @CursorImpl G) : Outcome (option G) :=
  if negb (hasBefore c) then Returns None c
  else
    let c := set_currentPosition (currentPosition c - 1) c in
    parseGame processPgnToGame parse Game_of (currentPosition c) c.

(** [seek(index)]: the result and the cursor it leaves. *)
Definition seek (index : Z) (c : @CursorImpl G) : bool * @CursorImpl G :=
  if (index <? 0) || (index >=? Z.of_nat (length (gameIndices c)))
  then (false, c)
  else (true, set_currentPosition index c).

(** [reset()] *)
Definition reset (c : @CursorImpl G) : @CursorImpl G :=
  set_cache [] (set_currentPosition (opt_start (options c)) c).

(** The [while] loop of [findNext(predicate)], for a predicate that
    returns; [fuel] bounds the number of iterations.  Every index entry
    carries the headers the indexer found, so the test of their presence
    always passes.  A position below zero reads no index entry, and the
    read of its [headers] raises a TypeError. *)
Fixpoint findNext_loop (fuel : nat) (predicate : gmap string string -> bool)
    (c : @CursorImpl G) : Outcome (option G) :=
  match fuel with
  | O => Returns None c
  | S fuel' =>
      if hasNext c then
        match (if 0 <=? currentPosition c
               then gameIndices c !! Z.to_nat (currentPosition c) else None) with
        | None => Throws (mkJsError "TypeError" None) c
        | Some index =>
            if predicate (headers index)
            then next processPgnToGame parse Game_of c
            else findNext_loop fuel' predicate
                   (set_currentPosition (currentPosition c + 1) c)
        end
      else Returns None c
  end.

(** [findNext(predicate)]: every turn of the loop that does not return
    moves the position one entry on, so one turn per entry and a last test
    of [hasNext] are all the loop can take. *)
Definition findNext (predicate : gmap string string -> bool) (c : @CursorImpl G)
    : Outcome (option G) :=
  findNext_loop (S (length (gameIndices c))) predicate c.

(** The cache holds at most [cacheSize] games, one per index. *)
Definition cache_fits (c : @CursorImpl G) : Prop :=
  NoDup (fst <$> cache c) /\
  Z.of_nat (length (cache c)) <= opt_cacheSize (options c).

(** What cursor work never touches: the text, the index and the options;
    and the error log only grows. *)
Definition same_source (c c' : @CursorImpl G) : Prop :=
  pgn c' = pgn c /\ gameIndices c' = gameIndices c /\ options c' = options c /\
  (exists l, errors c' = errors c ++ l).

End CursorNavigation.

(** A full parse that fails on the games that open with 1. c4, a cursor
    in strict mode over the three sample games, and a test of the Event
    tag. *)
Definition picky_process (text : string) (strict : bool) : string + JsError :=
  if includes "1. c4" text then inr move_error else inl text.
Definition three_game_strict_cursor : @CursorImpl string :=
  new_Cursor three_game_pgn (indexPgnGames three_game_pgn) None None None None (Some true)
             None.
Definition event_is (name : string) (hs : gmap string string) : bool :=
  bool_decide (hs !! "Event" = Some name).

(** ** The hash of a position, as a value *)

(** The value that [_computeHash] builds when every key it reads exists:
    the keys of the occupied squares of the board, the en-passant key, the
    castling key and, with Black to move, the side key, XORed together. *)
Definition board_hash (K : Zobrist) (b : gmap Z Piece) (squares : list Z) (h : Z) : Z :=
  fold_left (fun h i => Z.lxor h (key_at K b i)) squares h.

Definition position_hash (K : Zobrist) (g : Game) : Z :=
  let h := board_hash K (_board g) board_squares 0 in
  let h := Z.lxor h (if _epSquare g =? EMPTY then 0
                     else EP_KEYS K (Z.land (_epSquare g) 7)) in
  let h := Z.lxor h (CASTLING_KEYS K (castling_index (_castling g))) in
  if bool_decide (_turn g = BLACK) then Z.lxor h (SIDE_KEY K) else h.

(** ** Editing the board *)

(** A board slot holds a piece or is [undefined]; it is never [null], so
    the comparison [slot !== null] holds for every slot. *)
Definition not_null (slot : option Piece) : bool := true.

(** [SIDES] of [chessPGN.ts], by the kind that names the side. *)
Definition SIDES (side : PieceSymbol) : Z :=
  match side with
  | QUEEN => BITS.QSIDE_CASTLE
  | _ => BITS.KSIDE_CASTLE
  end.

Section BoardEditing.

Context (K : Zobrist).

(** [get(square)]; a string that names no square reads no slot. *)
Definition get (square : string) : M (option Piece) :=
  gets (fun g => match Ox88_of square with
                 | Some sq => _board g !! sq
                 | None => None
                 end).

(** [Game._updateEnPassantSquare] *)
Definition _updateEnPassantSquare : M unit :=
  let* ep := gets _epSquare in
  if ep =? EMPTY then ret tt
  else
    let* t := gets _turn in
    let* b := gets _board in
    let startSquare := ep + (if bool_decide (t = WHITE) then -16 else 16) in
    let currentSquare := ep + (if bool_decide (t = WHITE) then 16 else -16) in
    let attackers := [currentSquare + 1; currentSquare - 1] in
    if not_null (b !! startSquare)
       || not_null (b !! ep)
       || negb (bool_decide (pcolor <$> b !! currentSquare = Some (swapColor t)))
       || negb (bool_decide (ptype <$> b !! currentSquare = Some PAWN))
    then
      (let* ek := _epKey K in xor_hash ek) ;;
      modify (set_epSquare EMPTY)
    else
      let canCapture (square : Z) :=
        negb (off_board square)
        && bool_decide (pcolor <$> b !! square = Some t)
        && bool_decide (ptype <$> b !! square = Some PAWN) in
      if negb (existsb canCapture attackers)
      then
        (let* ek := _epKey K in xor_hash ek) ;;
        modify (set_epSquare EMPTY)
      else ret tt.

(** [ChessPGN._put]; every [PieceSymbol] is a letter of [SYMBOLS], so the
    first test always passes. *)
Definition _put (piece : Piece) (square : string) : M bool :=
  match Ox88_of square with
  | None => ret false
  | Some sq =>
      let* kings := gets _kings in
      (* don't let the user place more than one king *)
      if bool_decide (ptype piece = KING)
         && negb ((pc_get kings (pcolor piece) =? EMPTY)
                  || (pc_get kings (pcolor piece) =? sq))
      then ret false
      else
        let* currentPieceOnSquare := gets (fun g => _board g !! sq) in
        match currentPieceOnSquare with
        | Some current =>
            when (bool_decide (ptype current = KING))
                 (modify (fun g => set_kings (pc_set (_kings g) (pcolor current) EMPTY) g))
        | None => ret tt
        end ;;
        _set K sq piece ;;
        when (bool_decide (ptype piece = KING))
             (modify (fun g => set_kings (pc_set (_kings g) (pcolor piece) sq) g)) ;;
        ret true
  end.

(** [ChessPGN.put]; [_updateSetup] writes headers only, its argument
    [this.fen()] is computed first. *)
Definition put (piece : Piece) (square : string) : M bool :=
  let* placed := _put piece square in
  if placed then
    _updateCastlingRights K ;;
    _updateEnPassantSquare ;;
    fen K false ;;
    ret true
  else ret false.

(** [ChessPGN.remove]; for a string that names no square [_clear] is
    called with [undefined], reads an empty slot and deletes nothing. *)
Definition remove (square : string) : M (option Piece) :=
  let* piece := get square in
  match Ox88_of square with
  | Some sq => _clear K sq
  | None => ret tt
  end ;;
  match piece with
  | Some p =>
      when (bool_decide (ptype p = KING))
           (modify (fun g => set_kings (pc_set (_kings g) (pcolor p) EMPTY) g))
  | None => ret tt
  end ;;
  _updateCastlingRights K ;;
  _updateEnPassantSquare ;;
  fen K false ;;
  ret piece.

(** [getCastlingRights(color)]: the king-side and the queen-side right. *)
Definition getCastlingRights (color : Color) : M (bool * bool) :=
  gets (fun g => (has (pc_get (_castling g) color) (SIDES KING),
                  has (pc_get (_castling g) color) (SIDES QUEEN))).

(** [setCastlingRights(color, rights)]; [king] and [queen] are the two
    optional fields of [rights]. *)
Definition setCastlingRights (color : Color) (king queen : option bool) : M bool :=
  let update (side : PieceSymbol) (right : option bool) : M unit :=
    match right with
    | Some true =>
        modify (fun g => set_castling
                  (pc_set (_castling g) color
                          (Z.lor (pc_get (_castling g) color) (SIDES side))) g)
    | Some false =>
        modify (fun g => set_castling
                  (pc_set (_castling g) color
                          (Z.land (pc_get (_castling g) color) (Z.lnot (SIDES side)))) g)
    | None => ret tt
    end in
  update KING king ;;
  update QUEEN queen ;;
  _updateCastlingRights K ;;
  let* result := getCastlingRights color in
  let agrees (right : option bool) (now : bool) :=
    match right with
    | None => true
    | Some r => Bool.eqb r now
    end in
  ret (agrees king (fst result) && agrees queen (snd result)).

End BoardEditing.

(** The kings on record stand where the record says. *)
Definition kings_tracked (g : Game) : Prop :=
  forall c, pc_get (_kings g) c <> EMPTY ->
            _board g !! pc_get (_kings g) c = Some (mkPiece KING c).

(** Every castling right in [r] has its king and its rook at home on
    [b]. *)
Definition rights_backed (b : gmap Z Piece) (r : PerColor) : Prop :=
  forall c,
    (has (pc_get r c) BITS.KSIDE_CASTLE = true ->
     b !! home_king c = Some (mkPiece KING c) /\
     b !! (home_king c + 3) = Some (mkPiece ROOK c)) /\
    (has (pc_get r c) BITS.QSIDE_CASTLE = true ->
     b !! home_king c = Some (mkPiece KING c) /\
     b !! (home_king c - 4) = Some (mkPiece ROOK c)).

(** ** The index as a partition of the text *)

(** Each entry ends where the next begins, and the last ends at [stop]. *)
Fixpoint contiguous (indices : list GameIndex) (stop : Z) : Prop :=
  match indices with
  | [] => True
  | a :: rest =>
      startOffset a < endOffset a /\
      match rest with
      | [] => endOffset a = stop
      | b :: _ => endOffset a = startOffset b
      end /\
      contiguous rest stop
  end.

(** A position after 1. e4 in which the black pawn on d4 may capture en
    passant on e3, as [new ChessPGN(fen)] sets it up. *)
Definition ep_capture_fen : string :=
  "rnbqkbnr/ppp1pppp/8/8/3pP3/8/PPPP1PPP/RNBQKBNR b KQkq e3 0 2".
Definition ep_capture_game : Game := state_of (new_ChessPGN sample_keys ep_capture_fen).

(** ** Escaped tag values and texts of two games *)






(** ** The cursor that classifies the error of the full parse *)

(** The sources hold [CursorImpl] in more than one copy.  Two of them,
    alike in every method modelled here, differ from the one above in
    the constructor (the defaults are merged with the options given, and
    [length] is [Infinity] by default), in [hasNext], in [next] (which
    always calls [prefetchGames]) and in [parseGame], which looks at the
    error of the full parse before it tries the fallback.  A callback
    that calls back into the cursor is not modelled. *)
Module Classified.

(** [length] is [None] when it is not finite. *)
Record CursorOptions := mkOptions {
  opt_start : Z;
  opt_length : option Z;
  opt_prefetch : Z;
  opt_cacheSize : Z;
  opt_strict : bool;
  opt_onError : JsError -> Z -> option JsError
}.

Section Cursor.

Context {G Root : Type}.
Context (processPgnToGame : string -> bool -> G + JsError).
Context (parse : string -> Root + JsError).
Context (Game_of : gmap string string -> Root -> G + JsError).

(** The fields that the methods read or write; [totalGames] is set once
    by the constructor and read by none of them. *)
Record CursorImpl := mkCursor {
  _pgnSource : string;
  gameIndices : list GameIndex;
  currentPosition : Z;
  cache : list (Z * G);
  options : CursorOptions;
  errors : list (Z * JsError);
  onError_calls : list (JsError * Z)
}.

Definition set_currentPosition (v : Z) (c : CursorImpl) : CursorImpl :=
  mkCursor (_pgnSource c) (gameIndices c) v (cache c) (options c) (errors c)
           (onError_calls c).
Definition set_cache (v : list (Z * G)) (c : CursorImpl) : CursorImpl :=
  mkCursor (_pgnSource c) (gameIndices c) (currentPosition c) v (options c) (errors c)
           (onError_calls c).
Definition push_error (index : Z) (e : JsError) (c : CursorImpl) : CursorImpl :=
  mkCursor (_pgnSource c) (gameIndices c) (currentPosition c) (cache c) (options c)
           (errors c ++ [(index, e)]) (onError_calls c).
Definition log_onError (e : JsError) (index : Z) (c : CursorImpl) : CursorImpl :=
  mkCursor (_pgnSource c) (gameIndices c) (currentPosition c) (cache c) (options c)
           (errors c) (onError_calls c ++ [(e, index)]).

Inductive Outcome (A : Type) :=
| Returns (a : A) (c : CursorImpl)
| Throws (e : JsError) (c : CursorImpl).
Arguments Returns {A} a c.
Arguments Throws {A} e c.

Definition cursor_of {A} (o : Outcome A) : CursorImpl :=
  match o with Returns _ c => c | Throws _ c => c end.

(** [this.options.onError(e, index)] *)
Definition call_onError (e : JsError) (index : Z) (c : CursorImpl) : Outcome unit :=
  match opt_onError (options c) e index with
  | None => Returns tt (log_onError e index c)
  | Some thrown => Throws thrown (log_onError e index c)
  end.

(** [new CursorImpl(pgn, indices, options)]: an option that is given
    replaces its default, whatever its value.  The [workers] option of
    the copy that has one is left off. *)
Definition new_Cursor (source : string) (indices : list GameIndex)
    (start len prefetch cacheSize : option Z) (strict : option bool)
    (onError : option (JsError -> Z -> option JsError)) : CursorImpl :=
  mkCursor source indices (default 0 start) []
           (mkOptions (default 0 start) len (default 1 prefetch)
                      (default 10 cacheSize) (default false strict)
                      (default no_onError onError))
           [] [].

Definition cache_get (index : Z) (c : CursorImpl) : option G :=
  snd <$> List.find (fun kv => fst kv =? index) (cache c).

Definition hasNext (c : CursorImpl) : bool :=
  let start := opt_start (options c) in
  let total := Z.of_nat (length (gameIndices c)) in
  let max := match opt_length (options c) with
             | Some len => start + len
             | None => total
             end in
  currentPosition c <? Z.min total max.

Definition evictOldest (c : CursorImpl) : CursorImpl :=
  set_cache (tail (cache c)) c.

Definition cache_store (index : Z) (game : G) (c : CursorImpl) : CursorImpl :=
  let c := if Z.of_nat (length (cache c)) >=? opt_cacheSize (options c)
           then evictOldest c else c in
  let replaced :=
    List.map (fun kv => if fst kv =? index then (index, game) else kv) (cache c) in
  if existsb (fun kv => fst kv =? index) (cache c)
  then set_cache replaced c
  else set_cache (cache c ++ [(index, game)]) c.

Definition game_text (gameIndex : GameIndex) (c : CursorImpl) : string :=
  substring (startOffset gameIndex) (endOffset gameIndex) (_pgnSource c).

(** [parseGame(index)] *)
Definition parseGame (index : Z) (c : CursorImpl) : Outcome (option G) :=
  match cache_get index c with
  | Some game => Returns (Some game) c
  | None =>
      match (if 0 <=? index then gameIndices c !! Z.to_nat index else None) with
      | None => Throws (mkJsError "TypeError" None) c
      | Some gameIndex =>
          let gamePgn := game_text gameIndex c in
          match processPgnToGame gamePgn (opt_strict (options c)) with
          | inl game => Returns (Some game) (cache_store index game c)
          | inr err =>
              (* Record the original error *)
              let c := push_error index err c in
              if negb (looksLikeHeaderIssue err) then
                if opt_strict (options c) then Throws err c
                else match call_onError err index c with
                     | Returns _ c' => Returns None c'
                     | Throws thrown c' => Throws thrown c'
                     end
              else
                match fallback_parse parse Game_of gameIndex gamePgn with
                | inl game => Returns (Some game) (cache_store index game c)
                | inr fErr =>
                    let c := push_error index fErr c in
                    if opt_strict (options c) then Throws fErr c
                    else match call_onError fErr index c with
                         | Returns _ c' => Returns None c'
                         | Throws thrown c' => Throws thrown c'
                         end
                end
          end
      end
  end.

Fixpoint prefetch_loop (fuel : nat) (i : Z) (c : CursorImpl) : Outcome unit :=
  match fuel with
  | O => Returns tt c
  | S fuel' =>
      if i <=? opt_prefetch (options c) then
        let prefetchIndex := currentPosition c + i in
        if (prefetchIndex <? Z.of_nat (length (gameIndices c)))
           && negb (bool_decide (is_Some (cache_get prefetchIndex c)))
        then match parseGame prefetchIndex c with
             | Returns _ c' => prefetch_loop fuel' (i + 1) c'
             | Throws e c' => Throws e c'
             end
        else prefetch_loop fuel' (i + 1) c
      else Returns tt c
  end.

Definition prefetchGames (c : CursorImpl) : Outcome unit :=
  prefetch_loop (Z.to_nat (opt_prefetch (options c))) 1 c.

(** [next()] *)
Definition next (c : CursorImpl) : Outcome (option G) :=
  if negb (hasNext c) then Returns None c
  else
    let idx := currentPosition c in
    match parseGame idx c with
    | Throws e c' => Throws e c'
    | Returns g c' =>
        let c' := set_currentPosition (currentPosition c' + 1) c' in
        match prefetchGames c' with
        | Returns _ c'' => Returns g c''
        | Throws e c'' => Throws e c''
        end
    end.

(** [c'] is [c] after some cursor work: same text, index, options and
    position, and the two logs only grew. *)
Definition extends (c c' : CursorImpl) : Prop :=
  _pgnSource c' = _pgnSource c /\ gameIndices c' = gameIndices c /\
  options c' = options c /\ currentPosition c' = currentPosition c /\
  (exists l, errors c' = errors c ++ l) /\
  (exists l, onError_calls c' = onError_calls c ++ l).

End Cursor.

Arguments Returns {G A} a c.
Arguments Throws {G A} e c.

End Classified.



(** ** Theorems *)

Lemma runs_ret {A} (a : A) g : runs (ret a) g a g.
Proof. reflexivity. Qed.
Lemma runs_gets {A} (f : Game -> A) g : runs (gets f) g (f g) g.
Proof. reflexivity. Qed.
Lemma runs_modify f g : runs (modify f) g tt (f g).
Proof. reflexivity. Qed.
Lemma runs_bind {A B} (m : M A) (f : A -> M B) g a g1 b g2 :
  runs m g a g1 -> runs (f a) g1 b g2 -> runs (bind m f) g b g2.
Proof. unfold runs, bind. intros -> ?. assumption. Qed.
Lemma runs_eq {A} (m : M A) g a g1 g2 : runs m g a g1 -> g1 = g2 -> runs m g a g2.
Proof. intros ? <-. assumption. Qed.

(** XOR equations over opaque keys, bit by bit. *)
Ltac xor_solve :=
  apply Z.bits_inj'; intros ?n _; repeat rewrite Z.lxor_spec; rewrite ?Z.bits_0;
  repeat match goal with
         | |- context [Z.testbit ?x ?n] =>
             let b := fresh "b" in
             generalize (Z.testbit x n); intros b; destruct b
         end; reflexivity.

Lemma lookup_move_slot (b : gmap Z Piece) from to k :
  move_slot from to b !! k =
    if decide (k = from) then None
    else if decide (k = to) then b !! from
    else b !! k.
Proof.
  unfold move_slot. destruct (b !! from) eqn:E.
  - rewrite lookup_delete. repeat case_decide; subst; try congruence.
    + rewrite lookup_insert. case_decide; congruence.
    + rewrite lookup_insert. case_decide; congruence.
  - rewrite lookup_delete. repeat case_decide; subst; try congruence.
    + rewrite lookup_delete. case_decide; congruence.
    + rewrite lookup_delete. case_decide; congruence.
Qed.

Lemma in_range_insert b i p : in_range b -> 0 <= i < 128 -> in_range (<[i := p]> b).
Proof.
  intros H Hi k q. rewrite lookup_insert. case_decide; subst; eauto.
Qed.
Lemma in_range_delete b i : in_range b -> in_range (delete i b).
Proof.
  intros H k q. rewrite lookup_delete. case_decide; [discriminate|eauto].
Qed.
Lemma in_range_move_slot b from to :
  in_range b -> (b !! from = None \/ 0 <= to < 128) -> in_range (move_slot from to b).
Proof.
  intros H Hto k q. rewrite lookup_move_slot.
  repeat case_decide; subst; try discriminate; eauto.
  intros E. destruct Hto; [congruence|assumption].
Qed.

Section Exec.
Context (K : Zobrist).

Lemma runs_pieceKey i g :
  in_range (_board g) -> runs (_pieceKey K i) g (key_at K (_board g) i) g.
Proof.
  intros H. unfold runs, _pieceKey, key_at.
  destruct (_board g !! i) eqn:E; [|reflexivity].
  rewrite bool_decide_eq_true_2; [reflexivity|eauto].
Qed.

Lemma runs_castlingKey g :
  rights_ok (_castling g) ->
  runs (_castlingKey K) g (CASTLING_KEYS K (castling_index (_castling g))) g.
Proof.
  intros [Hw Hb]. unfold runs, _castlingKey.
  rewrite bool_decide_eq_true_2; [reflexivity|].
  unfold castling_index.
  destruct Hw as [-> | [-> | [-> | ->]]], Hb as [-> | [-> | [-> | ->]]]; vm_compute; split; congruence.
Qed.

Lemma runs_set sq p g :
  in_range (_board g) -> 0 <= sq < 128 ->
  runs (_set K sq p) g tt
       (with_bh (<[sq := p]> (_board g))
                (Z.lxor (Z.lxor (_hash g) (key_at K (_board g) sq))
                        (PIECE_KEYS K (pcolor p) (ptype p) sq)) g).
Proof.
  intros H Hsq. unfold _set, xor_hash.
  eapply runs_bind; [apply runs_pieceKey; assumption|].
  eapply runs_bind; [apply runs_modify|].
  eapply runs_bind; [apply runs_modify|].
  eapply runs_bind; [apply runs_pieceKey; simpl; apply in_range_insert; assumption|].
  eapply runs_eq; [apply runs_modify|].
  destruct g; simpl. unfold with_bh, key_at; simpl.
  rewrite lookup_insert_eq. reflexivity.
Qed.

Lemma runs_clear sq g :
  in_range (_board g) ->
  runs (_clear K sq) g tt
       (with_bh (delete sq (_board g)) (Z.lxor (_hash g) (key_at K (_board g) sq)) g).
Proof.
  intros H. unfold _clear, xor_hash.
  eapply runs_bind; [apply runs_pieceKey; assumption|].
  eapply runs_bind; [apply runs_modify|].
  eapply runs_eq; [apply runs_modify|].
  destruct g; reflexivity.
Qed.

Lemma runs_movePiece from to g :
  in_range (_board g) -> (_board g !! from = None \/ 0 <= to < 128) ->
  runs (_movePiece K from to) g tt
       (with_bh (move_slot from to (_board g))
                (Z.lxor (Z.lxor (_hash g) (key_at K (_board g) from))
                        (key_at K (move_slot from to (_board g)) to)) g).
Proof.
  intros H Hto. unfold _movePiece, xor_hash.
  eapply runs_bind; [apply runs_pieceKey; assumption|].
  eapply runs_bind; [apply runs_modify|].
  eapply runs_bind; [apply runs_modify|].
  eapply runs_bind; [apply runs_pieceKey; simpl; apply in_range_move_slot; assumption|].
  eapply runs_eq; [apply runs_modify|].
  destruct g; reflexivity.
Qed.

End Exec.

Lemma runs_modify' f g g' : g' = f g -> runs (modify f) g tt g'.
Proof. intros ->. reflexivity. Qed.
Lemma runs_gets' {A} (f : Game -> A) g a : a = f g -> runs (gets f) g a g.
Proof. intros ->. reflexivity. Qed.

Ltac pconst p :=
  lazymatch p with xH => idtac | xI ?q => pconst q | xO ?q => pconst q end.
Ltac zconst z :=
  lazymatch z with Z0 => idtac | Zpos ?p => pconst p | Zneg ?p => pconst p end.

Ltac norm :=
  cbv beta delta [with_bh set_board set_hash set_turn set_kings set_halfMoves
                  set_positionCount set_epSquare set_castling set_history
                  set_fenEpSquare set_moveNumber snapshot];
  cbn [_board _turn _kings _halfMoves _hash _positionCount _epSquare _castling
       _history _fenEpSquare _moveNumber
       h_move positionSnapshot
       snap_kings snap_turn snap_castling snap_epSquare snap_fenEpSquare
       snap_halfMoves snap_moveNumber
       m_color m_from m_to m_piece m_captured m_promotion m_flags
       ptype pcolor swapColor];
  repeat match goal with
    | |- context [bool_decide (?a = ?b)] =>
        lazymatch a with WHITE => idtac | BLACK => idtac end;
        lazymatch b with WHITE => idtac | BLACK => idtac end;
        let v := eval vm_compute in (bool_decide (a = b)) in
        change (bool_decide (a = b)) with v; cbn iota
    | |- context [has ?a ?b] =>
        let v := eval vm_compute in (has a b) in
        lazymatch v with true => idtac | false => idtac end;
        change (has a b) with v; cbn iota
    | |- context [Z.add ?a ?b] =>
        zconst a; zconst b;
        let v := eval vm_compute in (Z.add a b) in change (Z.add a b) with v
    | |- context [Z.sub ?a ?b] =>
        zconst a; zconst b;
        let v := eval vm_compute in (Z.sub a b) in change (Z.sub a b) with v
    end.

Lemma rook_right_off_0 rooks sq : rook_right_off rooks sq 0 = 0.
Proof.
  induction rooks as [|[s f] r IH]; simpl; [reflexivity|].
  unfold has at 1. rewrite Z.land_0_l. simpl. rewrite andb_false_r. exact IH.
Qed.

Lemma runs_update_rook_rights col sq g :
  runs (update_rook_rights col sq) g tt
       (set_castling (pc_set (_castling g) col
                        (rook_right_off (ROOKS col) sq (pc_get (_castling g) col))) g).
Proof.
  unfold update_rook_rights. apply runs_modify'.
  destruct (pc_get (_castling g) col =? 0) eqn:E; [|reflexivity].
  apply Z.eqb_eq in E. rewrite E, rook_right_off_0.
  destruct g as [? ? ? ? ? ? ? [cw cb] ? ? ?], col; simpl in *; subst; reflexivity.
Qed.

Lemma rights_off_ok rooks sq x :
  (forall s f, In (s, f) rooks -> f = 32 \/ f = 64) ->
  is_rights x -> is_rights (rook_right_off rooks sq x).
Proof.
  intros Hf Hx. induction rooks as [|[s f] r IH]; simpl; [assumption|].
  destruct ((sq =? s) && has x f) eqn:E.
  - destruct (Hf s f (or_introl eq_refl)) as [-> | ->];
      destruct Hx as [-> | [-> | [-> | ->]]]; vm_compute; tauto.
  - apply IH. intros; eapply Hf; right; eassumption.
Qed.

Lemma ROOKS_flags col s f : In (s, f) (ROOKS col) -> f = 32 \/ f = 64.
Proof. destruct col; simpl; intros [E|[E|[]]]; inversion E; auto. Qed.

Lemma rights_ok_set c col x : rights_ok c -> is_rights x -> rights_ok (pc_set c col x).
Proof. intros [? ?] ?. destruct col; split; simpl; assumption. Qed.

Lemma rights_ok_get c col : rights_ok c -> is_rights (pc_get c col).
Proof. intros [? ?]. destruct col; assumption. Qed.

Lemma is_rights_0 : is_rights 0.
Proof. left; reflexivity. Qed.

Ltac rights_tac :=
  repeat first
    [ assumption
    | apply is_rights_0
    | apply rights_ok_set
    | apply rights_ok_get
    | apply rights_off_ok; [apply ROOKS_flags|] ].

Ltac kill := exfalso; first [lia | congruence].

Ltac simp_lookup :=
  repeat first
    [ rewrite lookup_move_slot
    | rewrite lookup_insert
    | rewrite lookup_delete
    | match goal with
      | |- context [decide (?a = ?b)] =>
          destruct (decide (a = b)); [try kill | try kill]
      | H : ?b !! ?k = _ |- context [?b !! ?k] => rewrite H
      end ].

Ltac range_tac :=
  first
    [ assumption
    | lia
    | match goal with
      | H : in_range ?b, H2 : ?b !! ?i = Some _ |- 0 <= ?i < 128 => exact (H _ _ H2)
      | |- _ \/ _ => right; range_tac
      | |- _ \/ _ => left; range_tac
      | |- in_range (<[_ := _]> _) => apply in_range_insert; range_tac
      | |- in_range (delete _ _) => apply in_range_delete; range_tac
      | |- in_range (move_slot _ _ _) => apply in_range_move_slot; range_tac
      | |- _ !! _ = None => progress simp_lookup; range_tac
      | |- _ = _ => reflexivity
      end ].

Ltac side :=
  norm;
  first [ solve [rights_tac]
        | solve [range_tac]
        | idtac ].

Ltac run1 K :=
  lazymatch goal with
  | |- runs (bind _ _) _ _ _ => eapply runs_bind; [run1 K | cbn beta; norm; run1 K]
  | |- runs (ret _) _ _ _ => apply runs_ret
  | |- runs (gets _) _ _ _ => apply runs_gets'; norm; reflexivity
  | |- runs (modify _) _ _ _ => apply runs_modify'; norm; reflexivity
  | |- runs (xor_hash _) _ _ _ => apply runs_modify'; norm; reflexivity
  | |- runs (_push _) _ _ _ => apply runs_modify'; norm; reflexivity
  | |- runs (update_rook_rights _ _) _ _ _ =>
      eapply runs_eq; [apply runs_update_rook_rights | norm; reflexivity]
  | |- runs (_epKey _) _ _ _ => apply runs_gets'; norm; reflexivity
  | |- runs (_pieceKey _ _) _ _ _ =>
      eapply runs_eq; [apply runs_pieceKey; side | norm; reflexivity]
  | |- runs (_castlingKey _) _ _ _ =>
      eapply runs_eq; [apply runs_castlingKey; side | norm; reflexivity]
  | |- runs (_set _ _ _) _ _ _ =>
      eapply runs_eq; [apply runs_set; side | norm; reflexivity]
  | |- runs (_clear _ _) _ _ _ =>
      eapply runs_eq; [apply runs_clear; side | norm; reflexivity]
  | |- runs (_movePiece _ _ _) _ _ _ =>
      eapply runs_eq; [apply runs_movePiece; side | norm; reflexivity]
  | |- runs (when ?c _) _ _ _ =>
      let c' := eval vm_compute in c in
      lazymatch c' with
      | true => change (when c) with (when true); unfold when at 1; run1 K
      | false => change (when c) with (when false); unfold when at 1; run1 K
      | _ => idtac "when stuck:" c'
      end
  | |- runs (if ?c then ?a else ?b) _ _ _ =>
      let c' := eval vm_compute in c in
      lazymatch c' with
      | true => change (if c then a else b) with a; run1 K
      | false => change (if c then a else b) with b; run1 K
      | _ => lazymatch goal with
             | H : c = _ |- _ => rewrite H; run1 K
             end
      end
  | |- runs (match ?x with [] => _ | _ :: _ => _ end) _ _ _ =>
      progress cbn iota beta; norm; run1 K
  | |- runs (match ?x with Some _ => _ | None => _ end) _ _ _ =>
      first [ progress simp_lookup; cbn iota beta; run1 K
            | idtac "match stuck:" x ]
  | |- runs (bump_moveNumber _) _ _ _ => unfold bump_moveNumber; run1 K
  | |- _ => idtac
  end.


Ltac close_state :=
  f_equal;
  [ try (apply map_eq; intros ?i; simp_lookup; subst; simp_lookup; congruence) ..
  ];
  try (unfold key_at; simp_lookup; norm;
       change (EMPTY =? EMPTY) with true; cbn iota; xor_solve).

Ltac round K :=
  eexists; split;
  [ unfold _makeMove; norm; run1 K
  | unfold _undoMove; norm; eapply runs_eq; [run1 K | close_state] ].

Section Roundtrip.
Context (K : Zobrist).

Lemma make_unmake g m :
  WF g -> generated g m ->
  exists g2, runs (_makeMove K m) g tt g2 /\ runs (_undoMove K) g2 (Some m) g.
Proof.
  intros Hwf Hgen.
  assert (Hr : in_range (_board g)).
  { intros i p Hi. apply (wf_board g Hwf) in Hi. apply Hi. }
  assert (Hc : rights_ok (_castling g)).
  { split; [apply (wf_rights g Hwf WHITE)|apply (wf_rights g Hwf BLACK)]. }
  clear Hwf.
  destruct g as [b t k hm h pc ep c hist fep mn]; simpl in *.
  destruct Hgen as [from to piece base promo flags Hfrom Hto Hrange Hbase Hrec
                   |from to piece captured promo flags Hfrom Hto Hrec
                   |from to promo flags Hfrom Hto Hrange Hvic Hrec
                   |king Hk Hking H1 H2
                   |king Hk Hking H1 H2 H3]; simpl in *.
  - assert (Hne : from <> to) by congruence.
    assert (Hf : 0 <= from < 128) by (exact (Hr _ _ Hfrom)).
    destruct Hrec as [[-> ->]|(-> & pr & Hpr & -> & ->)].
    + destruct Hbase as [->|[-> ->]].
      * destruct t, piece; round K.
      * destruct t;
          [ destruct (enemy_pawn_beside (move_slot from to b) BLACK to) eqn:Hadj
          | destruct (enemy_pawn_beside (move_slot from to b) WHITE to) eqn:Hadj ];
          round K.
    + apply list_elem_of_In in Hpr. simpl in Hpr.
      destruct Hbase as [->|[-> _]].
      * destruct Hpr as [<-|[<-|[<-|[<-|[]]]]]; destruct t; round K.
      * destruct Hpr as [<-|[<-|[<-|[<-|[]]]]]; destruct t;
          [ destruct (enemy_pawn_beside (<[to := mkPiece QUEEN WHITE]> (delete to (move_slot from to b))) BLACK to) eqn:Hadj
          | destruct (enemy_pawn_beside (<[to := mkPiece QUEEN BLACK]> (delete to (move_slot from to b))) WHITE to) eqn:Hadj
          | destruct (enemy_pawn_beside (<[to := mkPiece ROOK WHITE]> (delete to (move_slot from to b))) BLACK to) eqn:Hadj
          | destruct (enemy_pawn_beside (<[to := mkPiece ROOK BLACK]> (delete to (move_slot from to b))) WHITE to) eqn:Hadj
          | destruct (enemy_pawn_beside (<[to := mkPiece BISHOP WHITE]> (delete to (move_slot from to b))) BLACK to) eqn:Hadj
          | destruct (enemy_pawn_beside (<[to := mkPiece BISHOP BLACK]> (delete to (move_slot from to b))) WHITE to) eqn:Hadj
          | destruct (enemy_pawn_beside (<[to := mkPiece KNIGHT WHITE]> (delete to (move_slot from to b))) BLACK to) eqn:Hadj
          | destruct (enemy_pawn_beside (<[to := mkPiece KNIGHT BLACK]> (delete to (move_slot from to b))) WHITE to) eqn:Hadj ];
          round K.
  - assert (Hne : from <> to) by (destruct t; intros ->; rewrite Hfrom in Hto; discriminate).
    assert (Hf : 0 <= from < 128) by (exact (Hr _ _ Hfrom)).
    assert (Hrange : 0 <= to < 128) by (exact (Hr _ _ Hto)).
    destruct Hrec as [[-> ->]|(-> & pr & Hpr & -> & ->)].
    + destruct t, piece; simpl in Hto; round K.
    + apply list_elem_of_In in Hpr. simpl in Hpr.
      destruct Hpr as [<-|[<-|[<-|[<-|[]]]]]; destruct t; simpl in Hto; round K.
  - assert (Hne : from <> to) by congruence.
    assert (Hf : 0 <= from < 128) by (exact (Hr _ _ Hfrom)).
    assert (Hv : 0 <= ep_victim t to < 128) by (exact (Hr _ _ Hvic)).
    assert (Hnv : ep_victim t to <> from) by (destruct t; intros E; rewrite E in Hvic; rewrite Hfrom in Hvic; discriminate).
    assert (Hnv2 : ep_victim t to <> to) by (destruct t; simpl; lia).
    destruct Hrec as [[-> ->]|(_ & pr & Hpr & -> & ->)].
    + destruct t; simpl in *; round K.
    + apply list_elem_of_In in Hpr. simpl in Hpr.
      destruct Hpr as [<-|[<-|[<-|[<-|[]]]]]; destruct t; simpl in *; round K.
  - destruct t; simpl in Hk; subst king;
      change Ox88.e1 with 116 in *; change Ox88.e8 with 4 in *;
      change (116 + 1) with 117 in *; change (116 + 2) with 118 in *;
      change (4 + 1) with 5 in *; change (4 + 2) with 6 in *; round K.
  - destruct t; simpl in Hk; subst king;
      change Ox88.e1 with 116 in *; change Ox88.e8 with 4 in *;
      change (116 - 1) with 115 in *; change (116 - 2) with 114 in *;
      change (116 - 3) with 113 in *;
      change (4 - 1) with 3 in *; change (4 - 2) with 2 in *;
      change (4 - 3) with 1 in *; round K.
Qed.

End Roundtrip.

Lemma off_board_window :
  forallb (fun x => off_board x || ((0 <=? x) && (x <? 128))) (seqZ (-128) 384) = true.
Proof. vm_compute. reflexivity. Qed.

Lemma on_board_step x : -128 <= x < 256 -> off_board x = false -> 0 <= x < 128.
Proof.
  intros Hx Hoff.
  assert (Hin : In x (seqZ (-128) 384)).
  { apply list_elem_of_In, elem_of_seqZ. lia. }
  pose proof (proj1 (forallb_forall _ _) off_board_window x Hin) as H.
  cbv beta in H. rewrite Hoff in H. lia.
Qed.

Lemma addMove_recorded us from to piece cap base m :
  In m (addMove us from to piece cap base) ->
  exists promo flags,
    m = mkMove us from to piece cap promo flags /\ recorded piece base promo flags.
Proof.
  unfold addMove.
  destruct (bool_decide (piece = PAWN) && ((rank to =? 7) || (rank to =? 0))) eqn:E.
  - intros Hin. apply in_map_iff in Hin as (pr & <- & Hpr).
    apply andb_true_iff in E as [Ep _]. apply bool_decide_eq_true in Ep.
    exists (Some pr), (Z.lor base BITS.PROMOTION). split; [reflexivity|].
    right. split; [assumption|]. exists pr. split; [|split; reflexivity].
    apply list_elem_of_In. assumption.
  - intros [<-|[]]. exists None, base. split; [reflexivity|]. left. split; reflexivity.
Qed.

Lemma PIECE_OFFSETS_small t o : In o (PIECE_OFFSETS t) -> -40 <= o <= 40.
Proof. destruct t; simpl; intuition lia. Qed.

Section Generation.
Context (g : Game) (Hwf : WF g).

Lemma slide_generated fuel type from to offset m :
  _board g !! from = Some (mkPiece type (_turn g)) ->
  -40 <= offset <= 40 -> 0 <= to < 128 ->
  In m (slide fuel (_board g) (_turn g) type from to offset) -> generated g m.
Proof.
  intros Hfrom Hoff. revert to.
  induction fuel as [|fuel IH]; intros to Hto; simpl; [intros []|].
  destruct (off_board (to + offset)) eqn:Eoff; [intros []|].
  assert (Hto' : 0 <= to + offset < 128) by (apply on_board_step; [lia|assumption]).
  destruct (_board g !! (to + offset)) as [p|] eqn:Ep.
  - destruct (bool_decide (pcolor p = _turn g)) eqn:Ec; [intros []|].
    apply bool_decide_eq_false in Ec.
    intros Hin. apply addMove_recorded in Hin as (promo & flags & -> & Hrec).
    eapply gen_capture; [eassumption| |eassumption].
    rewrite Ep. destruct p as [ty co]. simpl in *.
    destruct co, (_turn g); simpl; congruence.
  - intros Hin. apply in_app_or in Hin as [Hin|Hin].
    + apply addMove_recorded in Hin as (promo & flags & -> & Hrec).
      eapply gen_quiet; [eassumption|eassumption|assumption|left; reflexivity|eassumption].
    + destruct (bool_decide (type = KNIGHT) || bool_decide (type = KING)); [destruct Hin|].
      eapply IH; eassumption.
Qed.

Lemma pawn_pushes_generated from m :
  _board g !! from = Some (mkPiece PAWN (_turn g)) ->
  In m (pawn_pushes g (_turn g) from) -> generated g m.
Proof.
  intros Hfrom. pose proof (wf_pawns g Hwf _ _ Hfrom) as Hr.
  unfold pawn_pushes.
  destruct (_board g !! (from + nth 0 (PAWN_OFFSETS (_turn g)) 0)) eqn:E1; [intros []|].
  intros Hin. apply in_app_or in Hin as [Hin|Hin].
  - apply addMove_recorded in Hin as (promo & flags & -> & Hrec).
    eapply gen_quiet; [eassumption|eassumption| |left; reflexivity|eassumption].
    destruct (_turn g); simpl; lia.
  - destruct (SECOND_RANK (_turn g) =? rank from) eqn:Er; [|destruct Hin].
    destruct (bool_decide (_board g !! (from + nth 1 (PAWN_OFFSETS (_turn g)) 0) = None)) eqn:E2;
      [|destruct Hin].
    apply bool_decide_eq_true in E2. simpl in Hin.
    apply addMove_recorded in Hin as (promo & flags & -> & Hrec).
    eapply gen_quiet; [eassumption|eassumption| |right; split; reflexivity|eassumption].
    apply Z.eqb_eq in Er. unfold rank in Er. rewrite Z.shiftr_div_pow2 in Er by lia.
    change (2 ^ 4) with 16 in Er.
    pose proof (Z.div_mod from 16 ltac:(lia)) as Hdm.
    pose proof (Z.mod_pos_bound from 16 ltac:(lia)) as Hmb.
    destruct (_turn g); simpl in *; lia.
Qed.

Lemma pawn_capture_generated from j m :
  _board g !! from = Some (mkPiece PAWN (_turn g)) ->
  (j = 2 \/ j = 3)%nat ->
  In m (pawn_capture g (_turn g) (swapColor (_turn g)) from j) -> generated g m.
Proof.
  intros Hfrom Hj. pose proof (wf_pawns g Hwf _ _ Hfrom) as Hr.
  unfold pawn_capture.
  set (to := from + nth j (PAWN_OFFSETS (_turn g)) 0).
  assert (Hwin : -128 <= to < 256).
  { subst to. destruct Hj as [-> | ->], (_turn g); simpl; lia. }
  destruct (off_board to) eqn:Eoff; [intros []|].
  pose proof (on_board_step _ Hwin Eoff) as Hto.
  assert (Hep : (to =? _epSquare g) = true ->
                forall m, In m (addMove (_turn g) from to PAWN (Some PAWN) BITS.EP_CAPTURE) ->
                generated g m).
  { intros E m' Hin. apply Z.eqb_eq in E.
    apply addMove_recorded in Hin as (promo & flags & -> & Hrec).
    destruct (wf_ep g Hwf) as [He|[He1 He2]].
    - unfold EMPTY in He. lia.
    - rewrite <- E in He1, He2.
      eapply gen_ep; eassumption. }
  destruct (_board g !! to) as [p|] eqn:Ep.
  - destruct (bool_decide (pcolor p = swapColor (_turn g))) eqn:Ec.
    + apply bool_decide_eq_true in Ec.
      intros Hin. apply addMove_recorded in Hin as (promo & flags & -> & Hrec).
      eapply gen_capture; [eassumption| |eassumption].
      rewrite Ep. destruct p as [ty co]. simpl in *. congruence.
    + destruct (to =? _epSquare g) eqn:E; [|intros []].
      intros Hin. apply Hep; [reflexivity|assumption].
  - destruct (to =? _epSquare g) eqn:E; [|intros []].
    intros Hin. apply Hep; [reflexivity|assumption].
Qed.

Lemma moves_from_generated forPiece from m :
  In m (moves_from g forPiece from) -> generated g m.
Proof.
  unfold moves_from.
  destruct (_board g !! from) as [[ty co]|] eqn:Efrom; [|intros []].
  simpl.
  destruct (bool_decide (co = swapColor (_turn g))) eqn:Ec; [intros []|].
  apply bool_decide_eq_false in Ec.
  assert (co = _turn g) as -> by (destruct co, (_turn g); simpl in *; congruence).
  destruct (skips_piece forPiece ty); [intros []|].
  pose proof (wf_board g Hwf _ _ Efrom) as [Hr _].
  assert (Hslide : ty <> PAWN ->
            In m (flat_map (fun offset => slide 8 (_board g) (_turn g) ty from from offset)
                           (PIECE_OFFSETS ty)) -> generated g m).
  { intros _ Hin. apply in_flat_map in Hin as (o & Ho & Hin).
    exact (slide_generated 8 ty from from o m Efrom (PIECE_OFFSETS_small ty o Ho) Hr Hin). }
  destruct ty; cbv iota;
    [|intros Hin; apply Hslide; [discriminate|exact Hin] ..].
  intros Hin. apply in_app_or in Hin as [Hin|Hin].
  - eapply pawn_pushes_generated; eassumption.
  - apply in_app_or in Hin as [Hin|Hin];
      (eapply pawn_capture_generated; [eassumption| |eassumption]); auto.
Qed.

Lemma has_nonzero x mask : has x mask = true -> x <> 0.
Proof.
  unfold has. intros H ->. rewrite Z.land_0_l in H. discriminate.
Qed.

Lemma castling_moves_generated m :
  In m (castling_moves g) -> generated g m.
Proof.
  unfold castling_moves. cbv zeta. intros Hin. apply in_app_or in Hin as [Hin|Hin].
  - destruct (has (pc_get (_castling g) (_turn g)) BITS.KSIDE_CASTLE) eqn:Eh; [|destruct Hin].
    apply has_nonzero in Eh. destruct (wf_castling g Hwf _ Eh) as [Hk Hb].
    rewrite Hk in Hin.
    match type of Hin with
    | In _ (if ?c then _ else _) => destruct c eqn:Ec; [|destruct Hin]
    end.
    repeat match goal with
    | H : _ && _ = true |- _ => apply andb_true_iff in H as [? ?]
    end.
    apply addMove_recorded in Hin as (promo & flags & -> & Hrec).
    destruct Hrec as [[-> ->]|[Hp _]]; [|discriminate].
    repeat match goal with
    | H : bool_decide _ = true |- _ => apply bool_decide_eq_true in H
    end.
    apply gen_kside; [reflexivity|assumption..].
  - destruct (has (pc_get (_castling g) (_turn g)) BITS.QSIDE_CASTLE) eqn:Eh; [|destruct Hin].
    apply has_nonzero in Eh. destruct (wf_castling g Hwf _ Eh) as [Hk Hb].
    rewrite Hk in Hin.
    match type of Hin with
    | In _ (if ?c then _ else _) => destruct c eqn:Ec; [|destruct Hin]
    end.
    repeat match goal with
    | H : _ && _ = true |- _ => apply andb_true_iff in H as [? ?]
    end.
    apply addMove_recorded in Hin as (promo & flags & -> & Hrec).
    destruct Hrec as [[-> ->]|[Hp _]]; [|discriminate].
    repeat match goal with
    | H : bool_decide _ = true |- _ => apply bool_decide_eq_true in H
    end.
    apply gen_qside; [reflexivity|assumption..].
Qed.

Lemma pseudo_moves_generated piece square m :
  In m (pseudo_moves g piece square) -> generated g m.
Proof.
  unfold pseudo_moves.
  set (forPiece := toLowerCase <$> piece).
  assert (Hscan : forall squares single last,
    In m (flat_map (moves_from g forPiece) squares
          ++ (if bool_decide (forPiece = None) || bool_decide (forPiece = Some (symbol KING))
              then if negb single || (last =? pc_get (_kings g) (_turn g))
                   then castling_moves g else []
              else [])) -> generated g m).
  { intros squares single last Hin. apply in_app_or in Hin as [Hin|Hin].
    - apply in_flat_map in Hin as (sq & _ & Hin). eapply moves_from_generated; eassumption.
    - destruct (bool_decide (forPiece = None) || bool_decide (forPiece = Some (symbol KING)));
        [|destruct Hin].
      destruct (negb single || (last =? pc_get (_kings g) (_turn g))); [|destruct Hin].
      apply castling_moves_generated; assumption. }
  destruct square as [sq|]; [|apply Hscan].
  destruct (String.eqb sq EmptyString); [apply Hscan|].
  destruct (Ox88_of (toLowerCase sq)); [apply Hscan|intros []].
Qed.

End Generation.

(** *** Frame: what a computation leaves untouched *)

Lemma frame_ret {A} (a : A) : frame_pc (ret a).
Proof. intros g; reflexivity. Qed.
Lemma frame_throw {A} (e : Err) : frame_pc (@throw A e).
Proof. intros g; reflexivity. Qed.
Lemma frame_gets {A} (f : Game -> A) : frame_pc (gets f).
Proof. intros g; reflexivity. Qed.
Lemma frame_modify (f : Game -> Game) :
  (forall g, _positionCount (f g) = _positionCount g) -> frame_pc (modify f).
Proof. intros H g; apply H. Qed.
Lemma frame_bind {A B} (m : M A) (f : A -> M B) :
  frame_pc m -> (forall a, frame_pc (f a)) -> frame_pc (bind m f).
Proof.
  intros Hm Hf g. unfold bind. specialize (Hm g).
  destruct (m g) as [a g'|e g']; simpl in *; [|exact Hm].
  rewrite (Hf a g'). exact Hm.
Qed.
Lemma frame_when (c : bool) (m : M unit) : frame_pc m -> frame_pc (when c m).
Proof. destruct c; [trivial|intros _; apply frame_ret]. Qed.

Create HintDb frame.
#[local] Hint Resolve frame_ret frame_throw frame_gets frame_when : frame.

Ltac frame_step :=
  lazymatch goal with
  | |- frame_pc (bind _ _) => apply frame_bind; [|intros ?]
  | |- frame_pc (ret _) => apply frame_ret
  | |- frame_pc (throw _) => apply frame_throw
  | |- frame_pc (gets _) => apply frame_gets
  | |- frame_pc (when _ _) => apply frame_when
  | |- frame_pc (modify _) =>
      apply frame_modify; intros ?; repeat case_match; reflexivity
  | |- frame_pc (if ?c then _ else _) => destruct c
  | |- frame_pc (match ?x with _ => _ end) => destruct x
  | |- frame_pc _ => solve [eauto with frame]
  end.
Ltac frame := repeat frame_step.

Section Frame.
Context (K : Zobrist).

Lemma frame_pieceKey i : frame_pc (_pieceKey K i).
Proof. intros g; unfold _pieceKey; repeat case_match; reflexivity. Qed.
Lemma frame_epKey : frame_pc (_epKey K).
Proof. unfold _epKey; frame. Qed.
Lemma frame_castlingKey : frame_pc (_castlingKey K).
Proof. intros g; unfold _castlingKey; repeat case_match; reflexivity. Qed.
Lemma frame_xor_hash k : frame_pc (xor_hash k).
Proof. unfold xor_hash; frame. Qed.
#[local] Hint Resolve frame_pieceKey frame_epKey frame_castlingKey frame_xor_hash : frame.

Lemma frame_hash_squares l h : frame_pc (hash_squares K l h).
Proof. revert h; induction l; intros h; simpl; frame. Qed.
#[local] Hint Resolve frame_hash_squares : frame.
Lemma frame_computeHash : frame_pc (_computeHash K).
Proof. unfold _computeHash; frame. Qed.
Lemma frame_set sq p : frame_pc (_set K sq p).
Proof. unfold _set; frame. Qed.
Lemma frame_clear sq : frame_pc (_clear K sq).
Proof. unfold _clear; frame. Qed.
Lemma frame_movePiece a b : frame_pc (_movePiece K a b).
Proof. unfold _movePiece; frame. Qed.
Lemma frame_push m : frame_pc (_push m).
Proof. unfold _push; frame. Qed.
Lemma frame_update_rook_rights c sq : frame_pc (update_rook_rights c sq).
Proof. unfold update_rook_rights; frame. Qed.
Lemma frame_bump us : frame_pc (bump_moveNumber us).
Proof. unfold bump_moveNumber; frame. Qed.
#[local] Hint Resolve frame_computeHash frame_set frame_clear frame_movePiece frame_push
  frame_update_rook_rights frame_bump : frame.

Lemma frame_makeMove m : frame_pc (_makeMove K m).
Proof. unfold _makeMove; frame. Qed.
Lemma frame_undoMove : frame_pc (_undoMove K).
Proof. unfold _undoMove; frame. Qed.
#[local] Hint Resolve frame_makeMove frame_undoMove : frame.

Lemma frame_filter_legal us l : frame_pc (filter_legal K us l).
Proof. induction l; simpl; frame. Qed.
#[local] Hint Resolve frame_filter_legal : frame.
Lemma frame_moves legal piece square : frame_pc (_moves K legal piece square).
Proof. unfold _moves; frame. Qed.
#[local] Hint Resolve frame_moves : frame.
Lemma frame_moveToSan m ms : frame_pc (_moveToSan K m ms).
Proof. unfold _moveToSan, isCheckmate; frame. Qed.
#[local] Hint Resolve frame_moveToSan : frame.
Lemma frame_find_by_san key s all l : frame_pc (find_by_san K key s all l).
Proof. induction l; simpl; frame. Qed.
Lemma frame_find_permissive s mt o all l : frame_pc (find_permissive K s mt o all l).
Proof. induction l; simpl; frame. Qed.
#[local] Hint Resolve frame_find_by_san frame_find_permissive : frame.
Lemma frame_moveFromSan s strict : frame_pc (_moveFromSan K s strict).
Proof. unfold _moveFromSan; frame. Qed.
Lemma frame_fen_ep_try l : frame_pc (fen_ep_try K l).
Proof. induction l; simpl; frame. Qed.
#[local] Hint Resolve frame_moveFromSan frame_fen_ep_try : frame.
Lemma frame_fen force : frame_pc (fen K force).
Proof. unfold fen; frame. Qed.
#[local] Hint Resolve frame_fen : frame.
Lemma frame_createPrettyMove m : frame_pc (createPrettyMove K m).
Proof. unfold createPrettyMove; frame. Qed.
#[local] Hint Resolve frame_createPrettyMove : frame.
Lemma frame_resolve_move lm mv strict : frame_pc lm -> frame_pc (resolve_move K lm mv strict).
Proof. intros H. unfold resolve_move; frame. Qed.
#[local] Hint Resolve frame_resolve_move : frame.
Lemma frame_Game_move mv strict : frame_pc (Game_move K mv strict).
Proof. unfold Game_move; frame. Qed.

End Frame.

Lemma new_Game_counts_nothing (K : Zobrist) :
  _positionCount (state_of (new_Game K)) = ∅.
Proof. vm_compute. reflexivity. Qed.

(** C8: [Game.move] leaves [_positionCount] as it was, whether it returns
    or throws; so after any run of [Game.move] calls on a new [Game] the
    map is still empty and [isThreefoldRepetition()] answers false. *)
Theorem Game_move_counts_nothing (K : Zobrist) :
  (forall move strict g,
     _positionCount (state_of (Game_move K move strict g)) = _positionCount g) /\
  (forall moves,
     let g := play K moves (state_of (new_Game K)) in
     _positionCount g = ∅ /\ isThreefoldRepetition g = Ok false g).
Proof.
  assert (Hmove : forall move strict g,
            _positionCount (state_of (Game_move K move strict g)) = _positionCount g).
  { intros move strict g. apply frame_Game_move. }
  split; [exact Hmove|].
  assert (Hplay : forall moves g, _positionCount (play K moves g) = _positionCount g).
  { induction moves as [|[move strict] rest IH]; intros g; simpl; [reflexivity|].
    rewrite IH. apply Hmove. }
  intros moves g.
  assert (Hempty : _positionCount g = ∅).
  { subst g. rewrite Hplay. apply new_Game_counts_nothing. }
  split; [exact Hempty|].
  unfold isThreefoldRepetition, _getPositionCount, bind, gets, ret.
  rewrite Hempty. rewrite lookup_empty. reflexivity.
Qed.

(** *** The legality filter leaves the position alone *)

Lemma wf_check_sound g : wf_check g = true -> WF g.
Proof.
  unfold wf_check. intros H.
  apply andb_true_iff in H as [H Hrights].
  apply andb_true_iff in H as [Hboard Hep].
  rewrite forallb_forall in Hboard.
  assert (Hsq : forall i p, _board g !! i = Some p ->
            on_board i /\ (ptype p = PAWN -> 16 <= i < 112)).
  { intros i p Hi. apply elem_of_map_to_list, list_elem_of_In in Hi.
    specialize (Hboard _ Hi). cbv beta iota in Hboard.
    apply andb_true_iff in Hboard as [Hb Hp].
    apply andb_true_iff in Hb as [Hb Hoff].
    apply andb_true_iff in Hb as [Hlo Hhi].
    apply negb_true_iff in Hoff.
    split; [split; [lia|assumption]|].
    intros Hpawn. apply orb_true_iff in Hp as [Hp|Hp].
    - apply negb_true_iff, bool_decide_eq_false in Hp. contradiction.
    - apply andb_true_iff in Hp. lia. }
  assert (Hr : forall c,
            is_rights (pc_get (_castling g) c) /\
            (pc_get (_castling g) c <> 0 ->
             pc_get (_kings g) c = home_king c /\
             _board g !! home_king c = Some (mkPiece KING c))).
  { rewrite forallb_forall in Hrights. intros c.
    assert (Hc : In c [WHITE; BLACK]) by (destruct c; simpl; auto).
    specialize (Hrights _ Hc). cbv beta zeta in Hrights.
    apply andb_true_iff in Hrights as [Hv Hk]. split.
    - unfold is_rights.
      repeat (apply orb_true_iff in Hv as [Hv|Hv]); apply Z.eqb_eq in Hv; auto.
    - intros Hne. apply orb_true_iff in Hk as [Hk|Hk].
      + apply Z.eqb_eq in Hk. contradiction.
      + apply andb_true_iff in Hk as [Hk1 Hk2].
        apply Z.eqb_eq in Hk1. apply bool_decide_eq_true in Hk2. auto. }
  split.
  - intros i p Hi. apply (Hsq i p Hi).
  - intros i c Hi. apply (Hsq i _ Hi). reflexivity.
  - apply orb_true_iff in Hep as [Hep|Hep]; [left; apply Z.eqb_eq; assumption|].
    right. apply andb_true_iff in Hep as [H1 H2].
    apply bool_decide_eq_true in H1, H2. auto.
  - intros c. apply Hr.
  - intros c. apply Hr.
Qed.

Section Moves.
Context (K : Zobrist).

Lemma filter_legal_runs g us ms :
  WF g -> (forall m, In m ms -> generated g m) ->
  exists legal, runs (filter_legal K us ms) g legal g /\
                (forall m, In m legal -> In m ms).
Proof.
  intros Hwf. induction ms as [|m rest IH]; intros Hgen.
  - exists []. split; [reflexivity|auto].
  - destruct (make_unmake K g m Hwf (Hgen m (or_introl eq_refl))) as (g2 & Hmake & Hundo).
    destruct IH as (legal & Hrun & Hsub); [intros; apply Hgen; right; assumption|].
    exists (if _isKingAttacked g2 us then legal else m :: legal). split.
    + cbn [filter_legal].
      eapply runs_bind; [exact Hmake|].
      eapply runs_bind; [apply runs_gets|].
      eapply runs_bind; [exact Hundo|].
      eapply runs_bind; [exact Hrun|].
      apply runs_ret.
    + intros m'. destruct (_isKingAttacked g2 us); simpl; intuition.
Qed.

Lemma moves_runs g legal piece square :
  WF g ->
  exists ms, runs (_moves K legal piece square) g ms g /\
             (forall m, In m ms -> In m (pseudo_moves g piece square)).
Proof.
  intros Hwf. unfold _moves.
  destruct (filter_legal_runs g (_turn g) (pseudo_moves g piece square) Hwf)
    as (legalMoves & Hrun & Hsub).
  { intros m. apply pseudo_moves_generated. assumption. }
  destruct (negb legal || (pc_get (_kings g) (_turn g) =? -1)) eqn:E.
  - exists (pseudo_moves g piece square). split; [|auto].
    eapply runs_bind; [apply runs_gets|].
    eapply runs_bind; [apply runs_gets|].
    eapply runs_bind; [apply runs_gets|].
    cbv beta. rewrite E. apply runs_ret.
  - exists legalMoves. split; [|assumption].
    eapply runs_bind; [apply runs_gets|].
    eapply runs_bind; [apply runs_gets|].
    eapply runs_bind; [apply runs_gets|].
    cbv beta. rewrite E. exact Hrun.
Qed.

Lemma moves_generated g legal piece square ms g' m :
  WF g -> _moves K legal piece square g = Ok ms g' -> m ∈ ms ->
  g' = g /\ generated g m.
Proof.
  intros Hwf Hrun Hin.
  destruct (moves_runs g legal piece square Hwf) as (ms' & Hrun' & Hsub).
  unfold runs in Hrun'. rewrite Hrun' in Hrun. inversion Hrun; subst.
  split; [reflexivity|].
  apply (pseudo_moves_generated g' Hwf piece square), Hsub, list_elem_of_In, Hin.
Qed.

End Moves.

(** C1 (amended): in a well-formed position, [_moves] with the legality
    filter returns its list and leaves the position as it was, and for
    every move [m] of that list [_makeMove m] followed by [_undoMove]
    succeeds, hands back [m] and leaves the very state it started from:
    board, turn, castling, epSquare, fenEpSquare, halfMoves, moveNumber and
    hash (and kings, history and occurrence counts as well). *)
Theorem make_then_undo_restores (K : Zobrist) g piece square ms g' m :
  WF g ->
  _moves K true piece square g = Ok ms g' ->
  m ∈ ms ->
  g' = g /\ (_makeMove K m ;; _undoMove K) g = Ok (Some m) g.
Proof.
  intros Hwf Hrun Hin.
  destruct (moves_generated K g true piece square ms g' m Hwf Hrun Hin) as [-> Hgen].
  split; [reflexivity|].
  destruct (make_unmake K g m Hwf Hgen) as (g2 & Hmake & Hundo).
  unfold bind. unfold runs in Hmake, Hundo. rewrite Hmake. exact Hundo.
Qed.

Lemma make_then_undo_restores_witness :
  (_makeMove sample_keys e4_move ;; _undoMove sample_keys) start_game
    = Ok (Some e4_move) start_game.
Proof.
  refine (proj2 (make_then_undo_restores sample_keys start_game None None _ _ e4_move _ _ _)).
  - apply wf_check_sound. vm_compute. reflexivity.
  - vm_compute. reflexivity.
  - apply list_elem_of_In. vm_compute. tauto.
Defined.

(** *** Evaluations on sample inputs *)

(** C5: [ChessPGN.load] of a two-field FEN raises Invalid FEN although
    [Game.load] alone completes the same string with the defaults. *)
Theorem load_two_fields_throws :
  (exists g, load sample_keys two_field_fen start_game = Ok tt g /\
             fen sample_keys true g
               = Ok "rnbqkbnr/pppppppp/8/8/8/8/PPPPPPPP/RNBQKBNR w - - 0 1" g) /\
  exists g, ChessPGN_load sample_keys two_field_fen false start_game
            = Throw (Error "Invalid FEN: must contain six space-delimited fields") g.
Proof.
  split; eexists; [split|]; vm_compute; reflexivity.
Qed.

(** C1 as stated fails: the position loaded from [ep_fen] passes
    [validateFen], the en-passant capture d5xe6 is among its legal moves,
    and making then unmaking it leaves a black pawn on e5 that was not
    there, under a different hash. *)
Lemma make_unmake_changes_board :
  validateFen ep_fen = None /\
  new_ChessPGN sample_keys ep_fen = Ok tt ep_game /\
  exists ms g' g2 g3,
    _moves sample_keys true None None ep_game = Ok ms g' /\
    ep_move ∈ ms /\
    _makeMove sample_keys ep_move ep_game = Ok tt g2 /\
    _undoMove sample_keys g2 = Ok (Some ep_move) g3 /\
    _board g3 !! 52 = Some (mkPiece PAWN BLACK) /\
    _board ep_game !! 52 = None /\
    _hash g3 <> _hash ep_game.
Proof.
  split; [vm_compute; reflexivity|].
  split; [vm_compute; reflexivity|].
  do 4 eexists.
  split; [vm_compute; reflexivity|].
  split; [apply list_elem_of_In; vm_compute; tauto|].
  split; [vm_compute; reflexivity|].
  split; [vm_compute; reflexivity|].
  split; [vm_compute; reflexivity|].
  split; [vm_compute; reflexivity|].
  vm_compute. discriminate.
Qed.

(** C2: after [move('--')] and [undo()] on a new [ChessPGN] the stored
    hash differs from the from-scratch value, and the two differ by
    exactly the side key. *)
Theorem null_move_undo_breaks_hash :
  exists mv g h,
    (ChessPGN_move sample_keys (MoveSan "--") false ;; ChessPGN_undo sample_keys) start_pgn
      = Ok mv g /\
    _computeHash sample_keys g = Ok h g /\
    h <> _hash g /\
    Z.lxor h (_hash g) = SIDE_KEY sample_keys.
Proof.
  do 3 eexists.
  split; [vm_compute; reflexivity|].
  split; [vm_compute; reflexivity|].
  split; [vm_compute; discriminate|vm_compute; reflexivity].
Qed.

(** The defect behind it, for any key table: the null-move branch of
    [_makeMove] flips the turn and leaves the hash as it was, while
    [_undoMove] XORs the side key in. *)
Lemma null_move_keeps_hash (K : Zobrist) g :
  exists g', _makeMove K (null_move (_turn g)) g = Ok tt g' /\
             _hash g' = _hash g /\ _turn g' = swapColor (_turn g).
Proof.
  unfold _makeMove, null_move, bind, gets, _push, modify, bump_moveNumber, when.
  cbn. destruct (bool_decide (_turn g = BLACK));
    (eexists; split; [reflexivity|split; reflexivity]).
Qed.

(** C9: when [Game.load] builds a position from [fen] and [validateFen]
    rejects [fen], [ChessPGN.load] throws the validator's message and the
    state left behind is the one [Game.load] built, not the state before
    the call. *)
Theorem load_mutates_before_validation (K : Zobrist) fen g g1 e :
  load K fen g = Ok tt g1 ->
  validateFen fen = Some e ->
  ChessPGN_load K fen false g = Throw (Error e) g1.
Proof.
  intros Hload Hval. unfold ChessPGN_load, bind. rewrite Hload. cbn.
  rewrite Hval. reflexivity.
Qed.

Lemma load_mutates_before_validation_witness :
  exists g1,
    ChessPGN_load sample_keys edge_pawn_fen false start_pgn
      = Throw (Error "Invalid FEN: some pawns are on the edge rows") g1 /\
    _board g1 !! 0 = Some (mkPiece PAWN WHITE) /\
    _board start_pgn !! 0 = Some (mkPiece ROOK BLACK) /\
    fen sample_keys true g1 = Ok edge_pawn_fen g1.
Proof.
  eexists. split; [|split; [|split]].
  - apply (load_mutates_before_validation sample_keys edge_pawn_fen start_pgn);
      vm_compute; reflexivity.
  - vm_compute. reflexivity.
  - vm_compute. reflexivity.
  - vm_compute. reflexivity.
Defined.

(** *** The cursor *)

Section CursorFacts.
Context {G Root : Type}.
Context (processPgnToGame : string -> bool -> G + JsError).
Context (parse : string -> Root + JsError).
Context (Game_of : gmap string string -> Root -> G + JsError).

Local Abbreviation parseGame := (parseGame processPgnToGame parse Game_of).
Local Abbreviation fails := (fails processPgnToGame parse Game_of).
Local Abbreviation access := (access processPgnToGame parse Game_of).
Local Abbreviation prefetch_loop := (prefetch_loop processPgnToGame parse Game_of).
Local Abbreviation prefetchGames := (prefetchGames processPgnToGame parse Game_of).
Local Abbreviation next := (next processPgnToGame parse Game_of).
Local Abbreviation fallback_parse := (fallback_parse parse Game_of).

Lemma extends_refl (c : @CursorImpl G) : extends c c.
Proof.
  repeat split; try reflexivity; exists []; rewrite app_nil_r; reflexivity.
Qed.

Lemma extends_trans (c1 c2 c3 : @CursorImpl G) : extends c1 c2 -> extends c2 c3 -> extends c1 c3.
Proof.
  intros (A1 & A2 & A3 & A4 & [l1 A5] & [k1 A6]) (B1 & B2 & B3 & B4 & [l2 B5] & [k2 B6]).
  repeat split; try congruence.
  - exists (l1 ++ l2). rewrite B5, A5, app_assoc. reflexivity.
  - exists (k1 ++ k2). rewrite B6, A6, app_assoc. reflexivity.
Qed.

Lemma extends_push_error index e (c : @CursorImpl G) : extends c (push_error index e c).
Proof.
  repeat split; try reflexivity.
  - eexists. reflexivity.
  - exists []. simpl. rewrite app_nil_r. reflexivity.
Qed.

Lemma extends_log_onError index e (c : @CursorImpl G) : extends c (log_onError e index c).
Proof.
  repeat split; try reflexivity.
  - exists []. simpl. rewrite app_nil_r. reflexivity.
  - eexists. reflexivity.
Qed.

Lemma extends_cache_store index game (c : @CursorImpl G) :
  extends c (cache_store index game c).
Proof.
  unfold cache_store, evictOldest.
  repeat case_match; apply extends_refl || (repeat split; try reflexivity;
    exists []; simpl; rewrite app_nil_r; reflexivity).
Qed.

Lemma parseGame_extends index c : extends c (cursor_of (parseGame index c)).
Proof.
  unfold parseGame, call_onError. repeat case_match; simplify_eq; simpl;
    repeat first
      [ apply extends_refl
      | eapply extends_trans; [|apply extends_cache_store]
      | eapply extends_trans; [|apply extends_log_onError]
      | eapply extends_trans; [|apply extends_push_error] ].
Qed.

Lemma fails_extends index c c' e1 e2 :
  extends c c' -> fails index c e1 e2 -> fails index c' e1 e2.
Proof.
  intros (A1 & A2 & A3 & _) (Hi & gi & Hl & Hp & Hf).
  split; [assumption|]. exists gi. unfold game_text in *.
  rewrite A1, A2, A3. auto.
Qed.

(** What [parseGame] does at an index that parses neither way. *)
Lemma parseGame_fails index c e1 e2 :
  fails index c e1 e2 -> cache_get index c = None ->
  parseGame index c =
    (let c2 := log_onError e2 index (push_error index e2 (push_error index e1 c)) in
     if opt_strict (options c)
     then Throws e2 (push_error index e2 (push_error index e1 c))
     else match opt_onError (options c) e2 index with
          | None => Returns None c2
          | Some thrown => Throws thrown c2
          end).
Proof.
  intros (Hi & gi & Hl & Hp & Hf) Hc. unfold parseGame, call_onError.
  rewrite Hc. apply Z.leb_le in Hi. rewrite Hi, Hl. cbv zeta.
  rewrite Hp, Hf. simpl.
  destruct (opt_strict (options c)); [reflexivity|].
  destruct (opt_onError (options c) e2 index); reflexivity.
Qed.

Lemma access_fails n : forall index c e1 e2,
  fails index c e1 e2 -> cache_get index c = None ->
  cache (access n index c) = cache c /\
  errors (access n index c)
    = errors c ++ concat (replicate n [(index, e1); (index, e2)]).
Proof.
  induction n as [|n IH]; intros index c e1 e2 Hf Hc; simpl.
  - rewrite app_nil_r. auto.
  - pose proof (parseGame_fails index c e1 e2 Hf Hc) as Hp.
    pose proof (parseGame_extends index c) as He.
    set (c1 := cursor_of (parseGame index c)) in *.
    assert (Hcache : cache c1 = cache c).
    { subst c1. rewrite Hp. cbv zeta. repeat case_match; reflexivity. }
    assert (Herr : errors c1 = errors c ++ [(index, e1); (index, e2)]).
    { subst c1. rewrite Hp. cbv zeta. repeat case_match; simpl;
        rewrite <- app_assoc; reflexivity. }
    destruct (IH index c1 e1 e2) as [IH1 IH2].
    + eapply fails_extends; eassumption.
    + unfold cache_get. rewrite Hcache. exact Hc.
    + split; [congruence|].
      rewrite IH2, Herr, <- app_assoc. reflexivity.
Qed.

Lemma prefetch_one index c e1 e2 :
  fails index c e1 e2 -> cache_get index c = None ->
  currentPosition c + 1 = index -> opt_prefetch (options c) = 1 ->
  cursor_of (prefetchGames c) = access 1 index c.
Proof.
  intros Hf Hc Hpos Hpre.
  pose proof (parseGame_fails index c e1 e2 Hf Hc) as Hp.
  destruct Hf as (Hi & gi & Hl & _).
  unfold prefetchGames. rewrite Hpre. simpl. rewrite Hpre, Hpos. simpl.
  assert (Hlt : (index <? Z.of_nat (length (gameIndices c))) = true).
  { apply Z.ltb_lt. apply lookup_lt_Some in Hl. lia. }
  rewrite Hlt, Hc. simpl.
  rewrite Hp. cbv zeta. repeat case_match; reflexivity.
Qed.

Lemma find_none_intro {A} (f : A -> bool) l :
  (forall x, In x l -> f x = false) -> List.find f l = None.
Proof.
  induction l as [|a l IH]; intros H; simpl; [reflexivity|].
  rewrite (H a (or_introl eq_refl)). apply IH. intros x Hx. apply H. right. exact Hx.
Qed.

Lemma cache_get_None (i : Z) (c : @CursorImpl G) :
  cache_get i c = None <-> (forall kv, In kv (cache c) -> (fst kv =? i) = false).
Proof.
  unfold cache_get. split.
  - intros H kv Hin. destruct (List.find _ _) eqn:E; [discriminate|].
    exact (find_none _ _ E kv Hin).
  - intros H. rewrite (find_none_intro _ _ H). reflexivity.
Qed.

Lemma cache_get_store_other i j g (c : @CursorImpl G) :
  cache_get i c = None -> i <> j -> cache_get i (cache_store j g c) = None.
Proof.
  rewrite !cache_get_None. intros H Hne kv.
  assert (Ht : forall kv, In kv (List.tail (cache c)) -> (fst kv =? i) = false).
  { intros kv' Hin. apply H. destruct (cache c); [destruct Hin|right; exact Hin]. }
  assert (Hnew : (fst (j, g) =? i) = false) by (apply Z.eqb_neq; simpl; congruence).
  unfold cache_store, evictOldest.
  repeat case_match; simpl; intros Hin;
    repeat match goal with
    | H : In _ (List.map _ _) |- _ => apply in_map_iff in H as (kv0 & <- & H)
    | H : In _ (_ ++ _) |- _ => apply in_app_or in H as [H|[<-|[]]]
    end;
    repeat case_match; auto.
Qed.

Lemma parseGame_keeps_miss i j c game c1 :
  parseGame j c = Returns game c1 -> cache_get i c = None -> i <> j ->
  cache_get i c1 = None.
Proof.
  intros Hp Hc Hne. unfold parseGame, call_onError in Hp.
  repeat case_match; simplify_eq;
    first [ assumption
          | apply cache_get_store_other; assumption ].
Qed.

Lemma fails_static index (c c' : @CursorImpl G) e1 e2 :
  pgn c' = pgn c -> gameIndices c' = gameIndices c -> options c' = options c ->
  fails index c e1 e2 -> fails index c' e1 e2.
Proof.
  intros A1 A2 A3 (Hi & gi & Hl & Hp & Hf).
  split; [assumption|]. exists gi. unfold game_text in *.
  rewrite A1, A2, A3. auto.
Qed.

(** In non-strict mode, with a callback that returns, [parseGame] returns
    at every index of the list. *)
Lemma parseGame_nonstrict_returns index c :
  opt_strict (options c) = false ->
  (forall e i, opt_onError (options c) e i = None) ->
  0 <= index < Z.of_nat (length (gameIndices c)) ->
  exists r c', parseGame index c = Returns r c'.
Proof.
  intros Hs Hcb Hi. unfold parseGame, call_onError.
  assert (Hl : is_Some (gameIndices c !! Z.to_nat index)).
  { apply lookup_lt_is_Some. lia. }
  destruct Hl as [gi Hl]. rewrite Hl.
  assert (Hle : (0 <=? index) = true) by (apply Z.leb_le; lia). rewrite Hle.
  cbv zeta. simpl. rewrite Hs.
  repeat case_match; eauto; simplify_eq; rewrite Hcb in *; discriminate.
Qed.

Lemma prefetch_loop_returns fuel : forall i c,
  opt_strict (options c) = false ->
  (forall e i, opt_onError (options c) e i = None) ->
  0 <= currentPosition c -> 0 <= i ->
  exists c', prefetch_loop fuel i c = Returns tt c'.
Proof.
  induction fuel as [|fuel IH]; intros i c Hs Hcb Hpos Hi; simpl; [eauto|].
  destruct (i <=? opt_prefetch (options c)); [|eauto].
  destruct ((currentPosition c + i <? Z.of_nat (length (gameIndices c)))
            && negb (bool_decide (is_Some (cache_get (currentPosition c + i) c)))) eqn:E.
  - apply andb_true_iff in E as [E _]. apply Z.ltb_lt in E.
    destruct (parseGame_nonstrict_returns (currentPosition c + i) c Hs Hcb)
      as (r & c' & Hp); [lia|].
    pose proof (parseGame_extends (currentPosition c + i) c) as He.
    rewrite Hp in *. simpl in He. destruct He as (_ & _ & Ho & Hcp & _).
    apply IH; [rewrite Ho; assumption|rewrite Ho; assumption
              |rewrite Hcp; assumption|lia].
  - apply IH; [assumption|assumption|assumption|lia].
Qed.

End CursorFacts.

(** C10: a game whose full parse and fallback parse both fail is never
    put in the cache.  Every access to its index, [n] times in a row,
    leaves the cache as it was and appends the two errors once more, so
    [errors] holds [n] copies of them; the prefetch that [next()] runs is
    such an access, so that after [next()] has handed out the game at the
    current position, [errors] holds entries for an index further on that
    [next()] has not returned. *)
Theorem failed_game_is_parsed_again {G Root : Type}
    (processPgnToGame : string -> bool -> G + JsError)
    (parse : string -> Root + JsError)
    (Game_of : gmap string string -> Root -> G + JsError)
    index c e1 e2 :
  fails processPgnToGame parse Game_of index c e1 e2 ->
  cache_get index c = None ->
  (forall n,
     let c' := access processPgnToGame parse Game_of n index c in
     cache c' = cache c /\
     cache_get index c' = None /\
     errors c' = errors c ++ concat (replicate n [(index, e1); (index, e2)])) /\
  (currentPosition c + 1 = index -> opt_prefetch (options c) = 1 ->
   cursor_of (prefetchGames processPgnToGame parse Game_of c)
     = access processPgnToGame parse Game_of 1 index c) /\
  (currentPosition c + 2 = index -> opt_prefetch (options c) = 1 ->
   hasNext c = true ->
   forall game c1,
     parseGame processPgnToGame parse Game_of (currentPosition c) c = Returns game c1 ->
     let c2 := cursor_of (next processPgnToGame parse Game_of c) in
     cache c2 = cache c1 /\
     errors c2 = errors c1 ++ [(index, e1); (index, e2)]).
Proof.
  intros Hf Hc. split; [|split].
  - intros n c'.
    destruct (access_fails processPgnToGame parse Game_of n index c e1 e2 Hf Hc) as [H1 H2].
    split; [exact H1|]. split; [|exact H2].
    unfold cache_get. subst c'. rewrite H1. exact Hc.
  - intros Hpos Hpre. eapply prefetch_one; eassumption.
  - intros Hpos Hpre Hn game c1 Hp c2.
    pose proof (parseGame_extends processPgnToGame parse Game_of (currentPosition c) c) as He.
    rewrite Hp in He. simpl in He. destruct He as (A1 & A2 & A3 & A4 & _).
    set (c1' := set_currentPosition (currentPosition c1 + 1) c1).
    assert (Hf' : fails processPgnToGame parse Game_of index c1' e1 e2).
    { eapply fails_static; [| | |exact Hf]; assumption. }
    assert (Hc' : cache_get index c1' = None).
    { change (cache_get index c1 = None).
      eapply parseGame_keeps_miss; [exact Hp|exact Hc|lia]. }
    assert (Hpre' : opt_prefetch (options c1') = 1) by (simpl; rewrite A3; exact Hpre).
    assert (Hcur : cursor_of (next processPgnToGame parse Game_of c)
                   = cursor_of (prefetchGames processPgnToGame parse Game_of c1')).
    { unfold next. rewrite Hn, Hp. simpl negb. cbv iota zeta. fold c1'.
      rewrite Hpre'. simpl.
      destruct (prefetchGames processPgnToGame parse Game_of c1'); reflexivity. }
    subst c2. rewrite Hcur.
    rewrite (prefetch_one processPgnToGame parse Game_of index c1' e1 e2 Hf' Hc');
      [|simpl; lia|exact Hpre'].
    destruct (access_fails processPgnToGame parse Game_of 1 index c1' e1 e2 Hf' Hc')
      as [H1 H2].
    split; [exact H1|]. rewrite H2. simpl. reflexivity.
Qed.

Lemma failed_game_is_parsed_again_witness :
  let e1 := move_error in
  let e2 := mkJsError "Expected tag pair" None in
  errors (access failing_process failing_parse text_game 2 2 three_game_cursor)
    = [(2, e1); (2, e2); (2, e1); (2, e2)] /\
  cache (access failing_process failing_parse text_game 2 2 three_game_cursor) = [] /\
  next failing_process failing_parse text_game three_game_cursor
    = Returns None
        (mkCursor three_game_pgn (indexPgnGames three_game_pgn) 1 []
                  (mkOptions 0 3 1 10 false no_onError)
                  [(0, e1); (0, e2); (2, e1); (2, e2)]
                  [(e2, 0); (e2, 2)]).
Proof.
  intros e1 e2.
  assert (Hf : fails failing_process failing_parse text_game 2 three_game_cursor e1 e2).
  { split; [lia|]. eexists. split; [vm_compute; reflexivity|]. split; reflexivity. }
  destruct (failed_game_is_parsed_again failing_process failing_parse text_game
              2 three_game_cursor e1 e2 Hf eq_refl) as (Ha & _ & _).
  destruct (Ha 2%nat) as (H1 & _ & H2).
  split; [exact H2|]. split; [exact H1|].
  vm_compute. reflexivity.
Defined.

(** *** FEN round trip *)

(** C3 as stated fails: each of these strings passes [validateFen], and
    [fen()] after [load] writes something else. *)
Lemma fen_roundtrip_fails :
  (validateFen rookless_fen = None /\
   exists g, (load sample_keys rookless_fen ;; fen sample_keys true) start_game
             = Ok "4k3/8/8/8/8/8/8/4K3 w - - 0 1" g) /\
  (validateFen zero_digit_fen = None /\
   exists g, (load sample_keys zero_digit_fen ;; fen sample_keys true) start_game
             = Ok "4k3/8/8/8/8/8/8/K7 w - - 0 1" g) /\
  (validateFen padded_counter_fen = None /\
   exists g, (load sample_keys padded_counter_fen ;; fen sample_keys true) start_game
             = Ok "4k3/8/8/8/8/8/8/4K3 w - - 7 1" g) /\
  (validateFen unordered_castling_fen = None /\
   exists g, (load sample_keys unordered_castling_fen ;; fen sample_keys true) start_game
             = Ok "4k2r/8/8/8/8/8/8/4K2R w Kk - 0 1" g).
Proof.
  repeat split; try (vm_compute; reflexivity); eexists; vm_compute; reflexivity.
Qed.

(** **** Counters *)

Lemma take_digits_uint u :
  take_digits (NilEmpty.string_of_uint u) = NilEmpty.string_of_uint u.
Proof. induction u; simpl; congruence. Qed.

Lemma parseInt_uint u :
  u <> Decimal.Nil ->
  parseInt (NilEmpty.string_of_uint u) = Some (Z.of_uint u).
Proof.
  intros Hu. unfold parseInt.
  assert (H : forall s, s = NilEmpty.string_of_uint u ->
            (let d := take_digits s in
             if String.eqb d EmptyString then None
             else Z.of_uint <$> NilEmpty.uint_of_string d) = Some (Z.of_uint u)).
  { intros s ->. cbv zeta. rewrite take_digits_uint, NilEmpty.usu.
    destruct u; simpl; congruence. }
  destruct u; try congruence; simpl NilEmpty.string_of_uint; cbv iota beta;
    apply H; reflexivity.
Qed.

Lemma parseInt_Z_to_string n : 0 <= n -> parseInt (Z_to_string n) = Some n.
Proof.
  intros Hn. unfold Z_to_string.
  rewrite <- (DecimalZ.of_to n) at 2.
  destruct n as [|p|p]; [reflexivity| |lia].
  simpl Z.to_int. simpl NilEmpty.string_of_int. simpl Z.of_int.
  apply parseInt_uint. apply DecimalPos.Unsigned.to_uint_nonnil.
Qed.

(** **** The en-passant field *)

Lemma contains_char_In c s :
  contains_char c s = true -> In c (list_ascii_of_string s).
Proof.
  unfold contains_char, string_existsb.
  induction s as [|d s IH]; simpl; [discriminate|].
  destruct (Ascii.eqb c d) eqn:E; simpl.
  - intros _. left. symmetry. apply Ascii.eqb_eq. exact E.
  - intros H. right. apply IH. exact H.
Qed.

Lemma valid_ep_cases t :
  valid_ep t = true ->
  t = "-" \/ exists i, Ox88_of t = Some i /\ algebraic i = t /\ 0 <= i < 128.
Proof.
  destruct t as [|f [|r [|? ?]]]; simpl; try discriminate.
  - destruct (Ascii.eqb_spec f "-"); [subst; auto|].
    destruct f as [[] [] [] [] [] [] [] []]; discriminate || congruence.
  - destruct f as [[] [] [] [] [] [] [] []]; try discriminate; intros H;
      apply andb_true_iff in H as [Hf Hr];
      apply contains_char_In in Hf, Hr; simpl in Hf, Hr;
      repeat match goal with
             | H : _ \/ _ |- _ => destruct H as [H|H]
             | H : False |- _ => destruct H
             | H : _ = _ :> ascii |- _ => try discriminate H; subst
             end;
      right; eexists; (split; [vm_compute; reflexivity|]);
      (split; [vm_compute; reflexivity|lia]).
  - destruct f as [[] [] [] [] [] [] [] []]; discriminate.
Qed.

(** **** Strings *)

Lemma append_assoc (a b c : string) : (a +:+ b) +:+ c = a +:+ b +:+ c.
Proof.
  induction a as [|x a IH]; [reflexivity|].
  change (String x ((a +:+ b) +:+ c) = String x (a +:+ b +:+ c)).
  rewrite IH. reflexivity.
Qed.

Lemma append_nil_r (a : string) : a +:+ EmptyString = a.
Proof.
  induction a as [|x a IH]; [reflexivity|].
  change (String x (a +:+ EmptyString) = String x a).
  rewrite IH. reflexivity.
Qed.

Lemma string_rev_acc_app s : forall acc,
  string_rev_acc s acc = string_rev s +:+ acc.
Proof.
  unfold string_rev. induction s as [|c s IH]; intros acc; simpl; [reflexivity|].
  rewrite (IH (String c acc)), (IH (String c EmptyString)), append_assoc. reflexivity.
Qed.

Lemma split_char_go_nonempty sep s : forall cur, split_char_go sep s cur <> [].
Proof.
  induction s as [|c s IH]; intros cur; simpl; [discriminate|].
  destruct (Ascii.eqb c sep); [discriminate|apply IH].
Qed.

Lemma join_cons sep x l : l <> [] -> join sep (x :: l) = x +:+ sep +:+ join sep l.
Proof. destruct l; [congruence|reflexivity]. Qed.

Lemma join_split_go sep s : forall cur,
  join (str1 sep) (split_char_go sep s cur) = string_rev cur +:+ s.
Proof.
  induction s as [|c s IH]; intros cur; simpl.
  - rewrite append_nil_r. reflexivity.
  - destruct (Ascii.eqb_spec c sep) as [->|Hne].
    + rewrite join_cons by apply split_char_go_nonempty.
      rewrite IH. reflexivity.
    + rewrite IH. unfold string_rev at 1. simpl.
      rewrite string_rev_acc_app, append_assoc. reflexivity.
Qed.

Lemma join_split sep s : join (str1 sep) (split_char sep s) = s.
Proof. unfold split_char. rewrite join_split_go. reflexivity. Qed.

Lemma contains_char_cons a d s :
  contains_char a (String d s) = Ascii.eqb a d || contains_char a s.
Proof.
  unfold contains_char, string_existsb. simpl.
  destruct (Ascii.eqb a d); reflexivity.
Qed.

(** **** Digits and piece letters *)

Lemma digit_string c :
  is_digit c = true ->
  Z_to_string (digit_value c) = String c EmptyString /\ 0 <= digit_value c <= 9 /\
  (digit_value c = 0 -> c = "0"%char) /\ Ascii.eqb c "/" = false.
Proof.
  destruct c as [[] [] [] [] [] [] [] []]; try discriminate; intros _;
    vm_compute; repeat split; congruence.
Qed.

Lemma piece_letter_of c :
  contains_char c "prnbqkPRNBQK" = true ->
  is_digit c = false /\ Ascii.eqb c "/" = false /\
  exists t, piece_of_letter c = Some t /\
            piece_letter (mkPiece t (if (N_of_ascii c <? 97)%N then WHITE else BLACK))
              = String c EmptyString.
Proof.
  intros H. apply contains_char_In in H. simpl in H.
  repeat destruct H as [<-|H]; try destruct H;
    (split; [reflexivity|split; [reflexivity|eexists; split; vm_compute; reflexivity]]).
Qed.

(** **** One row *)

Lemma fold_emit_empty n : forall e out,
  fold_left emit_step (replicate n None) (e, out) = (e + Z.of_nat n, out).
Proof.
  induction n as [|n IH]; intros e out; simpl.
  - f_equal. lia.
  - rewrite IH. f_equal. lia.
Qed.

Lemma emit_row s : forall sum prev e out,
  valid_row_from s sum prev = None ->
  contains_char "0" s = false ->
  (prev = false -> e = 0) -> 0 <= e ->
  flush (fold_left emit_step (linear_cells s) (e, out))
    = (if 0 <? e then out +:+ Z_to_string e else out) +:+ s
  /\ sum + Z.of_nat (length (linear_cells s)) = 8.
Proof.
  induction s as [|c s IH]; intros sum prev e out Hv Hz Hp He; simpl in Hv.
  - simpl. unfold flush. simpl. rewrite append_nil_r.
    destruct (sum =? 8) eqn:E; [|discriminate]. apply Z.eqb_eq in E. split; [reflexivity|lia].
  - rewrite contains_char_cons in Hz. apply orb_false_iff in Hz as [Hc0 Hz].
    destruct (is_digit c) eqn:Ed.
    + destruct prev; [discriminate|]. specialize (Hp eq_refl). subst e.
      destruct (digit_string c Ed) as (Hstr & Hrange & Hzero & Hslash).
      assert (Hd : 0 < digit_value c).
      { destruct (Z.eq_dec (digit_value c) 0) as [E0|]; [|lia].
        apply Hzero in E0. subst c. discriminate. }
      simpl linear_cells. rewrite Hslash, Ed.
      rewrite fold_left_app, fold_emit_empty, length_app, length_replicate.
      destruct (IH (sum + digit_value c) true (0 + Z.of_nat (Z.to_nat (digit_value c))) out Hv Hz)
        as [IH1 IH2]; [discriminate|lia|].
      rewrite IH1. split; [|lia].
      replace (0 + Z.of_nat (Z.to_nat (digit_value c))) with (digit_value c) by lia.
      assert (Hpos : (0 <? digit_value c) = true) by (apply Z.ltb_lt; exact Hd).
      rewrite Hpos, Hstr. simpl. rewrite append_assoc. reflexivity.
    + destruct (contains_char c "prnbqkPRNBQK") eqn:Ec; [|discriminate]. simpl in Hv.
      destruct (piece_letter_of c Ec) as (_ & Hslash & t & Ht & Hletter).
      simpl linear_cells. rewrite Hslash, Ed, Ht. simpl fold_left. simpl length.
      cbn [fst snd]. rewrite Hletter.
      destruct (IH (sum + 1) false 0
                  ((if 0 <? e then out +:+ Z_to_string e else out) +:+ String c EmptyString)
                  Hv Hz) as [IH1 IH2]; [reflexivity|lia|].
      rewrite IH1. split; [|lia].
      simpl. rewrite append_assoc. reflexivity.
Qed.

(** **** The emitter, row by row *)

Lemma fen_placement_row row : forall last rest b e out,
  Forall (fun i => off_board (i + 1) = false) row ->
  off_board (last + 1) = true ->
  fen_placement (row ++ last :: rest) b e out =
    fen_placement rest b 0
      (flush (fold_left emit_step (List.map (fun i => b !! i) (row ++ [last])) (e, out))
       +:+ (if negb (last =? Ox88.h1) then "/" else EmptyString)).
Proof.
  induction row as [|i row IH]; intros last rest b e out Hrow Hlast.
  - simpl. rewrite Hlast. unfold flush, emit_step.
    destruct (b !! last); cbn [fst snd];
      destruct (negb (last =? Ox88.h1)); rewrite ?append_nil_r; reflexivity.
  - inversion Hrow as [|? ? Hi Hrow']; subst. simpl. rewrite Hi.
    destruct (b !! i); rewrite IH by assumption; reflexivity.
Qed.

(** **** The board built from the text *)

Lemma placement_board_lookup position : forall sq b j,
  placement_board position sq b !! j =
    match (if j <? sq then None else linear_cells position !! Z.to_nat (j - sq)) with
    | Some (Some p) => Some p
    | _ => b !! j
    end.
Proof.
  induction position as [|c s IH]; intros sq b j; cbn [placement_board linear_cells].
  - destruct (j <? sq); [reflexivity|]. rewrite lookup_nil. reflexivity.
  - destruct (Ascii.eqb c "/").
    { rewrite IH. destruct (j <? sq) eqn:E1, (j <? sq + 8) eqn:E2;
        try apply Z.ltb_lt in E1; try apply Z.ltb_lt in E2;
        try apply Z.ltb_ge in E1; try apply Z.ltb_ge in E2; try lia; try reflexivity.
      - rewrite lookup_app_l by (rewrite length_replicate; lia).
        rewrite lookup_replicate_2 by lia. reflexivity.
      - rewrite lookup_app_r by (rewrite length_replicate; lia).
        rewrite length_replicate.
        replace (Z.to_nat (j - sq) - 8)%nat with (Z.to_nat (j - (sq + 8))) by lia.
        reflexivity. }
    destruct (is_digit c) eqn:Ed.
    { destruct (digit_string c Ed) as (_ & Hrange & _).
      rewrite IH. destruct (j <? sq) eqn:E1, (j <? sq + digit_value c) eqn:E2;
        try apply Z.ltb_lt in E1; try apply Z.ltb_lt in E2;
        try apply Z.ltb_ge in E1; try apply Z.ltb_ge in E2; try lia; try reflexivity.
      - rewrite lookup_app_l by (rewrite length_replicate; lia).
        rewrite lookup_replicate_2 by lia. reflexivity.
      - rewrite lookup_app_r by (rewrite length_replicate; lia).
        rewrite length_replicate.
        replace (Z.to_nat (j - sq) - Z.to_nat (digit_value c))%nat
          with (Z.to_nat (j - (sq + digit_value c))) by lia.
        reflexivity. }
    destruct (piece_of_letter c) as [t|].
    + rewrite IH. destruct (j <? sq) eqn:E1, (j <? sq + 1) eqn:E2;
        try apply Z.ltb_lt in E1; try apply Z.ltb_lt in E2;
        try apply Z.ltb_ge in E1; try apply Z.ltb_ge in E2; try lia.
      * rewrite lookup_insert_ne by lia. reflexivity.
      * assert (j = sq) as -> by lia. rewrite Z.sub_diag. simpl.
        rewrite lookup_insert_eq. reflexivity.
      * replace (Z.to_nat (j - sq)) with (S (Z.to_nat (j - (sq + 1)))) by lia.
        simpl. rewrite lookup_insert_ne by lia. reflexivity.
    + destruct (j <? sq); [reflexivity|]. rewrite lookup_nil. reflexivity.
Qed.

Lemma board_cell position j :
  0 <= j ->
  placement_board position 0 ∅ !! j = mjoin (linear_cells position !! Z.to_nat j).
Proof.
  intros Hj. rewrite placement_board_lookup, lookup_empty.
  assert (E : (j <? 0) = false) by (apply Z.ltb_ge; lia). rewrite E, Z.sub_0_r.
  destruct (linear_cells position !! Z.to_nat j) as [[p|]|]; reflexivity.
Qed.

Lemma linear_cells_row s : forall sum prev t,
  valid_row_from s sum prev = None ->
  linear_cells (s +:+ t) = linear_cells s ++ linear_cells t.
Proof.
  induction s as [|c s IH]; intros sum prev t Hv; [reflexivity|].
  simpl in Hv. change (String c s +:+ t) with (String c (s +:+ t)).
  cbn [linear_cells].
  destruct (is_digit c) eqn:Ed.
  - destruct prev; [discriminate|].
    destruct (digit_string c Ed) as (_ & _ & _ & Hslash). rewrite Hslash.
    rewrite (IH _ _ t Hv), app_assoc. reflexivity.
  - destruct (contains_char c "prnbqkPRNBQK") eqn:Ec; [|discriminate]. simpl in Hv.
    destruct (piece_letter_of c Ec) as (_ & Hslash & ty & Ht & _).
    rewrite Hslash, Ht, (IH _ _ t Hv). reflexivity.
Qed.

Lemma row_facts r :
  valid_row r = None -> contains_char "0" r = false ->
  (forall out, flush (fold_left emit_step (linear_cells r) (0, out)) = out +:+ r) /\
  length (linear_cells r) = 8%nat /\
  (forall t, linear_cells (r +:+ t) = linear_cells r ++ linear_cells t).
Proof.
  intros Hv Hz. unfold valid_row in Hv. split; [|split].
  - intros out. destruct (emit_row r 0 false 0 out Hv Hz) as [H _]; [reflexivity|lia|].
    exact H.
  - destruct (emit_row r 0 false 0 EmptyString Hv Hz) as [_ H]; [reflexivity|lia|]. lia.
  - intros t. eapply linear_cells_row. exact Hv.
Qed.

Lemma board_squares_rows :
  board_squares =
    [0; 1; 2; 3; 4; 5; 6] ++ 7 ::
    [16; 17; 18; 19; 20; 21; 22] ++ 23 ::
    [32; 33; 34; 35; 36; 37; 38] ++ 39 ::
    [48; 49; 50; 51; 52; 53; 54] ++ 55 ::
    [64; 65; 66; 67; 68; 69; 70] ++ 71 ::
    [80; 81; 82; 83; 84; 85; 86] ++ 87 ::
    [96; 97; 98; 99; 100; 101; 102] ++ 103 ::
    [112; 113; 114; 115; 116; 117; 118] ++ 119 :: [].
Proof. vm_compute. reflexivity. Qed.

Ltac eight_cells c :=
  let H := fresh "Hlen" in
  intros H;
  do 8 (destruct c as [|? c]; [discriminate H|]);
  destruct c; [|discriminate H]; clear H.

Lemma fen_placement_rows rows :
  length rows = 8%nat ->
  Forall (fun r => valid_row r = None /\ contains_char "0" r = false) rows ->
  fen_placement board_squares (placement_board (join "/" rows) 0 ∅) 0 EmptyString
    = join "/" rows.
Proof.
  intros Hlen Hrows.
  destruct rows as [|r0 [|r1 [|r2 [|r3 [|r4 [|r5 [|r6 [|r7 [|]]]]]]]]]; try discriminate.
  clear Hlen.
  repeat match goal with
         | H : Forall _ (_ :: _) |- _ => inversion H; subst; clear H
         | H : Forall _ [] |- _ => clear H
         end.
  repeat match goal with
         | H : valid_row ?r = None /\ _ |- _ =>
             destruct H as [Hv Hz];
             destruct (row_facts r Hv Hz) as (? & ? & ?); clear Hv Hz
         end.
  assert (Hcells : linear_cells (join "/" [r0; r1; r2; r3; r4; r5; r6; r7]) =
            linear_cells r0 ++ replicate 8 None ++ linear_cells r1 ++ replicate 8 None ++
            linear_cells r2 ++ replicate 8 None ++ linear_cells r3 ++ replicate 8 None ++
            linear_cells r4 ++ replicate 8 None ++ linear_cells r5 ++ replicate 8 None ++
            linear_cells r6 ++ replicate 8 None ++ linear_cells r7).
  { unfold join. cbn [String.concat].
    repeat match goal with
           | H : forall t, linear_cells (?r +:+ t) = _ |- context [linear_cells (?r +:+ _)] =>
               rewrite H;
               change (linear_cells ("/" +:+ ?x)) with (replicate 8 None ++ linear_cells x)
           end.
    reflexivity. }
  set (B := placement_board (join "/" [r0; r1; r2; r3; r4; r5; r6; r7]) 0 ∅).
  assert (HB : forall j, 0 <= j -> B !! j = mjoin (
            (linear_cells r0 ++ replicate 8 None ++ linear_cells r1 ++ replicate 8 None ++
             linear_cells r2 ++ replicate 8 None ++ linear_cells r3 ++ replicate 8 None ++
             linear_cells r4 ++ replicate 8 None ++ linear_cells r5 ++ replicate 8 None ++
             linear_cells r6 ++ replicate 8 None ++ linear_cells r7) !! Z.to_nat j)).
  { intros j Hj. subst B. rewrite board_cell by assumption. rewrite Hcells. reflexivity. }
  clearbody B. clear Hcells.
  repeat match goal with
         | H : forall t, linear_cells (?r +:+ t) = _ |- _ => clear H
         end.
  unfold join. cbn [String.concat].
  repeat match goal with
         | H : length (linear_cells ?r) = 8%nat |- _ =>
             generalize dependent (linear_cells r);
             let c := fresh "c" in intros c; revert c
         end.
  intros c7 E7 L7 c6 E6 L6 c5 E5 L5 c4 E4 L4 c3 E3 L3 c2 E2 L2 c1 E1 L1 c0 E0 L0 HB.
  rewrite board_squares_rows.
  repeat (rewrite fen_placement_row;
          [|repeat constructor|reflexivity]).
  cbn [fen_placement List.map app].
  revert HB E0 E1 E2 E3 E4 E5 E6 E7.
  revert L0; eight_cells c0. revert L1; eight_cells c1.
  revert L2; eight_cells c2. revert L3; eight_cells c3.
  revert L4; eight_cells c4. revert L5; eight_cells c5.
  revert L6; eight_cells c6. revert L7; eight_cells c7.
  intros HB E0 E1 E2 E3 E4 E5 E6 E7.
  rewrite !HB by lia.
  cbn [app replicate Z.to_nat Pos.to_nat Pos.iter_op Nat.add lookup list_lookup mjoin
       option_join Init.Nat.add].
  change (negb (7 =? Ox88.h1)) with true. change (negb (23 =? Ox88.h1)) with true.
  change (negb (39 =? Ox88.h1)) with true. change (negb (55 =? Ox88.h1)) with true.
  change (negb (71 =? Ox88.h1)) with true. change (negb (87 =? Ox88.h1)) with true.
  change (negb (103 =? Ox88.h1)) with true. change (negb (119 =? Ox88.h1)) with false.
  cbv iota.
  rewrite E0, E1, E2, E3, E4, E5, E6, E7.
  rewrite append_nil_r, !append_assoc. reflexivity.
Qed.

(** **** Running [load] *)

Section LoadRuns.
Context (K : Zobrist).

Lemma runs_hash_squares l : forall h g,
  in_range (_board g) -> exists h', runs (hash_squares K l h) g h' g.
Proof.
  induction l as [|i l IH]; intros h g Hr; simpl.
  - eexists. apply runs_ret.
  - destruct (bool_decide (is_Some (_board g !! i))) eqn:E.
    + destruct (IH (Z.lxor h (key_at K (_board g) i)) g Hr) as [h' Hh'].
      exists h'. eapply runs_bind; [apply runs_gets|]. cbv beta. rewrite E.
      eapply runs_bind; [apply runs_pieceKey; assumption|]. exact Hh'.
    + destruct (IH h g Hr) as [h' Hh']. exists h'.
      eapply runs_bind; [apply runs_gets|]. cbv beta. rewrite E. exact Hh'.
Qed.

Lemma runs_computeHash g :
  in_range (_board g) -> rights_ok (_castling g) ->
  exists h, runs (_computeHash K) g h g.
Proof.
  intros Hr Hc. unfold _computeHash.
  destruct (runs_hash_squares board_squares 0 g Hr) as [h0 H0].
  eexists. eapply runs_bind; [exact H0|].
  eapply runs_bind; [apply runs_gets|].
  eapply runs_bind; [apply runs_castlingKey; assumption|].
  eapply runs_bind; [apply runs_gets|]. apply runs_ret.
Qed.

Lemma runs_load_placement position : forall sq g,
  in_range (_board g) -> 0 <= sq ->
  sq + Z.of_nat (length (linear_cells position)) <= 128 ->
  string_forallb placement_char position = true ->
  exists ks h,
    runs (load_placement K position sq) g tt
         (placed (placement_board position sq (_board g)) ks h g) /\
    in_range (placement_board position sq (_board g)).
Proof.
  induction position as [|c s IH]; intros sq g Hr Hsq Hlen Hok.
  - exists (_kings g), (_hash g). split; [|exact Hr].
    simpl. eapply runs_eq; [apply runs_ret|]. destruct g; reflexivity.
  - cbn [string_forallb] in Hok. apply andb_true_iff in Hok as [Hc Hok].
    cbn [load_placement placement_board linear_cells] in *.
    destruct (Ascii.eqb c "/") eqn:Eslash.
    { rewrite length_app, length_replicate in Hlen.
      apply IH; [assumption|lia|lia|assumption]. }
    destruct (is_digit c) eqn:Ed.
    { rewrite length_app, length_replicate in Hlen.
      destruct (digit_string c Ed) as (_ & Hrange & _).
      apply IH; [assumption|lia|lia|assumption]. }
    unfold placement_char in Hc. rewrite Eslash, Ed in Hc. simpl in Hc.
    destruct (piece_letter_of c Hc) as (_ & _ & t & Ht & _).
    rewrite Ht in *. cbn [length] in Hlen.
    set (p := mkPiece t (if (N_of_ascii c <? 97)%N then WHITE else BLACK)) in *.
    assert (Hsq' : 0 <= sq < 128) by lia.
    pose proof (runs_set K sq p g Hr Hsq') as Hset.
    set (g1 := with_bh (<[sq:=p]> (_board g))
                 (Z.lxor (Z.lxor (_hash g) (key_at K (_board g) sq))
                    (PIECE_KEYS K (pcolor p) (ptype p) sq)) g) in *.
    assert (Hr1 : in_range (<[sq:=p]> (_board g))) by (apply in_range_insert; assumption).
    destruct (bool_decide (t = KING)) eqn:Ek.
    + set (g2 := set_kings (pc_set (_kings g1) (pcolor p) sq) g1).
      destruct (IH (sq + 1) g2) as (ks & h & Hrun & Hin);
        [destruct g; exact Hr1|lia|lia|assumption|].
      exists ks, h. split; [|destruct g; exact Hin].
      eapply runs_bind; [exact Hset|].
      eapply runs_bind; [unfold when; apply runs_modify|].
      eapply runs_eq; [exact Hrun|]. destruct g; reflexivity.
    + destruct (IH (sq + 1) g1) as (ks & h & Hrun & Hin);
        [destruct g; exact Hr1|lia|lia|assumption|].
      exists ks, h. split; [|destruct g; exact Hin].
      eapply runs_bind; [exact Hset|].
      eapply runs_bind; [unfold when; apply runs_ret|].
      eapply runs_eq; [exact Hrun|]. destruct g; reflexivity.
Qed.

End LoadRuns.

Lemma pruned_supported field b r :
  In (field, r)
     [("-", mkPC 0 0); ("K", mkPC 32 0); ("Q", mkPC 64 0); ("KQ", mkPC 96 0);
      ("k", mkPC 0 32); ("Kk", mkPC 32 32); ("Qk", mkPC 64 32); ("KQk", mkPC 96 32);
      ("q", mkPC 0 64); ("Kq", mkPC 32 64); ("Qq", mkPC 64 64); ("KQq", mkPC 96 64);
      ("kq", mkPC 0 96); ("Kkq", mkPC 32 96); ("Qkq", mkPC 64 96); ("KQkq", mkPC 96 96)] ->
  castling_supported field b = true ->
  pruned_rights b r = r /\ fen_castling r = field /\ rights_ok r.
Proof.
  intros Hin Hs. simpl in Hin.
  repeat (destruct Hin as [Hin|Hin]; [inversion Hin; subst; clear Hin|]);
    try destruct Hin;
    unfold castling_supported in Hs; cbn [negb orb andb] in Hs;
    (split; [|split; [reflexivity|split; vm_compute; tauto]]);
    unfold pruned_rights;
    destruct (bool_decide (b !! Ox88.e1 = Some (mkPiece KING WHITE)));
    destruct (bool_decide (b !! Ox88.e8 = Some (mkPiece KING BLACK)));
    destruct (bool_decide (b !! Ox88.a1 = Some (mkPiece ROOK WHITE)));
    destruct (bool_decide (b !! Ox88.h1 = Some (mkPiece ROOK WHITE)));
    destruct (bool_decide (b !! Ox88.a8 = Some (mkPiece ROOK BLACK)));
    destruct (bool_decide (b !! Ox88.h8 = Some (mkPiece ROOK BLACK)));
    try discriminate Hs; reflexivity.
Qed.

Lemma then_runs {A B} (m : M A) (f : A -> M B) g a g1 b (P : Game -> Prop) :
  runs m g a g1 ->
  (exists g2, runs (f a) g1 b g2 /\ P g2) ->
  exists g2, runs (bind m f) g b g2 /\ P g2.
Proof.
  intros H1 (g2 & H2 & HP). exists g2. split; [|exact HP].
  eapply runs_bind; eassumption.
Qed.

Ltac smod := eapply then_runs; [apply runs_modify'; norm; reflexivity|]; cbv beta.

Ltac swhen :=
  lazymatch goal with
  | |- exists _, runs (bind (when ?c _) _) _ _ _ /\ _ =>
      let c' := eval vm_compute in c in
      change c with c'; unfold when at 1; cbv iota;
      lazymatch c' with
      | true => smod
      | false => eapply then_runs; [apply runs_ret|]; cbv beta
      end
  end.

Section LoadFen.
Context (K : Zobrist).

Lemma load_runs f g t0 t1 t2 t3 t4 t5 r turn ep hm mn :
  split_ws (autofill f) = [t0; t1; t2; t3; t4; t5] ->
  string_forallb placement_char t0 = true ->
  length (linear_cells t0) = 120%nat ->
  (t1 = "w" /\ turn = WHITE) \/ (t1 = "b" /\ turn = BLACK) ->
  In (t2, r)
     [("-", mkPC 0 0); ("K", mkPC 32 0); ("Q", mkPC 64 0); ("KQ", mkPC 96 0);
      ("k", mkPC 0 32); ("Kk", mkPC 32 32); ("Qk", mkPC 64 32); ("KQk", mkPC 96 32);
      ("q", mkPC 0 64); ("Kq", mkPC 32 64); ("Qq", mkPC 64 64); ("KQq", mkPC 96 64);
      ("kq", mkPC 0 96); ("Kkq", mkPC 32 96); ("Qkq", mkPC 64 96); ("KQkq", mkPC 96 96)] ->
  castling_supported t2 (placement_board t0 0 ∅) = true ->
  (t3 = "-" /\ ep = EMPTY) \/ (Ox88_of t3 = Some ep) ->
  parseInt t4 = Some hm -> parseInt t5 = Some mn ->
  exists g1,
    runs (load K f) g tt g1 /\
    (_board g1 = placement_board t0 0 ∅ /\ _turn g1 = turn /\ _castling g1 = r /\
     _epSquare g1 = ep /\ _fenEpSquare g1 = ep /\
     _halfMoves g1 = hm /\ _moveNumber g1 = mn).
Proof.
  intros Htok Hok Hlen Hturn Hin Hsup Hep Hhm Hmn.
  destruct (pruned_supported t2 _ r Hin Hsup) as (Hpr & _ & Hrok).
  unfold load. rewrite Htok. cbv zeta. cbn [nth length].
  destruct g as [b0 tn0 k0 hm0 h0 pc0 ep0 c0 hist0 fep0 mn0].
  do 9 smod.
  (* the first hash *)
  match goal with
  | |- exists _, runs _ ?g _ _ /\ _ =>
      destruct (runs_computeHash K g) as [hA HA];
        [intros i p; cbn; rewrite lookup_empty; discriminate
        |split; left; reflexivity|]
  end.
  eapply then_runs;
    [eapply runs_bind; [exact HA|apply runs_modify'; norm; reflexivity]|]; cbv beta.
  smod.
  (* the placement *)
  match goal with
  | |- exists _, runs _ ?g _ _ /\ _ =>
      destruct (runs_load_placement K t0 0 g) as (ks & hB & HB & HrB);
        [intros i p; cbn; rewrite lookup_empty; discriminate
        |lia|rewrite Hlen; lia|exact Hok|]
  end.
  eapply then_runs; [exact HB|]; cbv beta. unfold placed. norm.
  (* side to move *)
  change (6 <? 3)%nat with false. cbv iota.
  simpl in Hin.
  destruct Hturn as [[-> ->]|[-> ->]];
    change ("w" =? "w")%string with true; change ("b" =? "w")%string with false;
    change ("b" =? "b")%string with true; cbv iota; smod.
  all: repeat (destruct Hin as [Hin|Hin]; [inversion Hin; subst; clear Hin|]);
    try destruct Hin.
  all: do 4 swhen.
  all: match goal with
       | |- exists _, runs _ (mkGame _ _ _ _ _ _ _ ?c _ _ _) _ _ /\ _ =>
           let c' := eval vm_compute in c in change c with c'
       end.
  (* pruning the rights *)
  all: eapply then_runs;
    [unfold _updateCastlingRights;
     eapply runs_bind;
       [eapply runs_bind;
          [apply runs_castlingKey; exact Hrok|apply runs_modify'; norm; reflexivity]|];
     eapply runs_bind; [apply runs_modify'; norm; rewrite Hpr; reflexivity|];
     eapply runs_bind;
       [apply runs_castlingKey; exact Hrok|apply runs_modify'; norm; reflexivity]|];
    cbv beta.
  (* the en-passant square *)
  all: assert (Hepr : (if (t3 =? "-")%string then ret EMPTY
                       else or_unmodelled (Ox88_of t3)) = ret ep);
    [destruct Hep as [[-> ->]|Hox];
     [reflexivity
     |destruct (String.eqb_spec t3 "-") as [->|_];
      [discriminate Hox|rewrite Hox; reflexivity]]|].
  all: rewrite Hepr, Hhm, Hmn; unfold or_unmodelled.
  all: eapply then_runs;
    [eapply runs_bind; [apply runs_ret|];
     eapply runs_bind; apply runs_modify'; norm; reflexivity|]; cbv beta.
  all: do 2 (eapply then_runs;
    [eapply runs_bind; [apply runs_ret|apply runs_modify'; norm; reflexivity]|];
    cbv beta).
  (* the final hash *)
  all: match goal with
       | |- exists _, runs _ ?g _ _ /\ _ =>
           destruct (runs_computeHash K g) as [hC HC]; [exact HrB|exact Hrok|]
       end.
  all: eexists; split;
    [eapply runs_bind; [exact HC|apply runs_modify'; norm; reflexivity]|].
  all: repeat split; reflexivity.
Qed.

(** What [validateFen] has checked when it finds no fault. *)
Lemma validateFen_ok f :
  validateFen f = None ->
  exists t0 t1 t2 t3 t4 t5,
    split_ws f = [t0; t1; t2; t3; t4; t5] /\
    valid_ep t3 = true /\
    (t1 = "w" \/ t1 = "b") /\
    length (split_char "/" t0) = 8%nat /\
    first_error valid_row (split_char "/" t0) = None.
Proof.
  unfold validateFen.
  destruct (split_ws f) as [|t0 [|t1 [|t2 [|t3 [|t4 [|t5 [|t6 l]]]]]]];
    cbn [length Nat.eqb negb nth]; try discriminate.
  intros H.
  repeat match type of H with
         | (if ?c then Some _ else _) = None => destruct c eqn:?; [discriminate H|]
         end.
  destruct (first_error valid_row (split_char "/" t0)) eqn:Hrows; [discriminate H|].
  exists t0, t1, t2, t3, t4, t5. split; [reflexivity|].
  repeat match goal with
         | H : negb _ = false |- _ => apply negb_false_iff in H
         end.
  split; [assumption|]. split; [|split; [|first [assumption|reflexivity]]].
  - match goal with
    | H : (_ =? "w")%string || _ = true |- _ =>
        apply orb_true_iff in H as [H|H]; apply String.eqb_eq in H; auto
    end.
  - match goal with
    | H : (length _ =? 8)%nat = true |- _ => apply Nat.eqb_eq in H; exact H
    end.
Qed.

Lemma first_error_none {A} (f : A -> option string) l :
  first_error f l = None -> Forall (fun x => f x = None) l.
Proof.
  induction l as [|x l IH]; simpl; [constructor|].
  destruct (f x) eqn:E; [discriminate|]. intros H. constructor; auto.
Qed.

Lemma string_forallb_app p (a b : string) :
  string_forallb p (a +:+ b) = string_forallb p a && string_forallb p b.
Proof.
  induction a as [|c a IH]; [reflexivity|].
  change (String c a +:+ b) with (String c (a +:+ b)). cbn [string_forallb].
  rewrite IH, andb_assoc. reflexivity.
Qed.

Lemma contains_char_app c (a b : string) :
  contains_char c (a +:+ b) = contains_char c a || contains_char c b.
Proof.
  unfold contains_char, string_existsb. rewrite string_forallb_app, negb_andb.
  reflexivity.
Qed.

Lemma valid_row_chars s : forall sum prev,
  valid_row_from s sum prev = None -> string_forallb placement_char s = true.
Proof.
  induction s as [|c s IH]; intros sum prev Hv; [reflexivity|].
  cbn [valid_row_from string_forallb] in *. unfold placement_char at 1.
  destruct (is_digit c).
  - destruct prev; [discriminate|]. rewrite orb_true_r. simpl. eapply IH; eassumption.
  - destruct (contains_char c "prnbqkPRNBQK"); [|discriminate].
    rewrite orb_true_r. simpl in *. eapply IH; eassumption.
Qed.

(** The rows of a placement that [validateFen] accepts. *)
Lemma placement_rows t0 :
  length (split_char "/" t0) = 8%nat ->
  first_error valid_row (split_char "/" t0) = None ->
  contains_char "0" t0 = false ->
  exists rows,
    t0 = join "/" rows /\ length rows = 8%nat /\
    Forall (fun r => valid_row r = None /\ contains_char "0" r = false) rows /\
    string_forallb placement_char t0 = true /\
    length (linear_cells t0) = 120%nat.
Proof.
  intros Hlen Hrows Hz.
  pose proof (join_split "/" t0) as Hj. change (str1 "/") with "/" in Hj.
  apply first_error_none in Hrows.
  destruct (split_char "/" t0) as [|r0 [|r1 [|r2 [|r3 [|r4 [|r5 [|r6 [|r7 [|]]]]]]]]];
    try discriminate.
  clear Hlen. exists [r0; r1; r2; r3; r4; r5; r6; r7].
  subst t0. unfold join in *. cbn [String.concat] in *.
  repeat (rewrite contains_char_app in Hz;
          apply orb_false_iff in Hz as [? Hz]).
  repeat match goal with
         | H : Forall _ (_ :: _) |- _ => inversion H; subst; clear H
         | H : Forall _ [] |- _ => clear H
         end.
  split; [reflexivity|]. split; [reflexivity|].
  split; [repeat constructor; assumption|].
  repeat match goal with
         | H : valid_row ?r = None |- _ =>
             pose proof (valid_row_chars r 0 false H);
             let Hz := match goal with Hz : contains_char "0" r = false |- _ => Hz end in
             destruct (row_facts r H Hz) as (_ & ? & ?); clear H
         end.
  split.
  - rewrite !string_forallb_app.
    repeat match goal with
           | H : string_forallb placement_char _ = true |- _ => rewrite H; clear H
           end.
    reflexivity.
  - repeat match goal with
           | H : forall t, linear_cells (?r +:+ t) = _ |- context [linear_cells (?r +:+ _)] =>
               rewrite H;
               change (linear_cells ("/" +:+ ?x)) with (replicate 8 None ++ linear_cells x)
           end.
    rewrite !length_app, !length_replicate.
    repeat match goal with
           | H : length (linear_cells _) = 8%nat |- _ => rewrite H; clear H
           end.
    reflexivity.
Qed.

Lemma castling_field_rights t2 :
  t2 ∈ castling_fields ->
  exists r,
    In (t2, r)
       [("-", mkPC 0 0); ("K", mkPC 32 0); ("Q", mkPC 64 0); ("KQ", mkPC 96 0);
        ("k", mkPC 0 32); ("Kk", mkPC 32 32); ("Qk", mkPC 64 32); ("KQk", mkPC 96 32);
        ("q", mkPC 0 64); ("Kq", mkPC 32 64); ("Qq", mkPC 64 64); ("KQq", mkPC 96 64);
        ("kq", mkPC 0 96); ("Kkq", mkPC 32 96); ("Qkq", mkPC 64 96); ("KQkq", mkPC 96 96)].
Proof.
  intros H. apply list_elem_of_In in H. simpl in H.
  repeat (destruct H as [<-|H]; [eexists; simpl; eauto 20|]). destruct H.
Qed.

End LoadFen.

Lemma canonical_check_sound f : canonical_check f = true -> canonical_fen f.
Proof.
  unfold canonical_check. cbv zeta. intros H.
  apply andb_true_iff in H as [H Hc].
  apply andb_true_iff in H as [H Hs].
  apply andb_true_iff in H as [Hz Hf].
  apply negb_true_iff in Hz. apply bool_decide_eq_true in Hf.
  destruct (parseInt (nth 4 (split_ws f) EmptyString)) as [h|]; [|discriminate].
  destruct (parseInt (nth 5 (split_ws f) EmptyString)) as [n|]; [|discriminate].
  repeat (apply andb_true_iff in Hc as [Hc ?]).
  repeat match goal with
         | H : (_ =? _)%string = true |- _ => apply String.eqb_eq in H
         end.
  split; try assumption.
  - exists h. split; [lia|assumption].
  - exists n. split; [lia|assumption].
Qed.

(** C3 (amended): a FEN that passes [validateFen] and is written the way
    [fen()] writes one (no digit 0 in the placement; a castling field that
    lists, in the order KQkq, only rights whose king and rook stand at
    home; plain decimal counters) loads without error, and [fen()] with
    [forceEnpassantSquare] then returns its six fields joined by single
    spaces. *)
Theorem fen_roundtrip (K : Zobrist) f g :
  validateFen f = None ->
  canonical_fen f ->
  exists g1,
    load K f g = Ok tt g1 /\
    fen K true g1 = Ok (join " " (split_ws f)) g1.
Proof.
  intros Hval [Hzero Hform Hsup Hhm Hmn].
  destruct (validateFen_ok f Hval)
    as (t0 & t1 & t2 & t3 & t4 & t5 & Htok & Hep & Hturn & Hlen & Hrows).
  rewrite Htok in *. cbn [nth] in *.
  destruct (placement_rows t0 Hlen Hrows Hzero)
    as (rows & Ht0 & Hlen8 & Hrowsok & Hchars & Hcells).
  destruct (castling_field_rights t2 Hform) as [r Hr].
  destruct (pruned_supported t2 _ r Hr Hsup) as (_ & Hfc & _).
  destruct Hhm as (hm & Hhm_range & ->). destruct Hmn as (mn & Hmn_range & ->).
  assert (Hauto : autofill f = f) by (unfold autofill; rewrite Htok; reflexivity).
  assert (Hepv : exists ep,
            ((t3 = "-" /\ ep = EMPTY) \/ Ox88_of t3 = Some ep) /\
            (if negb (ep =? EMPTY) then algebraic ep else "-") = t3).
  { destruct (valid_ep_cases t3 Hep) as [->|(i & Hox & Halg & Hi)].
    - exists EMPTY. split; [left; auto|reflexivity].
    - exists i. split; [right; exact Hox|].
      assert (E : (i =? EMPTY) = false) by (apply Z.eqb_neq; unfold EMPTY; lia).
      rewrite E. exact Halg. }
  destruct Hepv as (ep & Hepc & Hepstr).
  assert (Hturnv : exists turn,
            ((t1 = "w" /\ turn = WHITE) \/ (t1 = "b" /\ turn = BLACK)) /\
            color_symbol turn = t1).
  { destruct Hturn as [->| ->]; [exists WHITE|exists BLACK]; split; auto. }
  destruct Hturnv as (turn & Hturnc & Hturnstr).
  destruct (load_runs K f g t0 t1 t2 t3 (Z_to_string hm) (Z_to_string mn) r turn ep hm mn)
    as (g1 & Hrun & Hb & Ht & Hc & He & Hfe & Hh & Hm);
    try assumption.
  { rewrite Hauto. exact Htok. }
  { apply parseInt_Z_to_string. lia. }
  { apply parseInt_Z_to_string. lia. }
  exists g1. split; [exact Hrun|].
  destruct g1 as [b1 tn1 k1 hm1 h1 pc1 ep1 c1 hist1 fep1 mn1]. simpl in *. subst.
  unfold fen, bind, gets, ret. cbn [_board _castling _fenEpSquare _epSquare _turn
                                    _halfMoves _moveNumber id].
  rewrite fen_placement_rows by assumption.
  destruct (negb (ep =? EMPTY)); cbn; reflexivity.
Qed.

Lemma fen_roundtrip_witness :
  exists g1,
    load sample_keys after_e4_fen start_game = Ok tt g1 /\
    fen sample_keys true g1 = Ok after_e4_fen g1.
Proof.
  destruct (fen_roundtrip sample_keys after_e4_fen start_game) as (g1 & H1 & H2).
  - vm_compute. reflexivity.
  - apply canonical_check_sound. vm_compute. reflexivity.
  - exists g1. split; [exact H1|exact H2].
Defined.

(** *** Occurrence counts *)

Lemma bind_Ok {A B} (m : M A) (f : A -> M B) g b g' :
  bind m f g = Ok b g' -> exists a g1, m g = Ok a g1 /\ f a g1 = Ok b g'.
Proof.
  unfold bind. destruct (m g) as [a g1|e g1]; [|discriminate].
  intros H. exists a, g1. auto.
Qed.

Lemma frame_pc_Ok {A} (m : M A) g a g' :
  frame_pc m -> m g = Ok a g' -> _positionCount g' = _positionCount g.
Proof. intros Hf H. specialize (Hf g). rewrite H in Hf. exact Hf. Qed.

(** X1: counting a position and then uncounting it leaves the map of
    occurrence counts exactly as it was, provided no stored count is below
    one; counting keeps every count at one or more, and so does uncounting
    a hash that is present. *)
Theorem count_then_uncount g :
  counts_positive (_positionCount g) ->
  (_incPositionCount ;; _decPositionCount (_hash g)) g = Ok tt g /\
  counts_positive (_positionCount (state_of (_incPositionCount g))) /\
  (is_Some (_positionCount g !! _hash g) ->
   counts_positive (_positionCount (state_of (_decPositionCount (_hash g) g)))).
Proof.
  intros Hpos. destruct g as [b t k hm h pc ep c hist fep mn]. simpl in *.
  split; [|split].
  - unfold bind, _incPositionCount, _decPositionCount, modify, set_positionCount.
    cbn [_hash _positionCount _board _turn _kings _halfMoves _epSquare _castling
         _history _fenEpSquare _moveNumber].
    rewrite lookup_insert_eq. cbn [default from_option].
    destruct (pc !! h) as [n|] eqn:E; cbn [default from_option]; unfold id.
    + pose proof (Hpos h n E).
      assert (E1 : (n + 1 =? 1) = false) by (apply Z.eqb_neq; lia).
      rewrite E1. cbn [_hash _positionCount _board _turn _kings _halfMoves _epSquare
                       _castling _history _fenEpSquare _moveNumber].
      replace (n + 1 - 1) with n by lia.
      rewrite insert_insert_eq, (insert_id _ _ _ E). reflexivity.
    + change (0 + 1 =? 1) with true.
      cbn [_hash _positionCount _board _turn _kings _halfMoves _epSquare
           _castling _history _fenEpSquare _moveNumber].
      rewrite delete_insert_eq, (delete_id _ _ E). reflexivity.
  - intros h' n. unfold _incPositionCount, modify. simpl.
    rewrite lookup_insert. case_decide.
    + intros [= <-]. destruct (pc !! h) as [n0|] eqn:E; simpl; [|lia].
      pose proof (Hpos h n0 E). lia.
    + apply Hpos.
  - intros [n0 E] h' n. unfold _decPositionCount, modify. simpl.
    rewrite E. simpl. pose proof (Hpos h n0 E).
    destruct (n0 =? 1) eqn:E1; simpl.
    + rewrite lookup_delete. case_decide; [discriminate|apply Hpos].
    + apply Z.eqb_neq in E1. rewrite lookup_insert. case_decide.
      * intros [= <-]. lia.
      * apply Hpos.
Qed.

Lemma count_then_uncount_witness :
  (_incPositionCount ;; _decPositionCount (_hash start_pgn)) start_pgn = Ok tt start_pgn.
Proof.
  refine (proj1 (count_then_uncount start_pgn _)).
  intros h n. destruct (decide (h = _hash start_pgn)) as [->|Hne].
  - vm_compute. intros [= <-]. discriminate.
  - assert (E : _positionCount start_pgn = {[ _hash start_pgn := 1 ]})
      by (vm_compute; reflexivity).
    rewrite E, lookup_singleton_ne by congruence. discriminate.
Defined.

Section CountedMoves.
Context (K : Zobrist).

#[local] Hint Resolve frame_pieceKey frame_epKey frame_castlingKey frame_xor_hash
  frame_computeHash frame_set frame_clear frame_movePiece frame_push
  frame_update_rook_rights frame_bump frame_makeMove frame_undoMove
  frame_filter_legal frame_moves frame_moveToSan frame_find_by_san
  frame_find_permissive frame_moveFromSan frame_fen_ep_try frame_fen
  frame_createPrettyMove frame_resolve_move : frame.

Lemma frame_ChessPGN_moves legal piece square :
  frame_pc (ChessPGN_moves K legal piece square).
Proof. unfold ChessPGN_moves; frame. Qed.

Lemma frame_createMove m : frame_pc (_createMove K m).
Proof.
  pose proof frame_ChessPGN_moves.
  unfold _createMove; frame.
Qed.

End CountedMoves.

(** X2: a [ChessPGN.move] that returns has counted the position it
    reached exactly once more, and has touched no other count. *)
Theorem ChessPGN_move_counts_once (K : Zobrist) move strict g pretty g' :
  ChessPGN_move K move strict g = Ok pretty g' ->
  _positionCount g'
    = <[_hash g' := default 0 (_positionCount g !! _hash g') + 1]> (_positionCount g).
Proof.
  unfold ChessPGN_move. intros H.
  apply bind_Ok in H as (moveObj & g1 & H1 & H).
  apply bind_Ok in H as (pm & g2 & H2 & H).
  apply bind_Ok in H as ([] & g3 & H3 & H).
  apply bind_Ok in H as ([] & g4 & H4 & H).
  inversion H; subst; clear H.
  apply frame_pc_Ok in H1;
    [|apply frame_resolve_move, frame_ChessPGN_moves].
  apply frame_pc_Ok in H2; [|apply frame_createMove].
  apply frame_pc_Ok in H3; [|apply frame_makeMove].
  unfold _incPositionCount, modify in H4. inversion H4; subst; clear H4.
  simpl. rewrite H3, H2, H1. reflexivity.
Qed.

Lemma ChessPGN_move_counts_once_witness :
  exists pretty g',
    ChessPGN_move sample_keys (MoveSan "e4") false start_pgn = Ok pretty g' /\
    _positionCount g'
      = <[_hash g' := default 0 (_positionCount start_pgn !! _hash g') + 1]>
          (_positionCount start_pgn).
Proof.
  assert (H : exists pretty g',
            ChessPGN_move sample_keys (MoveSan "e4") false start_pgn = Ok pretty g').
  { do 2 eexists. vm_compute. reflexivity. }
  destruct H as (pretty & g' & E).
  exists pretty, g'. split; [exact E|].
  exact (ChessPGN_move_counts_once _ _ _ _ _ _ E).
Defined.

(** X3: in every position the SAN of the null move is the two dashes, and
    the two dashes decode, in strict and in permissive mode, to the null
    move of the side to move; neither call changes the state. *)
Theorem null_move_san_roundtrip (K : Zobrist) g moves strict :
  _moveToSan K (null_move (_turn g)) moves g = Ok SAN_NULLMOVE g /\
  _moveFromSan K SAN_NULLMOVE strict g = Ok (Some (null_move (_turn g))) g.
Proof.
  split.
  - reflexivity.
  - destruct strict; reflexivity.
Qed.

(** X26: [ChessPGN.undo] takes back the count that [ChessPGN.move] added:
    when no stored count is below one, a move followed by the undo of it
    leaves the map of occurrence counts exactly as it was before the
    move. *)
Theorem undo_uncounts_the_move (K : Zobrist) move strict g pretty g1 undone g2 :
  counts_positive (_positionCount g) ->
  ChessPGN_move K move strict g = Ok pretty g1 ->
  ChessPGN_undo K g1 = Ok (Some undone) g2 ->
  _positionCount g2 = _positionCount g.
Proof.
  intros Hpos Hmove Hundo.
  assert (Hpc1 : _positionCount g1
                 = <[_hash g1 := default 0 (_positionCount g !! _hash g1) + 1]>
                     (_positionCount g)).
  { unfold ChessPGN_move in Hmove.
    apply bind_Ok in Hmove as (moveObj & ga & H1 & H).
    apply bind_Ok in H as (pm & gb & H2 & H).
    apply bind_Ok in H as ([] & gc & H3 & H).
    apply bind_Ok in H as ([] & gd & H4 & H).
    inversion H; subst; clear H.
    apply frame_pc_Ok in H1; [|apply frame_resolve_move, frame_ChessPGN_moves].
    apply frame_pc_Ok in H2; [|apply frame_createMove].
    apply frame_pc_Ok in H3; [|apply frame_makeMove].
    unfold _incPositionCount, modify in H4. inversion H4; subst; clear H4.
    simpl. rewrite H3, H2, H1. reflexivity. }
  unfold ChessPGN_undo in Hundo.
  apply bind_Ok in Hundo as (hash & ga & H0 & H).
  unfold gets in H0. inversion H0; subst hash ga; clear H0.
  apply bind_Ok in H as (m & gb & H1 & H).
  destruct m as [m|]; [|discriminate H].
  apply bind_Ok in H as (pm & gc & H2 & H).
  apply bind_Ok in H as ([] & gd & H3 & H).
  inversion H; subst; clear H.
  apply frame_pc_Ok in H1; [|apply frame_undoMove].
  apply frame_pc_Ok in H2; [|apply frame_createMove].
  unfold _decPositionCount, modify in H3. inversion H3; subst; clear H3.
  rewrite H2, H1, Hpc1. rewrite lookup_insert_eq. cbn [default].
  destruct (_positionCount g !! _hash g1) as [n|] eqn:En; cbn [default]; unfold id.
  - pose proof (Hpos _ _ En) as Hn.
    assert (E : (n + 1 =? 1) = false) by (apply Z.eqb_neq; lia). rewrite E.
    destruct gc; simpl.
    replace (n + 1 - 1) with n by lia.
    rewrite insert_insert_eq. apply insert_id. exact En.
  - change (0 + 1 =? 1) with true. cbv iota.
    destruct gc; simpl.
    rewrite delete_insert_eq. apply delete_id. exact En.
Qed.

Lemma undo_uncounts_the_move_witness :
  exists pretty g1 undone g2,
    ChessPGN_move sample_keys (MoveSan "e4") false start_pgn = Ok pretty g1 /\
    ChessPGN_undo sample_keys g1 = Ok (Some undone) g2 /\
    _positionCount g2 = _positionCount start_pgn.
Proof.
  do 4 eexists.
  split; [vm_compute; reflexivity|]. split; [vm_compute; reflexivity|].
  eapply (undo_uncounts_the_move sample_keys (MoveSan "e4") false start_pgn).
  - intros h n Hn.
    assert (E : _positionCount start_pgn = {[ _hash start_pgn := 1 ]})
      by (vm_compute; reflexivity).
    rewrite E in Hn. apply lookup_singleton_Some in Hn as [_ <-]. lia.
  - vm_compute. reflexivity.
  - vm_compute. reflexivity.
Defined.

(** *** The cursor: cache, navigation and search *)

Section CursorNavigationFacts.
Context {G Root : Type}.
Context (processPgnToGame : string -> bool -> G + JsError).
Context (parse : string -> Root + JsError).
Context (Game_of : gmap string string -> Root -> G + JsError).

Local Abbreviation parseGame := (parseGame processPgnToGame parse Game_of).
Local Abbreviation prefetch_loop := (prefetch_loop processPgnToGame parse Game_of).
Local Abbreviation prefetchGames := (prefetchGames processPgnToGame parse Game_of).
Local Abbreviation next := (next processPgnToGame parse Game_of).
Local Abbreviation before := (before processPgnToGame parse Game_of).
Local Abbreviation findNext_loop := (findNext_loop processPgnToGame parse Game_of).
Local Abbreviation findNext := (findNext processPgnToGame parse Game_of).

Lemma existsb_key_false (i : Z) (l : list (Z * G)) :
  existsb (fun kv => fst kv =? i) l = false -> i ∉ fst <$> l.
Proof.
  induction l as [|kv l IH]; simpl; intros H.
  - apply not_elem_of_nil.
  - apply orb_false_iff in H as [H1 H2]. apply Z.eqb_neq in H1.
    apply not_elem_of_cons. split; [congruence|apply IH; exact H2].
Qed.

Lemma replace_keys (i : Z) (g : G) (l : list (Z * G)) :
  fst <$> List.map (fun kv => if fst kv =? i then (i, g) else kv) l = fst <$> l.
Proof.
  induction l as [|kv l IH]; simpl; [reflexivity|].
  f_equal; [|exact IH].
  destruct (fst kv =? i) eqn:E; [|reflexivity].
  apply Z.eqb_eq in E. simpl. congruence.
Qed.

Lemma cache_store_fits index game (c : @CursorImpl G) :
  1 <= opt_cacheSize (options c) ->
  cache_fits c -> cache_fits (cache_store index game c).
Proof.
  intros Hsize [Hnd Hlen]. unfold cache_store, evictOldest.
  set (c1 := if Z.of_nat (length (cache c)) >=? opt_cacheSize (options c)
             then set_cache (tail (cache c)) c else c).
  assert (H1 : NoDup (fst <$> cache c1) /\
               Z.of_nat (length (cache c1)) + 1 <= opt_cacheSize (options c) /\
               options c1 = options c).
  { subst c1. destruct (Z.of_nat (length (cache c)) >=? opt_cacheSize (options c)) eqn:E.
    - rewrite Z.geb_leb in E. apply Z.leb_le in E.
      cbn [cache options set_cache]. destruct (cache c) as [|kv l]; [simpl in *; lia|].
      cbn [tail]. rewrite fmap_cons in Hnd. rewrite length_cons, Nat2Z.inj_succ in Hlen.
      apply NoDup_cons in Hnd as [_ Hnd].
      split; [exact Hnd|split; [lia|reflexivity]].
    - rewrite Z.geb_leb in E. apply Z.leb_gt in E.
      split; [exact Hnd|split; [lia|reflexivity]]. }
  clearbody c1. destruct H1 as (Hnd1 & Hlen1 & Hopt).
  destruct (existsb (fun kv => fst kv =? index) (cache c1)) eqn:E; split; simpl.
  - rewrite replace_keys. exact Hnd1.
  - rewrite length_map, Hopt. lia.
  - rewrite fmap_app. apply NoDup_app. split; [exact Hnd1|]. split.
    + intros x Hx Hin. simpl in Hin. apply list_elem_of_singleton in Hin. subst x.
      exact (existsb_key_false _ _ E Hx).
    + simpl. apply NoDup_singleton.
  - rewrite length_app, Hopt. simpl. lia.
Qed.

Lemma cache_fits_static (c c' : @CursorImpl G) :
  cache c' = cache c -> options c' = options c -> cache_fits c -> cache_fits c'.
Proof. unfold cache_fits. intros -> ->. auto. Qed.

Lemma parseGame_fits index c :
  1 <= opt_cacheSize (options c) ->
  cache_fits c -> cache_fits (cursor_of (parseGame index c)).
Proof.
  intros Hsize Hfit. unfold parseGame, call_onError.
  repeat case_match; simplify_eq; simpl; try assumption;
    try (apply cache_store_fits; [assumption|]);
    repeat first [ assumption
                 | eapply cache_fits_static; [reflexivity|reflexivity|] ].
Qed.

Lemma parseGame_options index c : options (cursor_of (parseGame index c)) = options c.
Proof. destruct (parseGame_extends processPgnToGame parse Game_of index c) as (_ & _ & H & _). exact H. Qed.

Lemma prefetch_loop_fits fuel : forall i c,
  1 <= opt_cacheSize (options c) ->
  cache_fits c -> cache_fits (cursor_of (prefetch_loop fuel i c)).
Proof.
  induction fuel as [|fuel IH]; intros i c Hsize Hfit; simpl; [assumption|].
  destruct (i <=? opt_prefetch (options c)); [|assumption].
  destruct (_ && _); [|apply IH; assumption].
  pose proof (parseGame_fits (currentPosition c + i) c Hsize Hfit) as Hp.
  pose proof (parseGame_options (currentPosition c + i) c) as Ho.
  destruct (parseGame (currentPosition c + i) c) as [r c'|e c']; simpl in *.
  - apply IH; [rewrite Ho|]; assumption.
  - assumption.
Qed.


Lemma same_source_refl (c : @CursorImpl G) : same_source c c.
Proof. repeat split. exists []. rewrite app_nil_r. reflexivity. Qed.

Lemma same_source_trans (c1 c2 c3 : @CursorImpl G) :
  same_source c1 c2 -> same_source c2 c3 -> same_source c1 c3.
Proof.
  intros (A1 & A2 & A3 & [l1 A4]) (B1 & B2 & B3 & [l2 B4]).
  repeat split; try congruence.
  exists (l1 ++ l2). rewrite B4, A4, app_assoc. reflexivity.
Qed.

Lemma extends_same_source (c c' : @CursorImpl G) : extends c c' -> same_source c c'.
Proof. intros (A1 & A2 & A3 & _ & A5 & _). repeat split; assumption. Qed.

Lemma same_source_position v (c : @CursorImpl G) : same_source c (set_currentPosition v c).
Proof. repeat split. exists []. simpl. rewrite app_nil_r. reflexivity. Qed.

Lemma prefetch_loop_extends fuel : forall i c,
  extends c (cursor_of (prefetch_loop fuel i c)).
Proof.
  induction fuel as [|fuel IH]; intros i c; simpl; [apply extends_refl|].
  destruct (i <=? opt_prefetch (options c)); [|apply extends_refl].
  destruct (_ && _); [|apply IH].
  pose proof (parseGame_extends processPgnToGame parse Game_of (currentPosition c + i) c) as He.
  destruct (parseGame (currentPosition c + i) c) as [r c'|e c']; simpl in *.
  - eapply extends_trans; [exact He|apply IH].
  - exact He.
Qed.

Lemma cache_get_store_same index game (c : @CursorImpl G) :
  cache_get index (cache_store index game c) = Some game.
Proof.
  unfold cache_store.
  set (c1 := if Z.of_nat (length (cache c)) >=? opt_cacheSize (options c)
             then evictOldest c else c).
  clearbody c1. unfold cache_get.
  destruct (existsb (fun kv => fst kv =? index) (cache c1)) eqn:E; simpl.
  - induction (cache c1) as [|kv l IH]; simpl in *; [discriminate|].
    destruct (fst kv =? index) eqn:Ek; simpl.
    + rewrite Z.eqb_refl. reflexivity.
    + rewrite Ek. apply IH. exact E.
  - induction (cache c1) as [|kv l IH]; simpl in *.
    + rewrite Z.eqb_refl. reflexivity.
    + apply orb_false_iff in E as [Ek E]. rewrite Ek. apply IH. exact E.
Qed.

Lemma hasNext_earlier (c : @CursorImpl G) i j :
  j <= i -> hasNext (set_currentPosition i c) = true ->
  hasNext (set_currentPosition j c) = true.
Proof.
  unfold hasNext. simpl. intros Hji H.
  apply andb_true_iff in H as [H1 H2]. apply Z.ltb_lt in H1, H2.
  apply andb_true_iff. split; apply Z.ltb_lt; lia.
Qed.

Lemma set_currentPosition_same (c : @CursorImpl G) :
  set_currentPosition (currentPosition c) c = c.
Proof. destruct c. reflexivity. Qed.

Lemma hasNext_lookup (c : @CursorImpl G) :
  hasNext c = true -> 0 <= currentPosition c ->
  exists gi, gameIndices c !! Z.to_nat (currentPosition c) = Some gi.
Proof.
  unfold hasNext. intros H Hpos.
  apply andb_true_iff in H as [_ H]. apply Z.ltb_lt in H.
  apply lookup_lt_is_Some. lia.
Qed.

Lemma findNext_loop_skip predicate n : forall fuel c i,
  0 <= currentPosition c -> i = currentPosition c + Z.of_nat n ->
  hasNext (set_currentPosition i c) = true ->
  (forall j gj, currentPosition c <= j < i ->
                gameIndices c !! Z.to_nat j = Some gj -> predicate (headers gj) = false) ->
  findNext_loop (n + fuel) predicate c
    = findNext_loop fuel predicate (set_currentPosition i c).
Proof.
  induction n as [|n IH]; intros fuel c i Hpos Hi Hnext Hskip.
  - replace i with (currentPosition c) by lia.
    rewrite set_currentPosition_same. reflexivity.
  - cbn [Nat.add findNext_loop].
    assert (Hn : hasNext c = true).
    { rewrite <- (set_currentPosition_same c).
      apply (hasNext_earlier c i); [lia|exact Hnext]. }
    rewrite Hn.
    destruct (hasNext_lookup c Hn Hpos) as [gi Hgi].
    assert (Hle : (0 <=? currentPosition c) = true) by (apply Z.leb_le; lia).
    rewrite Hle, Hgi.
    rewrite (Hskip (currentPosition c) gi) by (lia || assumption).
    rewrite (IH fuel (set_currentPosition (currentPosition c + 1) c) i).
    + reflexivity.
    + simpl. lia.
    + simpl. lia.
    + exact Hnext.
    + simpl. intros j gj Hj. apply Hskip. lia.
Qed.

Lemma findNext_loop_exhausts predicate fuel : forall c,
  0 <= currentPosition c ->
  Z.of_nat (length (gameIndices c)) - currentPosition c < Z.of_nat fuel ->
  (forall j gj, currentPosition c <= j ->
                hasNext (set_currentPosition j c) = true ->
                gameIndices c !! Z.to_nat j = Some gj -> predicate (headers gj) = false) ->
  exists p, findNext_loop fuel predicate c = Returns None (set_currentPosition p c) /\
            hasNext (set_currentPosition p c) = false /\ currentPosition c <= p.
Proof.
  induction fuel as [|fuel IH]; intros c Hpos Hfuel Hnone.
  - exists (currentPosition c). rewrite set_currentPosition_same.
    split; [reflexivity|]. split; [|lia].
    unfold hasNext. apply andb_false_iff. right. apply Z.ltb_ge.
    simpl in Hfuel. lia.
  - cbn [findNext_loop]. destruct (hasNext c) eqn:Hn.
    + destruct (hasNext_lookup c Hn Hpos) as [gi Hgi].
      assert (Hle : (0 <=? currentPosition c) = true) by (apply Z.leb_le; lia).
      rewrite Hle, Hgi.
      rewrite (Hnone (currentPosition c) gi);
        [|lia|rewrite set_currentPosition_same; exact Hn|exact Hgi].
      destruct (IH (set_currentPosition (currentPosition c + 1) c)) as (p & Hp & Hend & Hge).
      * simpl. lia.
      * simpl. lia.
      * simpl. intros j gj Hj. apply Hnone. lia.
      * exists p. simpl in *. split; [exact Hp|]. split; [exact Hend|lia].
    + exists (currentPosition c). rewrite set_currentPosition_same.
      split; [reflexivity|]. split; [exact Hn|lia].
Qed.

Lemma prefetch_loop_keeps_miss fuel : forall i c u c',
  1 <= i -> cache_get (currentPosition c) c = None ->
  prefetch_loop fuel i c = Returns u c' ->
  cache_get (currentPosition c) c' = None.
Proof.
  induction fuel as [|fuel IH]; intros i c u c' Hi Hc H; simpl in H.
  - inversion H; subst. exact Hc.
  - destruct (i <=? opt_prefetch (options c)); [|inversion H; subst; exact Hc].
    destruct (_ && _).
    + pose proof (parseGame_extends processPgnToGame parse Game_of
                    (currentPosition c + i) c) as He.
      destruct (parseGame (currentPosition c + i) c) as [r c1|e c1] eqn:Hp;
        [|discriminate H].
      simpl in He. destruct He as (_ & _ & _ & Hcp & _).
      rewrite <- Hcp. apply (IH (i + 1) c1 u c'); [lia| |exact H].
      rewrite Hcp.
      eapply parseGame_keeps_miss; [exact Hp|exact Hc|lia].
    + apply (IH (i + 1) c u c'); [lia|exact Hc|exact H].
Qed.

(** In non-strict mode an error escapes [parseGame] at an index of the
    list only from the [onError] callback. *)
Lemma parseGame_nonstrict_throws index c :
  opt_strict (options c) = false ->
  0 <= index < Z.of_nat (length (gameIndices c)) ->
  forall thrown c', parseGame index c = Throws thrown c' ->
  exists e i, opt_onError (options c) e i = Some thrown /\
              last (onError_calls c') = Some (e, i).
Proof.
  intros Hs Hi thrown c'. unfold parseGame, call_onError.
  assert (Hl : is_Some (gameIndices c !! Z.to_nat index)).
  { apply lookup_lt_is_Some. lia. }
  destruct Hl as [gi Hl]. rewrite Hl.
  assert (Hle : (0 <=? index) = true) by (apply Z.leb_le; lia). rewrite Hle.
  cbv zeta. simpl. rewrite Hs.
  repeat case_match; intros Hthrown; simplify_eq.
  do 2 eexists. split; [eassumption|]. simpl. apply last_snoc.
Qed.

Lemma prefetch_loop_nonstrict_throws fuel : forall i c,
  opt_strict (options c) = false -> 0 <= currentPosition c -> 0 <= i ->
  forall thrown c', prefetch_loop fuel i c = Throws thrown c' ->
  exists e j, opt_onError (options c) e j = Some thrown /\
              last (onError_calls c') = Some (e, j).
Proof.
  induction fuel as [|fuel IH]; intros i c Hs Hpos Hi thrown c'; simpl; [discriminate|].
  destruct (i <=? opt_prefetch (options c)); [|discriminate].
  destruct ((currentPosition c + i <? Z.of_nat (length (gameIndices c)))
            && negb (bool_decide (is_Some (cache_get (currentPosition c + i) c)))) eqn:E.
  - apply andb_true_iff in E as [E _]. apply Z.ltb_lt in E.
    pose proof (parseGame_nonstrict_throws (currentPosition c + i) c Hs ltac:(lia)) as Ht.
    pose proof (parseGame_extends processPgnToGame parse Game_of
                  (currentPosition c + i) c) as He.
    destruct (parseGame (currentPosition c + i) c) as [r c1|e1 c1].
    + simpl in He. destruct He as (_ & _ & Ho & Hcp & _).
      intros H.
      assert (Hs1 : opt_strict (options c1) = false) by (rewrite Ho; exact Hs).
      destruct (IH (i + 1) c1 Hs1 ltac:(lia) ltac:(lia) thrown c' H)
        as (e & j & H1 & H2).
      exists e, j. rewrite <- Ho. auto.
    + intros H. inversion H; subst. apply Ht. reflexivity.
  - apply IH; [assumption|assumption|lia].
Qed.

End CursorNavigationFacts.

(** X4: with a cache size of at least one, [next()] and [before()] keep
    the cache within bounds: if it held at most [cacheSize] games, one per
    index, it still does afterwards, whether the call returns or throws. *)
Theorem cache_stays_within_cacheSize {G Root : Type}
    (processPgnToGame : string -> bool -> G + JsError)
    (parse : string -> Root + JsError)
    (Game_of : gmap string string -> Root -> G + JsError)
    (c : @CursorImpl G) :
  1 <= opt_cacheSize (options c) ->
  cache_fits c ->
  cache_fits (cursor_of (next processPgnToGame parse Game_of c)) /\
  cache_fits (cursor_of (before processPgnToGame parse Game_of c)).
Proof.
  intros Hsize Hfit. split.
  - unfold next. destruct (negb (hasNext c)); [exact Hfit|].
    pose proof (parseGame_fits processPgnToGame parse Game_of (currentPosition c) c
                  Hsize Hfit) as Hp.
    pose proof (parseGame_options processPgnToGame parse Game_of (currentPosition c) c)
      as Ho.
    destruct (parseGame processPgnToGame parse Game_of (currentPosition c) c)
      as [r c1|e c1]; simpl in Hp, Ho; [|exact Hp].
    set (c2 := set_currentPosition (currentPosition c1 + 1) c1).
    assert (Hfit2 : cache_fits c2) by exact Hp.
    assert (Hsize2 : 1 <= opt_cacheSize (options c2)) by (simpl; rewrite Ho; exact Hsize).
    destruct (0 <? opt_prefetch (options c2)); [|exact Hfit2].
    pose proof (prefetch_loop_fits processPgnToGame parse Game_of
                  (Z.to_nat (opt_prefetch (options c2))) 1 c2 Hsize2 Hfit2) as Hpre.
    unfold prefetchGames.
    destruct (prefetch_loop processPgnToGame parse Game_of _ 1 c2); exact Hpre.
  - unfold before. destruct (negb (hasBefore c)); [exact Hfit|].
    cbv zeta. apply parseGame_fits; [exact Hsize|exact Hfit].
Qed.

Lemma cache_stays_within_cacheSize_witness :
  cache_fits (cursor_of (next failing_process ok_parse text_game three_game_cursor)) /\
  cache_fits (cursor_of (before failing_process ok_parse text_game three_game_cursor)).
Proof.
  apply (cache_stays_within_cacheSize failing_process ok_parse text_game three_game_cursor).
  - apply Z.leb_le. vm_compute. reflexivity.
  - split; [apply NoDup_nil_2|apply Z.leb_le; vm_compute; reflexivity].
Defined.

(** X5: in non-strict mode [next()] throws nothing of its own.  From any
    position that is not negative it returns a game or null whenever the
    [onError] callback returns; and an error that escapes [next()] is one
    that the callback threw, in the last call made to it. *)
Theorem next_nonstrict_returns {G Root : Type}
    (processPgnToGame : string -> bool -> G + JsError)
    (parse : string -> Root + JsError)
    (Game_of : gmap string string -> Root -> G + JsError)
    (c : @CursorImpl G) :
  opt_strict (options c) = false ->
  0 <= currentPosition c ->
  ((forall e i, opt_onError (options c) e i = None) ->
   exists r c', next processPgnToGame parse Game_of c = Returns r c') /\
  (forall thrown c',
     next processPgnToGame parse Game_of c = Throws thrown c' ->
     exists e i, opt_onError (options c) e i = Some thrown /\
                 last (onError_calls c') = Some (e, i)).
Proof.
  intros Hs Hpos.
  assert (Hthrow : forall thrown c',
            next processPgnToGame parse Game_of c = Throws thrown c' ->
            exists e i, opt_onError (options c) e i = Some thrown /\
                        last (onError_calls c') = Some (e, i)).
  { intros thrown c'. unfold next. destruct (hasNext c) eqn:Hn; simpl; [|discriminate].
    assert (Hlt : currentPosition c < Z.of_nat (length (gameIndices c))).
    { unfold hasNext in Hn. apply andb_true_iff in Hn as [_ Hn]. apply Z.ltb_lt. exact Hn. }
    pose proof (parseGame_nonstrict_throws processPgnToGame parse Game_of
                  (currentPosition c) c Hs ltac:(lia)) as Ht.
    pose proof (parseGame_extends processPgnToGame parse Game_of (currentPosition c) c) as He.
    destruct (parseGame processPgnToGame parse Game_of (currentPosition c) c)
      as [r c1|e1 c1].
    - simpl in He. destruct He as (_ & _ & Ho & Hcp & _).
      set (c2 := set_currentPosition (currentPosition c1 + 1) c1).
      change (options c1) with (options c2).
      destruct (0 <? opt_prefetch (options c2)); [|discriminate].
      unfold prefetchGames.
      pose proof (prefetch_loop_nonstrict_throws processPgnToGame parse Game_of
                    (Z.to_nat (opt_prefetch (options c2))) 1 c2) as Hpre.
      destruct (prefetch_loop processPgnToGame parse Game_of _ 1 c2) as [u c3|e3 c3];
        [discriminate|].
      intros H. inversion H; subst.
      assert (Hs2 : opt_strict (options c2) = false) by (simpl; rewrite Ho; exact Hs).
      assert (Hpos2 : 0 <= currentPosition c2) by (simpl; lia).
      destruct (Hpre Hs2 Hpos2 ltac:(lia) thrown c' eq_refl) as (e & i & H1 & H2).
      exists e, i. split; [|exact H2]. simpl in H1. rewrite Ho in H1. exact H1.
    - intros H. inversion H; subst. apply Ht. reflexivity. }
  split; [|exact Hthrow].
  intros Hcb.
  destruct (next processPgnToGame parse Game_of c) as [r c'|thrown c'] eqn:E;
    [eauto|].
  destruct (Hthrow thrown c' eq_refl) as (e & i & H1 & _).
  rewrite Hcb in H1. discriminate.
Qed.

Lemma next_nonstrict_returns_witness :
  exists r c', next failing_process failing_parse text_game three_game_cursor
               = Returns r c'.
Proof.
  apply (next_nonstrict_returns failing_process failing_parse text_game three_game_cursor).
  - vm_compute. reflexivity.
  - apply Z.leb_le. vm_compute. reflexivity.
  - intros e i. reflexivity.
Defined.

(** X6: [next()], whether it returns or throws, never changes the PGN
    text, the game index or the options; the error log only grows; and the
    position stays or moves on by exactly one. *)
Theorem next_keeps_source {G Root : Type}
    (processPgnToGame : string -> bool -> G + JsError)
    (parse : string -> Root + JsError)
    (Game_of : gmap string string -> Root -> G + JsError)
    (c : @CursorImpl G) :
  same_source c (cursor_of (next processPgnToGame parse Game_of c)) /\
  (currentPosition (cursor_of (next processPgnToGame parse Game_of c))
     = currentPosition c \/
   currentPosition (cursor_of (next processPgnToGame parse Game_of c))
     = currentPosition c + 1).
Proof.
  unfold next. destruct (negb (hasNext c)); [split; [apply same_source_refl|left; reflexivity]|].
  pose proof (parseGame_extends processPgnToGame parse Game_of (currentPosition c) c) as He.
  destruct (parseGame processPgnToGame parse Game_of (currentPosition c) c)
    as [r c1|e c1]; simpl in He.
  - set (c2 := set_currentPosition (currentPosition c1 + 1) c1).
    assert (H2 : same_source c c2 /\ currentPosition c2 = currentPosition c + 1).
    { split.
      - eapply same_source_trans; [apply extends_same_source; exact He|].
        apply same_source_position.
      - destruct He as (_ & _ & _ & Hp & _). simpl. rewrite Hp. reflexivity. }
    destruct H2 as [Hs Hp].
    destruct (0 <? opt_prefetch (options c2)); [|simpl; auto].
    pose proof (prefetch_loop_extends processPgnToGame parse Game_of
                  (Z.to_nat (opt_prefetch (options c2))) 1 c2) as Hx.
    unfold prefetchGames.
    destruct (prefetch_loop processPgnToGame parse Game_of _ 1 c2) as [u c3|e c3];
      simpl in *.
    + split; [eapply same_source_trans; [exact Hs|apply extends_same_source; exact Hx]|].
      right. destruct Hx as (_ & _ & _ & Hp3 & _). rewrite Hp3. exact Hp.
    + split; [eapply same_source_trans; [exact Hs|apply extends_same_source; exact Hx]|].
      right. destruct Hx as (_ & _ & _ & Hp3 & _). rewrite Hp3. exact Hp.
  - simpl. split; [apply extends_same_source; exact He|].
    left. destruct He as (_ & _ & _ & Hp & _). exact Hp.
Qed.

(** X7: a game that [parseGame] has returned is in the cache: the next
    access to the same index returns the same game and leaves the cursor
    as it is, whatever the parsers would now answer. *)
Theorem parsed_game_is_served_again {G Root Root' : Type}
    (processPgnToGame processPgnToGame' : string -> bool -> G + JsError)
    (parse : string -> Root + JsError) (parse' : string -> Root' + JsError)
    (Game_of : gmap string string -> Root -> G + JsError)
    (Game_of' : gmap string string -> Root' -> G + JsError)
    index (c c' : @CursorImpl G) game :
  parseGame processPgnToGame parse Game_of index c = Returns (Some game) c' ->
  parseGame processPgnToGame' parse' Game_of' index c' = Returns (Some game) c'.
Proof.
  intros H.
  assert (Hc : cache_get index c' = Some game).
  { unfold parseGame in H.
    repeat case_match; inversion H; subst; clear H;
      first [ assumption | apply cache_get_store_same ]. }
  unfold parseGame. rewrite Hc. reflexivity.
Qed.

Lemma parsed_game_is_served_again_witness :
  exists game c',
    parseGame failing_process ok_parse text_game 0 three_game_cursor
      = Returns (Some game) c' /\
    parseGame failing_process failing_parse text_game 0 c' = Returns (Some game) c'.
Proof.
  do 2 eexists. split; [vm_compute; reflexivity|].
  apply (parsed_game_is_served_again failing_process failing_process
           ok_parse failing_parse text_game text_game 0 three_game_cursor).
  vm_compute. reflexivity.
Defined.

(** X8: [next()] never prefetches the game that the following call of
    [next()] is going to return: its prefetch starts one position further
    on.  If the game behind the current one was not in the cache before a
    call of [next()] that returns, it is not in the cache after it. *)
Theorem next_skips_following_game {G Root : Type}
    (processPgnToGame : string -> bool -> G + JsError)
    (parse : string -> Root + JsError)
    (Game_of : gmap string string -> Root -> G + JsError)
    (c c' : @CursorImpl G) r :
  cache_get (currentPosition c + 1) c = None ->
  next processPgnToGame parse Game_of c = Returns r c' ->
  cache_get (currentPosition c + 1) c' = None.
Proof.
  intros Hc H. unfold next in H.
  destruct (negb (hasNext c)); [inversion H; subst; exact Hc|].
  pose proof (parseGame_extends processPgnToGame parse Game_of (currentPosition c) c) as He.
  destruct (parseGame processPgnToGame parse Game_of (currentPosition c) c)
    as [r1 c1|e c1] eqn:Hp; [|discriminate H].
  simpl in He. destruct He as (_ & _ & _ & Hcp & _).
  assert (H1 : cache_get (currentPosition c + 1) c1 = None).
  { eapply parseGame_keeps_miss; [exact Hp|exact Hc|lia]. }
  set (c2 := set_currentPosition (currentPosition c1 + 1) c1) in *.
  assert (H2 : cache_get (currentPosition c2) c2 = None).
  { subst c2. simpl. rewrite Hcp. exact H1. }
  assert (Hpos2 : currentPosition c2 = currentPosition c + 1).
  { subst c2. simpl. rewrite Hcp. reflexivity. }
  destruct (0 <? opt_prefetch (options c2)).
  - unfold prefetchGames in H.
    destruct (prefetch_loop processPgnToGame parse Game_of _ 1 c2) as [u c3|e c3] eqn:H3;
      [|discriminate H].
    inversion H; subst r c'. rewrite <- Hpos2.
    eapply prefetch_loop_keeps_miss; [|exact H2|exact H3]. lia.
  - inversion H; subst r c'. rewrite <- Hpos2. exact H2.
Qed.

Lemma next_skips_following_game_witness :
  exists r c',
    next failing_process ok_parse text_game three_game_cursor = Returns r c' /\
    cache_get (currentPosition three_game_cursor + 1) c' = None.
Proof.
  do 2 eexists. split; [vm_compute; reflexivity|].
  eapply (next_skips_following_game failing_process ok_parse text_game three_game_cursor).
  - vm_compute. reflexivity.
  - vm_compute. reflexivity.
Defined.

(** X9: in strict mode a game that parses neither way two positions
    ahead makes [next()] throw during its prefetch, although the game at
    the current position has parsed: the fallback error escapes, the
    position has moved on by one, and the parsed game is not handed
    out. *)
Theorem strict_prefetch_failure_escapes {G Root : Type}
    (processPgnToGame : string -> bool -> G + JsError)
    (parse : string -> Root + JsError)
    (Game_of : gmap string string -> Root -> G + JsError)
    (c c1 : @CursorImpl G) game e1 e2 :
  opt_strict (options c) = true ->
  1 <= opt_prefetch (options c) ->
  hasNext c = true ->
  parseGame processPgnToGame parse Game_of (currentPosition c) c = Returns game c1 ->
  fails processPgnToGame parse Game_of (currentPosition c + 2) c e1 e2 ->
  cache_get (currentPosition c + 2) c = None ->
  exists c2,
    next processPgnToGame parse Game_of c = Throws e2 c2 /\
    currentPosition c2 = currentPosition c + 1.
Proof.
  intros Hs Hpre Hn Hp Hf Hc.
  pose proof (parseGame_extends processPgnToGame parse Game_of (currentPosition c) c) as He.
  rewrite Hp in He. simpl in He. destruct He as (A1 & A2 & A3 & A4 & _).
  set (c1' := set_currentPosition (currentPosition c1 + 1) c1).
  assert (Hf' : fails processPgnToGame parse Game_of (currentPosition c + 2) c1' e1 e2).
  { eapply fails_static; [| | |exact Hf]; assumption. }
  assert (Hc' : cache_get (currentPosition c + 2) c1' = None).
  { change (cache_get (currentPosition c + 2) c1 = None).
    eapply parseGame_keeps_miss; [exact Hp|exact Hc|lia]. }
  pose proof (parseGame_fails processPgnToGame parse Game_of _ c1' e1 e2 Hf' Hc') as Hpf.
  assert (Hs' : opt_strict (options c1') = true) by (simpl; rewrite A3; exact Hs).
  rewrite Hs' in Hpf.
  assert (Hpre' : opt_prefetch (options c1') = opt_prefetch (options c))
    by (simpl; rewrite A3; reflexivity).
  eexists. split.
  - unfold next. rewrite Hn, Hp. simpl negb. cbv iota zeta. fold c1'.
    rewrite Hpre'.
    assert (Hlt : (0 <? opt_prefetch (options c)) = true) by (apply Z.ltb_lt; lia).
    rewrite Hlt. unfold prefetchGames. rewrite Hpre'.
    destruct (Z.to_nat (opt_prefetch (options c))) as [|fuel] eqn:Hfuel; [lia|].
    cbn [prefetch_loop]. rewrite Hpre'.
    assert (Hle : (1 <=? opt_prefetch (options c)) = true) by (apply Z.leb_le; lia).
    rewrite Hle.
    assert (Hidx : currentPosition c1' + 1 = currentPosition c + 2) by (simpl; lia).
    rewrite Hidx.
    assert (Hin : (currentPosition c + 2 <? Z.of_nat (length (gameIndices c1'))) = true).
    { destruct Hf' as (Hi & gi & Hl & _). apply Z.ltb_lt.
      apply lookup_lt_Some in Hl. lia. }
    rewrite Hin, Hc'. simpl. rewrite Hpf. reflexivity.
  - simpl. lia.
Qed.

Lemma strict_prefetch_failure_escapes_witness :
  exists c2,
    next picky_process failing_parse text_game three_game_strict_cursor
      = Throws (mkJsError "Expected tag pair" None) c2 /\
    currentPosition c2 = currentPosition three_game_strict_cursor + 1.
Proof.
  eapply (strict_prefetch_failure_escapes picky_process failing_parse text_game
            three_game_strict_cursor _ _ move_error).
  - vm_compute. reflexivity.
  - apply Z.leb_le. vm_compute. reflexivity.
  - vm_compute. reflexivity.
  - vm_compute. reflexivity.
  - split; [apply Z.leb_le; vm_compute; reflexivity|].
    eexists. split; [vm_compute; reflexivity|]. split; vm_compute; reflexivity.
  - vm_compute. reflexivity.
Defined.

(** X10: [findNext(predicate)] skips the games whose indexed headers
    fail the predicate and hands the first one that passes to [next()]:
    from a position that is not negative, if entry [i] is inside the
    window and the list, passes the predicate, and every entry from the
    position up to [i] fails it, the result is that of [next()] with the
    position at [i]. *)
Theorem findNext_first_match {G Root : Type}
    (processPgnToGame : string -> bool -> G + JsError)
    (parse : string -> Root + JsError)
    (Game_of : gmap string string -> Root -> G + JsError)
    (predicate : gmap string string -> bool) (c : @CursorImpl G) i gi :
  0 <= currentPosition c <= i ->
  hasNext (set_currentPosition i c) = true ->
  gameIndices c !! Z.to_nat i = Some gi ->
  predicate (headers gi) = true ->
  (forall j gj, currentPosition c <= j < i ->
                gameIndices c !! Z.to_nat j = Some gj -> predicate (headers gj) = false) ->
  findNext processPgnToGame parse Game_of predicate c
    = next processPgnToGame parse Game_of (set_currentPosition i c).
Proof.
  intros Hpos Hn Hgi Hpass Hskip. unfold findNext.
  assert (Hlt : i < Z.of_nat (length (gameIndices c))).
  { apply lookup_lt_Some in Hgi. lia. }
  set (n := Z.to_nat (i - currentPosition c)).
  replace (S (length (gameIndices c)))
    with (n + S (length (gameIndices c) - n))%nat by lia.
  rewrite (findNext_loop_skip processPgnToGame parse Game_of predicate n _ c i);
    [|lia|lia|exact Hn|exact Hskip].
  cbn [findNext_loop]. rewrite Hn. simpl currentPosition.
  assert (Hle : (0 <=? i) = true) by (apply Z.leb_le; lia).
  rewrite Hle. simpl gameIndices. rewrite Hgi, Hpass. reflexivity.
Qed.

Lemma findNext_first_match_witness :
  findNext failing_process ok_parse text_game (event_is "C") three_game_cursor
    = next failing_process ok_parse text_game (set_currentPosition 2 three_game_cursor).
Proof.
  eapply (findNext_first_match failing_process ok_parse text_game (event_is "C")
            three_game_cursor 2).
  - split; apply Z.leb_le; vm_compute; reflexivity.
  - vm_compute. reflexivity.
  - vm_compute. reflexivity.
  - vm_compute. reflexivity.
  - intros j gj Hj.
    assert (Hc : j = 0 \/ j = 1) by (change (currentPosition three_game_cursor) with 0 in Hj; lia).
    destruct Hc as [-> | ->]; intros H; vm_compute in H; injection H as <-; reflexivity.
Defined.

(** X11: when no entry from the position on passes the predicate,
    [findNext] returns null and leaves the cursor exhausted: only the
    position has changed, and [hasNext()] is false. *)
Theorem findNext_no_match {G Root : Type}
    (processPgnToGame : string -> bool -> G + JsError)
    (parse : string -> Root + JsError)
    (Game_of : gmap string string -> Root -> G + JsError)
    (predicate : gmap string string -> bool) (c : @CursorImpl G) :
  0 <= currentPosition c ->
  (forall j gj, currentPosition c <= j ->
                hasNext (set_currentPosition j c) = true ->
                gameIndices c !! Z.to_nat j = Some gj -> predicate (headers gj) = false) ->
  exists p,
    findNext processPgnToGame parse Game_of predicate c
      = Returns None (set_currentPosition p c) /\
    hasNext (set_currentPosition p c) = false /\
    currentPosition c <= p.
Proof.
  intros Hpos Hnone. unfold findNext.
  apply findNext_loop_exhausts; [exact Hpos| |exact Hnone].
  rewrite Nat2Z.inj_succ. lia.
Qed.

Lemma findNext_no_match_witness :
  exists p,
    findNext failing_process ok_parse text_game (event_is "D") three_game_cursor
      = Returns None (set_currentPosition p three_game_cursor) /\
    hasNext (set_currentPosition p three_game_cursor) = false /\
    currentPosition three_game_cursor <= p.
Proof.
  apply (findNext_no_match failing_process ok_parse text_game (event_is "D")
           three_game_cursor).
  - apply Z.leb_le. vm_compute. reflexivity.
  - intros j gj Hj Hn.
    assert (Hc : j = 0 \/ j = 1 \/ j = 2).
    { change (currentPosition three_game_cursor) with 0 in Hj.
      unfold hasNext in Hn. apply andb_true_iff in Hn as [_ Hn].
      apply Z.ltb_lt in Hn. simpl currentPosition in Hn.
      change (Z.of_nat (length (gameIndices (set_currentPosition j three_game_cursor))))
        with 3 in Hn. lia. }
    destruct Hc as [-> | [-> | ->]]; intros H; vm_compute in H; injection H as <-; reflexivity.
Defined.

(** *** What the generator collects and what the legality filter keeps *)

Lemma pawn_step_window :
  forallb (fun x =>
             off_board x || negb ((16 <=? x) && (x <? 112))
             || (negb (off_board (x + 16)) && negb (off_board (x - 16))
                 && (negb (rank x =? 6) || negb (off_board (x - 32)))
                 && (negb (rank x =? 1) || negb (off_board (x + 32)))))
          (seqZ 0 128) = true.
Proof. vm_compute. reflexivity. Qed.

Lemma pawn_step_on_board x :
  on_board x -> 16 <= x < 112 ->
  off_board (x + 16) = false /\ off_board (x - 16) = false /\
  (rank x = 6 -> off_board (x - 32) = false) /\
  (rank x = 1 -> off_board (x + 32) = false).
Proof.
  intros [Hx Hoff] Hr.
  assert (Hin : In x (seqZ 0 128)).
  { apply list_elem_of_In, elem_of_seqZ. lia. }
  pose proof (proj1 (forallb_forall _ _) pawn_step_window x Hin) as H.
  cbv beta in H. rewrite Hoff in H.
  assert (E : (16 <=? x) && (x <? 112) = true).
  { apply andb_true_iff. split; [apply Z.leb_le|apply Z.ltb_lt]; lia. }
  rewrite E in H. simpl in H.
  repeat (apply andb_true_iff in H as [H ?]).
  apply negb_true_iff in H.
  repeat split.
  - assumption.
  - match goal with H : negb (off_board (x - 16)) = true |- _ =>
      apply negb_true_iff in H; exact H end.
  - intros Hk. apply Z.eqb_eq in Hk.
    match goal with H : negb (rank x =? 6) || _ = true |- _ =>
      rewrite Hk in H; simpl in H; apply negb_true_iff in H; exact H end.
  - intros Hk. apply Z.eqb_eq in Hk.
    match goal with H : negb (rank x =? 1) || _ = true |- _ =>
      rewrite Hk in H; simpl in H; apply negb_true_iff in H; exact H end.
Qed.

Lemma addMove_to us from to piece cap base m :
  In m (addMove us from to piece cap base) -> m_to m = to.
Proof.
  intros H. apply addMove_recorded in H as (promo & flags & -> & _). reflexivity.
Qed.

Section Shape.
Context (g : Game) (Hwf : WF g).

Lemma slide_on_board fuel b us type from offset m : forall to,
  In m (slide fuel b us type from to offset) -> off_board (m_to m) = false.
Proof.
  induction fuel as [|fuel IH]; intros to; simpl; [intros []|].
  destruct (off_board (to + offset)) eqn:Eoff; [intros []|].
  destruct (b !! (to + offset)) as [p|].
  - destruct (bool_decide (pcolor p = us)); [intros []|].
    intros H. apply addMove_to in H. rewrite H. exact Eoff.
  - intros H. apply in_app_or in H as [H|H].
    + apply addMove_to in H. rewrite H. exact Eoff.
    + destruct (bool_decide (type = KNIGHT) || bool_decide (type = KING)); [destruct H|].
      eapply IH. exact H.
Qed.

Lemma pawn_pushes_on_board from m :
  _board g !! from = Some (mkPiece PAWN (_turn g)) ->
  In m (pawn_pushes g (_turn g) from) -> off_board (m_to m) = false.
Proof.
  intros Hfrom.
  pose proof (wf_pawns g Hwf _ _ Hfrom) as Hr.
  pose proof (wf_board g Hwf _ _ Hfrom) as Hb.
  destruct (pawn_step_on_board from Hb Hr) as (Hd & Hu & Hu2 & Hd2).
  unfold pawn_pushes.
  destruct (_board g !! (from + nth 0 (PAWN_OFFSETS (_turn g)) 0)); [intros []|].
  intros H. apply in_app_or in H as [H|H].
  - apply addMove_to in H. rewrite H. destruct (_turn g); simpl; assumption.
  - destruct (SECOND_RANK (_turn g) =? rank from) eqn:Er; [|destruct H].
    destruct (bool_decide _); [|destruct H]. simpl in H.
    apply addMove_to in H. rewrite H. apply Z.eqb_eq in Er.
    destruct (_turn g); simpl in *; [apply Hu2|apply Hd2]; congruence.
Qed.

Lemma pawn_capture_on_board us them from j m :
  In m (pawn_capture g us them from j) -> off_board (m_to m) = false.
Proof.
  unfold pawn_capture.
  destruct (off_board (from + nth j (PAWN_OFFSETS us) 0)) eqn:Eoff; [intros []|].
  intros H.
  assert (Hto : m_to m = from + nth j (PAWN_OFFSETS us) 0).
  { repeat case_match; try (destruct H; fail); eapply addMove_to; exact H. }
  rewrite Hto. exact Eoff.
Qed.

Lemma moves_from_on_board forPiece from m :
  In m (moves_from g forPiece from) -> off_board (m_to m) = false.
Proof.
  unfold moves_from.
  destruct (_board g !! from) as [[ty co]|] eqn:Efrom; [|intros []].
  simpl.
  destruct (bool_decide (co = swapColor (_turn g))) eqn:Ec; [intros []|].
  apply bool_decide_eq_false in Ec.
  assert (co = _turn g) as -> by (destruct co, (_turn g); simpl in *; congruence).
  destruct (skips_piece forPiece ty); [intros []|].
  assert (Hslide :
            In m (flat_map (fun offset => slide 8 (_board g) (_turn g) ty from from offset)
                           (PIECE_OFFSETS ty)) -> off_board (m_to m) = false).
  { intros Hin. apply in_flat_map in Hin as (o & _ & Hin).
    eapply slide_on_board. exact Hin. }
  destruct ty; cbv iota; [|exact Hslide ..].
  intros Hin. apply in_app_or in Hin as [Hin|Hin].
  - eapply pawn_pushes_on_board; eassumption.
  - apply in_app_or in Hin as [Hin|Hin]; eapply pawn_capture_on_board; eassumption.
Qed.

Lemma castling_moves_on_board m :
  In m (castling_moves g) -> off_board (m_to m) = false.
Proof.
  unfold castling_moves. cbv zeta. intros Hin. apply in_app_or in Hin as [Hin|Hin].
  - destruct (has (pc_get (_castling g) (_turn g)) BITS.KSIDE_CASTLE) eqn:Eh; [|destruct Hin].
    apply has_nonzero in Eh. destruct (wf_castling g Hwf _ Eh) as [Hk _].
    rewrite Hk in Hin.
    match type of Hin with
    | In _ (if ?c then _ else _) => destruct c; [|destruct Hin]
    end.
    apply addMove_to in Hin. rewrite Hin. destruct (_turn g); reflexivity.
  - destruct (has (pc_get (_castling g) (_turn g)) BITS.QSIDE_CASTLE) eqn:Eh; [|destruct Hin].
    apply has_nonzero in Eh. destruct (wf_castling g Hwf _ Eh) as [Hk _].
    rewrite Hk in Hin.
    match type of Hin with
    | In _ (if ?c then _ else _) => destruct c; [|destruct Hin]
    end.
    apply addMove_to in Hin. rewrite Hin. destruct (_turn g); reflexivity.
Qed.

Lemma pseudo_moves_on_board piece square m :
  In m (pseudo_moves g piece square) -> off_board (m_to m) = false.
Proof.
  unfold pseudo_moves.
  set (forPiece := toLowerCase <$> piece).
  assert (Hscan : forall squares single last,
    In m (flat_map (moves_from g forPiece) squares
          ++ (if bool_decide (forPiece = None) || bool_decide (forPiece = Some (symbol KING))
              then if negb single || (last =? pc_get (_kings g) (_turn g))
                   then castling_moves g else []
              else [])) -> off_board (m_to m) = false).
  { intros squares single last Hin. apply in_app_or in Hin as [Hin|Hin].
    - apply in_flat_map in Hin as (sq & _ & Hin). eapply moves_from_on_board; eassumption.
    - destruct (bool_decide (forPiece = None) || bool_decide (forPiece = Some (symbol KING)));
        [|destruct Hin].
      destruct (negb single || (last =? pc_get (_kings g) (_turn g))); [|destruct Hin].
      apply castling_moves_on_board; assumption. }
  destruct square as [sq|]; [|apply Hscan].
  destruct (String.eqb sq EmptyString); [apply Hscan|].
  destruct (Ox88_of (toLowerCase sq)); [apply Hscan|intros []].
Qed.

Lemma generated_shape m :
  generated g m ->
  m_color m = _turn g /\
  _board g !! m_from m = Some (mkPiece (m_piece m) (_turn g)) /\
  0 <= m_to m < 128 /\
  (_board g !! m_to m = None \/
   exists t, _board g !! m_to m = Some (mkPiece t (swapColor (_turn g))) /\
             m_captured m = Some t).
Proof.
  intros H. destruct H; simpl.
  - split; [reflexivity|]. split; [assumption|]. split; [lia|]. left. assumption.
  - split; [reflexivity|]. split; [assumption|]. split.
    + match goal with H : _board g !! to = Some _ |- _ =>
        destruct (wf_board g Hwf _ _ H) as [? _]; lia end.
    + right. eexists. split; [eassumption|reflexivity].
  - split; [reflexivity|]. split; [assumption|]. split; [lia|]. left. assumption.
  - subst king. split; [reflexivity|]. split; [assumption|]. split.
    + unfold home_king, Ox88.e1, Ox88.e8. destruct (_turn g); lia.
    + left. assumption.
  - subst king. split; [reflexivity|]. split; [assumption|]. split.
    + unfold home_king, Ox88.e1, Ox88.e8. destruct (_turn g); lia.
    + left. assumption.
Qed.

End Shape.

Section LegalFilter.
Context (K : Zobrist).

Lemma filter_legal_spec g us ms :
  WF g -> (forall m, In m ms -> generated g m) ->
  exists legal,
    runs (filter_legal K us ms) g legal g /\
    (forall m, In m legal <->
               In m ms /\
               exists g2, _makeMove K m g = Ok tt g2 /\ _isKingAttacked g2 us = false).
Proof.
  intros Hwf. induction ms as [|m rest IH]; intros Hgen.
  - exists []. split; [reflexivity|]. intros m. simpl. tauto.
  - destruct (make_unmake K g m Hwf (Hgen m (or_introl eq_refl))) as (g2 & Hmake & Hundo).
    destruct IH as (legal & Hrun & Hspec); [intros; apply Hgen; right; assumption|].
    exists (if _isKingAttacked g2 us then legal else m :: legal). split.
    + cbn [filter_legal].
      eapply runs_bind; [exact Hmake|].
      eapply runs_bind; [apply runs_gets|].
      eapply runs_bind; [exact Hundo|].
      eapply runs_bind; [exact Hrun|].
      apply runs_ret.
    + intros m'. unfold runs in Hmake. split.
      * intros Hin. destruct (_isKingAttacked g2 us) eqn:Ea.
        -- apply Hspec in Hin as [Hin Hsafe]. split; [right; exact Hin|exact Hsafe].
        -- destruct Hin as [<-|Hin].
           ++ split; [left; reflexivity|]. exists g2. split; assumption.
           ++ apply Hspec in Hin as [Hin Hsafe]. split; [right; exact Hin|exact Hsafe].
      * intros [[<-|Hin] (g2' & Hm & Hsafe)].
        -- rewrite Hmake in Hm. inversion Hm; subst g2'. rewrite Hsafe. left. reflexivity.
        -- assert (Hl : In m' legal) by (apply Hspec; split; [exact Hin|eauto]).
           destruct (_isKingAttacked g2 us); [exact Hl|right; exact Hl].
Qed.

End LegalFilter.

(** X12: in a well-formed position every move that [_moves] collects,
    with or without the legality filter, moves a piece of the side to move
    that stands on the move's from-square, and lands on a square of the
    board that is empty or holds an enemy piece, whose kind is then the
    recorded capture: the generator never leaves the board and never takes
    a piece of its own side. *)
Theorem collected_moves_shape (K : Zobrist) g legal piece square ms g' m :
  WF g ->
  _moves K legal piece square g = Ok ms g' ->
  m ∈ ms ->
  m_color m = _turn g /\
  _board g !! m_from m = Some (mkPiece (m_piece m) (_turn g)) /\
  on_board (m_to m) /\
  (_board g !! m_to m = None \/
   exists t, _board g !! m_to m = Some (mkPiece t (swapColor (_turn g))) /\
             m_captured m = Some t).
Proof.
  intros Hwf Hrun Hin.
  destruct (moves_runs K g legal piece square Hwf) as (ms' & Hrun' & Hsub).
  unfold runs in Hrun'. rewrite Hrun' in Hrun. inversion Hrun; subst ms' g'.
  apply list_elem_of_In, Hsub in Hin.
  pose proof (pseudo_moves_generated g Hwf piece square m Hin) as Hgen.
  destruct (generated_shape g Hwf m Hgen) as (Hc & Hf & Hr & Ht).
  split; [exact Hc|]. split; [exact Hf|]. split; [|exact Ht].
  split; [exact Hr|]. eapply pseudo_moves_on_board; eassumption.
Qed.

Lemma collected_moves_shape_witness :
  m_color e4_move = _turn start_game /\
  _board start_game !! m_from e4_move = Some (mkPiece (m_piece e4_move) (_turn start_game)) /\
  on_board (m_to e4_move) /\
  (_board start_game !! m_to e4_move = None \/
   exists t, _board start_game !! m_to e4_move
               = Some (mkPiece t (swapColor (_turn start_game))) /\
             m_captured e4_move = Some t).
Proof.
  refine (collected_moves_shape sample_keys start_game true None None _ start_game e4_move
            _ _ _).
  - apply wf_check_sound. vm_compute. reflexivity.
  - vm_compute. reflexivity.
  - apply list_elem_of_In. vm_compute. tauto.
Defined.

(** X13: the legality filter of [_moves] keeps exactly the collected
    moves that leave the mover's own king unattacked.  In a well-formed
    position the call returns, leaves the position as it was, and a move
    is in the result if and only if the generator collects it and either
    the side to move has no king on record or [_makeMove] of it reaches a
    position in which that side's king is not attacked. *)
Theorem legal_moves_are_the_safe_ones (K : Zobrist) g piece square ms g' :
  WF g ->
  _moves K true piece square g = Ok ms g' ->
  g' = g /\
  forall m,
    m ∈ ms <->
    m ∈ pseudo_moves g piece square /\
    (pc_get (_kings g) (_turn g) = -1 \/
     exists g2, _makeMove K m g = Ok tt g2 /\ _isKingAttacked g2 (_turn g) = false).
Proof.
  intros Hwf Hrun.
  destruct (filter_legal_spec K g (_turn g) (pseudo_moves g piece square) Hwf)
    as (legal & Hfl & Hspec).
  { intros m. apply pseudo_moves_generated. exact Hwf. }
  unfold _moves, bind, gets in Hrun. cbn [negb orb] in Hrun.
  destruct (pc_get (_kings g) (_turn g) =? -1) eqn:Ek.
  - unfold ret in Hrun. inversion Hrun; subst ms g'. split; [reflexivity|].
    apply Z.eqb_eq in Ek. intros m. split.
    + intros Hin. split; [exact Hin|left; exact Ek].
    + intros [Hin _]. exact Hin.
  - unfold runs in Hfl. rewrite Hfl in Hrun. inversion Hrun; subst ms g'.
    split; [reflexivity|].
    apply Z.eqb_neq in Ek. intros m. rewrite !list_elem_of_In. split.
    + intros Hin. apply Hspec in Hin as [Hin Hsafe]. split; [exact Hin|right; exact Hsafe].
    + intros [Hin [Hno|Hsafe]]; [contradiction|]. apply Hspec. split; assumption.
Qed.

Lemma legal_moves_are_the_safe_ones_witness :
  exists ms,
    _moves sample_keys true None None start_game = Ok ms start_game /\
    e4_move ∈ ms.
Proof.
  eexists. split; [vm_compute; reflexivity|].
  assert (Hwf : WF start_game) by (apply wf_check_sound; vm_compute; reflexivity).
  lazymatch goal with
  | |- _ ∈ ?l =>
      assert (Hr : _moves sample_keys true None None start_game = Ok l start_game)
        by (vm_compute; reflexivity);
      destruct (legal_moves_are_the_safe_ones sample_keys start_game None None l start_game
                  Hwf Hr) as [_ H]
  end.
  apply H. split; [apply list_elem_of_In; vm_compute; tauto|].
  right. eexists. split; [vm_compute; reflexivity|].
  vm_compute. reflexivity.
Defined.

(** *** The stored hash and the hash computed from scratch *)

Section HashValue.
Context (K : Zobrist).

Lemma hash_squares_value l : forall h g,
  in_range (_board g) ->
  hash_squares K l h g = Ok (board_hash K (_board g) l h) g.
Proof.
  induction l as [|i l IH]; intros h g Hr; simpl; [reflexivity|].
  unfold bind at 1, gets at 1.
  destruct (bool_decide (is_Some (_board g !! i))) eqn:E.
  - unfold bind at 1. rewrite (runs_pieceKey K i g Hr). apply IH. exact Hr.
  - apply bool_decide_eq_false in E.
    assert (Hk : key_at K (_board g) i = 0).
    { unfold key_at. destruct (_board g !! i); [exfalso; apply E; eauto|reflexivity]. }
    rewrite Hk, Z.lxor_0_r. apply IH. exact Hr.
Qed.

Lemma computeHash_value g :
  in_range (_board g) -> rights_ok (_castling g) ->
  _computeHash K g = Ok (position_hash K g) g.
Proof.
  intros Hr Hc. unfold _computeHash, position_hash.
  unfold bind at 1. rewrite (hash_squares_value _ _ _ Hr).
  unfold bind at 1, _epKey, gets at 1.
  unfold bind at 1. rewrite (runs_castlingKey K g Hc).
  reflexivity.
Qed.

(** Changing what stands on one square changes the board hash by the two
    keys of that square. *)
Lemma board_hash_update (b b' : gmap Z Piece) sq l : forall h,
  (forall i, i <> sq -> b' !! i = b !! i) ->
  NoDup l ->
  board_hash K b' l h
    = if bool_decide (sq ∈ l)
      then Z.lxor (Z.lxor (board_hash K b l h) (key_at K b sq)) (key_at K b' sq)
      else board_hash K b l h.
Proof.
  intros h Hsame Hnd. revert h. unfold board_hash.
  assert (Hkey : forall i, i <> sq -> key_at K b' i = key_at K b i).
  { intros i Hi. unfold key_at. rewrite (Hsame i Hi). reflexivity. }
  assert (Hout : forall l h, sq ∉ l ->
            fold_left (fun h i => Z.lxor h (key_at K b' i)) l h
            = fold_left (fun h i => Z.lxor h (key_at K b i)) l h).
  { clear Hnd. induction l0 as [|i l0 IH]; intros h Hn; cbn [fold_left]; [reflexivity|].
    apply not_elem_of_cons in Hn as [Hne Hn].
    rewrite Hkey by congruence. apply IH. exact Hn. }
  assert (Hxor : forall l h x,
            fold_left (fun h i => Z.lxor h (key_at K b i)) l (Z.lxor h x)
            = Z.lxor (fold_left (fun h i => Z.lxor h (key_at K b i)) l h) x).
  { clear. induction l as [|i l IH]; intros h x; cbn [fold_left]; [reflexivity|].
    rewrite <- IH. f_equal. xor_solve. }
  induction Hnd as [|i l Hi Hnd IH]; intros h; cbn [fold_left].
  - rewrite bool_decide_eq_false_2 by apply not_elem_of_nil. reflexivity.
  - destruct (decide (i = sq)) as [->|Hne].
    + rewrite bool_decide_eq_true_2 by (left).
      rewrite Hout by exact Hi.
      rewrite !Hxor. xor_solve.
    + rewrite Hkey by exact Hne. rewrite IH.
      destruct (bool_decide (sq ∈ l)) eqn:E.
      * apply bool_decide_eq_true in E.
        rewrite bool_decide_eq_true_2 by (right; exact E). reflexivity.
      * apply bool_decide_eq_false in E.
        rewrite bool_decide_eq_false_2; [reflexivity|].
        intros Hin. apply elem_of_cons in Hin as [->|Hin]; [congruence|contradiction].
Qed.

Lemma board_squares_NoDup : NoDup board_squares.
Proof. apply (bool_decide_unpack _). vm_compute. exact I. Qed.

Lemma on_board_square sq : on_board sq -> sq ∈ board_squares.
Proof.
  intros [Hr Hoff]. unfold board_squares.
  apply list_elem_of_In, filter_In. split.
  - apply list_elem_of_In, elem_of_seqZ.
    assert (Hin : In sq (seqZ 0 128)) by (apply list_elem_of_In, elem_of_seqZ; lia).
    assert (Hw : forallb (fun x => off_board x || (x <? 120)) (seqZ 0 128) = true)
      by (vm_compute; reflexivity).
    pose proof (proj1 (forallb_forall _ _) Hw sq Hin) as H.
    cbv beta in H. rewrite Hoff in H. simpl in H. apply Z.ltb_lt in H. lia.
  - rewrite Hoff. reflexivity.
Qed.

End HashValue.

Section HashKept.
Context (K : Zobrist).

Lemma position_hash_update g b' h' sq :
  on_board sq ->
  (forall i, i <> sq -> b' !! i = _board g !! i) ->
  position_hash K (with_bh b' h' g)
    = Z.lxor (Z.lxor (position_hash K g) (key_at K (_board g) sq)) (key_at K b' sq).
Proof.
  intros Hsq Hsame. unfold position_hash.
  destruct g as [b tn k hm h pc ep c hist fep mn].
  unfold with_bh, set_hash, set_board in *.
  cbn [_board _turn _epSquare _castling] in *.
  rewrite (board_hash_update K b b' sq board_squares 0 Hsame board_squares_NoDup).
  rewrite (bool_decide_eq_true_2 (sq ∈ board_squares)) by (apply on_board_square; exact Hsq).
  destruct (bool_decide (tn = BLACK)); xor_solve.
Qed.

Lemma consistent_hash g :
  in_range (_board g) -> rights_ok (_castling g) ->
  _computeHash K g = Ok (_hash g) g -> _hash g = position_hash K g.
Proof.
  intros Hr Hc H. rewrite (computeHash_value K g Hr Hc) in H. congruence.
Qed.

End HashKept.

(** X14: the three board primitives keep the stored hash equal to the
    hash computed from scratch.  On a position whose occupied slots and
    castling masks are in range and whose stored hash is the value of
    [_computeHash], putting a piece on a square of the board with [_set],
    emptying one with [_clear], and moving what stands on it to an empty
    square of the board with [_movePiece] each return and leave a position
    of which the same is true. *)
Theorem board_primitives_keep_hash (K : Zobrist) g sq :
  in_range (_board g) -> rights_ok (_castling g) -> on_board sq ->
  _computeHash K g = Ok (_hash g) g ->
  (forall p, exists g1,
      _set K sq p g = Ok tt g1 /\ _computeHash K g1 = Ok (_hash g1) g1) /\
  (exists g1,
      _clear K sq g = Ok tt g1 /\ _computeHash K g1 = Ok (_hash g1) g1) /\
  (forall to, on_board to -> _board g !! to = None ->
    exists g1,
      _movePiece K sq to g = Ok tt g1 /\ _computeHash K g1 = Ok (_hash g1) g1).
Proof.
  intros Hr Hc Hsq Hh.
  pose proof (consistent_hash K g Hr Hc Hh) as Hv.
  assert (Hfin : forall b' h',
            in_range b' -> h' = position_hash K (with_bh b' h' g) ->
            _computeHash K (with_bh b' h' g) = Ok (_hash (with_bh b' h' g)) (with_bh b' h' g)).
  { intros b' h' Hr' Hh'.
    rewrite computeHash_value; [|destruct g; exact Hr'|destruct g; exact Hc].
    rewrite <- Hh'. destruct g; reflexivity. }
  split; [|split].
  - intros p. eexists. split; [apply runs_set; [exact Hr|apply Hsq]|].
    apply Hfin; [apply in_range_insert; [exact Hr|apply Hsq]|].
    rewrite (position_hash_update K g _ _ sq Hsq).
    + assert (Ki : key_at K (<[sq := p]> (_board g)) sq = PIECE_KEYS K (pcolor p) (ptype p) sq)
        by (unfold key_at; rewrite lookup_insert_eq; reflexivity).
      rewrite Ki, <- Hv. reflexivity.
    + intros i Hi. apply lookup_insert_ne. congruence.
  - eexists. split; [apply runs_clear; exact Hr|].
    apply Hfin; [apply in_range_delete; exact Hr|].
    rewrite (position_hash_update K g _ _ sq Hsq).
    + assert (Kd : key_at K (delete sq (_board g)) sq = 0)
        by (unfold key_at; rewrite lookup_delete_eq; reflexivity).
      rewrite Kd, <- Hv. xor_solve.
    + intros i Hi. apply lookup_delete_ne. congruence.
  - intros to Hto Hempty.
    eexists. split; [apply runs_movePiece; [exact Hr|right; apply Hto]|].
    apply Hfin; [apply in_range_move_slot; [exact Hr|right; apply Hto]|].
    set (b := _board g) in *.
    set (b1 := match b !! sq with Some p => <[to := p]> b | None => delete to b end).
    assert (H1 : forall i, i <> to -> b1 !! i = b !! i).
    { intros i Hi. subst b1. destruct (b !! sq).
      - apply lookup_insert_ne. congruence.
      - apply lookup_delete_ne. congruence. }
    assert (H2 : forall i, i <> sq -> move_slot sq to b !! i = b1 !! i).
    { intros i Hi. unfold move_slot. fold b1. apply lookup_delete_ne. congruence. }
    assert (E1 : position_hash K (with_bh b1 0 g)
                 = Z.lxor (Z.lxor (position_hash K g) (key_at K b to)) (key_at K b1 to)).
    { apply position_hash_update; assumption. }
    assert (E2 : forall h', position_hash K (with_bh (move_slot sq to b) h' g)
                 = Z.lxor (Z.lxor (position_hash K (with_bh b1 0 g)) (key_at K b1 sq))
                          (key_at K (move_slot sq to b) sq)).
    { intros h'.
      replace (with_bh (move_slot sq to b) h' g)
        with (with_bh (move_slot sq to b) h' (with_bh b1 0 g)) by (destruct g; reflexivity).
      apply position_hash_update; [exact Hsq|].
      intros i Hi. rewrite H2 by exact Hi. destruct g; reflexivity. }
    assert (Kb_to : key_at K b to = 0) by (unfold key_at; rewrite Hempty; reflexivity).
    assert (Km_sq : key_at K (move_slot sq to b) sq = 0).
    { unfold key_at. rewrite lookup_move_slot. rewrite decide_True by reflexivity.
      reflexivity. }
    assert (Hkeys : Z.lxor (key_at K b1 to) (key_at K b1 sq)
                    = Z.lxor (key_at K b sq) (key_at K (move_slot sq to b) to)).
    { destruct (decide (sq = to)) as [Heq|Hne].
      - rewrite <- Heq in *. rewrite Km_sq, Kb_to. xor_solve.
      - assert (Kb1 : key_at K b1 sq = key_at K b sq).
        { unfold key_at. rewrite H1 by exact Hne. reflexivity. }
        assert (Km_to : key_at K (move_slot sq to b) to = key_at K b1 to).
        { unfold key_at. rewrite H2 by congruence. reflexivity. }
        rewrite Kb1, Km_to. xor_solve. }
    rewrite E2, E1, <- Hv, Kb_to, Km_sq.
    revert Hkeys.
    generalize (key_at K b1 to) (key_at K b1 sq) (key_at K b sq)
               (key_at K (move_slot sq to b) to) (_hash g).
    intros k1 k2 k3 k4 h Hkeys.
    replace (Z.lxor (Z.lxor (Z.lxor (Z.lxor h 0) k1) k2) 0)
      with (Z.lxor h (Z.lxor k1 k2)) by xor_solve.
    rewrite Hkeys. xor_solve.
Qed.

Lemma board_primitives_keep_hash_witness :
  exists g1,
    _movePiece sample_keys 100 68 start_game = Ok tt g1 /\
    _computeHash sample_keys g1 = Ok (_hash g1) g1.
Proof.
  assert (Hwf : WF start_game) by (apply wf_check_sound; vm_compute; reflexivity).
  destruct (board_primitives_keep_hash sample_keys start_game 100) as (_ & _ & H).
  - intros i p Hi. apply (wf_board _ Hwf i p Hi).
  - split; vm_compute; tauto.
  - split; [lia|reflexivity].
  - vm_compute. reflexivity.
  - apply (H 68); [split; [lia|reflexivity]|reflexivity].
Defined.

Section LoadHash.
Context (K : Zobrist).

Lemma pieceKey_reads i x g k g1 :
  _pieceKey K i g = Ok k g1 ->
  g1 = g /\ _pieceKey K i (set_hash x g) = Ok k (set_hash x g).
Proof.
  unfold _pieceKey. destruct g as [b tn ks hm h pc ep c hist fep mn]. simpl.
  destruct (b !! i); [|intros H; inversion H; auto].
  destruct (bool_decide (0 <= i < 128)); [|discriminate].
  intros H; inversion H; auto.
Qed.

Lemma hash_squares_reads x l : forall h g h' g1,
  hash_squares K l h g = Ok h' g1 ->
  g1 = g /\ hash_squares K l h (set_hash x g) = Ok h' (set_hash x g).
Proof.
  induction l as [|i l IH]; intros h g h' g1; simpl.
  - intros H. inversion H. auto.
  - unfold bind at 1 3, gets at 1 2.
    assert (Hb : _board (set_hash x g) = _board g) by (destruct g; reflexivity).
    rewrite Hb.
    destruct (bool_decide (is_Some (_board g !! i))).
    + unfold bind at 1 2.
      destruct (_pieceKey K i g) as [k g2|e g2] eqn:Ek; [|discriminate].
      destruct (pieceKey_reads i x g k g2 Ek) as [-> Ek']. rewrite Ek'. apply IH.
    + apply IH.
Qed.

Lemma computeHash_reads x g h g1 :
  _computeHash K g = Ok h g1 ->
  g1 = g /\ _computeHash K (set_hash x g) = Ok h (set_hash x g).
Proof.
  unfold _computeHash. unfold bind at 1 5.
  destruct (hash_squares K board_squares 0 g) as [h0 g2|e g2] eqn:E0; [|discriminate].
  destruct (hash_squares_reads x _ _ _ _ _ E0) as [-> E0']. rewrite E0'.
  unfold bind at 1 4, _epKey, gets at 1 3.
  unfold bind at 1 3, _castlingKey.
  destruct g as [b tn ks hm hh pc ep c hist fep mn]. simpl.
  destruct (bool_decide (0 <= castling_index c < 16)); [|discriminate].
  intros H. inversion H. auto.
Qed.

Ltac peel H :=
  repeat (let a := fresh "a" in
          let g1 := fresh "g" in
          let H1 := fresh "H" in
          apply bind_Ok in H as (a & g1 & H1 & H); cbv beta in H).

Lemma load_ends_with_hash fen g g' :
  load K fen g = Ok tt g' ->
  exists g1 h, _computeHash K g1 = Ok h g1 /\ g' = set_hash h g1.
Proof.
  unfold load. cbv zeta. intros H.
  do 21 (let a := fresh "a" in
         let g1 := fresh "g" in
         let H1 := fresh "H" in
         apply bind_Ok in H as (a & g1 & H1 & H); cbv beta in H; clear H1).
  apply bind_Ok in H as (h & gl & H1 & H).
  destruct (computeHash_reads 0 _ _ _ H1) as [-> _].
  eexists _, h. split; [exact H1|].
  unfold modify in H. inversion H. reflexivity.
Qed.

End LoadHash.

Section LoadCounts.
Context (K : Zobrist).

#[local] Hint Resolve frame_ret frame_throw frame_gets frame_when
  frame_pieceKey frame_epKey frame_castlingKey frame_xor_hash
  frame_computeHash frame_set : frame.

Lemma frame_load_placement position : forall sq, frame_pc (load_placement K position sq).
Proof. induction position as [|c s IH]; intros sq; simpl; frame. Qed.

Lemma frame_updateCastlingRights : frame_pc (_updateCastlingRights K).
Proof. unfold _updateCastlingRights; frame. Qed.

#[local] Hint Resolve frame_load_placement frame_updateCastlingRights : frame.

Lemma load_counts_nothing fen g g' :
  load K fen g = Ok tt g' -> _positionCount g' = ∅.
Proof.
  unfold load. cbv zeta. intros H.
  do 10 (let a := fresh "a" in
         let g1 := fresh "g" in
         let H1 := fresh "H" in
         apply bind_Ok in H as (a & g1 & H1 & H); cbv beta in H; clear H1).
  apply bind_Ok in H as (u & gl & H1 & H). cbv beta in H.
  unfold modify in H1. inversion H1; subst gl.
  apply frame_pc_Ok in H; [rewrite H; destruct g8; reflexivity|].
  unfold or_unmodelled. frame.
Qed.

End LoadCounts.

(** X15: whenever [load] returns, the stored hash is the one that
    [_computeHash] computes for the position it has built. *)
Theorem load_stores_the_computed_hash (K : Zobrist) fen g g' :
  load K fen g = Ok tt g' ->
  _computeHash K g' = Ok (_hash g') g'.
Proof.
  intros H. destruct (load_ends_with_hash K fen g g' H) as (g1 & h & Hh & ->).
  destruct (computeHash_reads K h g1 h g1 Hh) as [_ Hh'].
  rewrite Hh'. destruct g1; reflexivity.
Qed.

Lemma load_stores_the_computed_hash_witness :
  exists g',
    load sample_keys after_e4_fen start_game = Ok tt g' /\
    _computeHash sample_keys g' = Ok (_hash g') g'.
Proof.
  eexists. split; [vm_compute; reflexivity|].
  apply (load_stores_the_computed_hash sample_keys after_e4_fen start_game).
  vm_compute. reflexivity.
Defined.

(** X16: whenever [ChessPGN.load] returns, with or without validation,
    the map of occurrence counts holds exactly one entry: the hash of the
    loaded position, counted once. *)
Theorem load_counts_the_position_once (K : Zobrist) fen skipValidation g g' :
  ChessPGN_load K fen skipValidation g = Ok tt g' ->
  _positionCount g' = {[ _hash g' := 1 ]}.
Proof.
  unfold ChessPGN_load. intros H.
  apply bind_Ok in H as (u & g1 & Hload & H). cbv beta in H.
  apply bind_Ok in H as (u' & g2 & Hval & H). cbv beta in H.
  assert (Hg2 : g2 = g1).
  { destruct (negb skipValidation); [|inversion Hval; reflexivity].
    destruct (validateFen fen); [discriminate|inversion Hval; reflexivity]. }
  subst g2. destruct u.
  pose proof (load_counts_nothing K fen g g1 Hload) as Hpc.
  unfold _incPositionCount, modify in H. inversion H; subst g'. clear H.
  destruct g1 as [b tn ks hm h pc ep c hist fep mn]. simpl in *. subst pc.
  rewrite lookup_empty. reflexivity.
Qed.

Lemma load_counts_the_position_once_witness :
  exists g',
    ChessPGN_load sample_keys after_e4_fen false start_game = Ok tt g' /\
    _positionCount g' = {[ _hash g' := 1 ]}.
Proof.
  eexists. split; [vm_compute; reflexivity|].
  apply (load_counts_the_position_once sample_keys after_e4_fen false start_game).
  vm_compute. reflexivity.
Defined.

(** *** Editing the board: put, remove, castling rights *)

Lemma Ox88_of_on_board name sq : Ox88_of name = Some sq -> on_board sq.
Proof.
  unfold Ox88_of. destruct name as [|f [|r [|? ?]]]; try discriminate.
  cbv zeta.
  destruct (_ && _) eqn:E; [|discriminate]. intros H. inversion H; subst sq. clear H.
  repeat (apply andb_true_iff in E as [E ?]).
  repeat match goal with
         | H : (_ <=? _) = true |- _ => apply Z.leb_le in H
         | H : (_ <? _) = true |- _ => apply Z.ltb_lt in H
         end.
  set (fi := Z.of_N (N_of_ascii f) - 97) in *.
  set (ri := Z.of_N (N_of_ascii r) - 49) in *.
  assert (Hf : In fi (seqZ 0 8)) by (apply list_elem_of_In, elem_of_seqZ; lia).
  assert (Hr : In ri (seqZ 0 8)) by (apply list_elem_of_In, elem_of_seqZ; lia).
  clearbody fi ri. simpl in Hf, Hr.
  split; [lia|].
  repeat (destruct Hf as [<-|Hf]; [repeat (destruct Hr as [<-|Hr]; [reflexivity|]);
                                   destruct Hr|]).
  destruct Hf.
Qed.

Lemma pruned_rights_facts b r :
  rights_ok r -> rights_ok (pruned_rights b r) /\ rights_backed b (pruned_rights b r).
Proof.
  intros [Hw Hb]. unfold pruned_rights. cbv zeta.
  remember (negb (bool_decide (b !! Ox88.e1 = Some (mkPiece KING WHITE)))
            || negb (bool_decide (b !! Ox88.a1 = Some (mkPiece ROOK WHITE)))) as c1 eqn:E1.
  remember (negb (bool_decide (b !! Ox88.e1 = Some (mkPiece KING WHITE)))
            || negb (bool_decide (b !! Ox88.h1 = Some (mkPiece ROOK WHITE)))) as c2 eqn:E2.
  remember (negb (bool_decide (b !! Ox88.e8 = Some (mkPiece KING BLACK)))
            || negb (bool_decide (b !! Ox88.a8 = Some (mkPiece ROOK BLACK)))) as c3 eqn:E3.
  remember (negb (bool_decide (b !! Ox88.e8 = Some (mkPiece KING BLACK)))
            || negb (bool_decide (b !! Ox88.h8 = Some (mkPiece ROOK BLACK)))) as c4 eqn:E4.
  assert (Hback : forall c (k rk : Prop) (dk : Decision k) (drk : Decision rk),
                    c = negb (bool_decide k) || negb (bool_decide rk) ->
                    c = false -> k /\ rk).
  { intros c k rk dk drk -> H. apply orb_false_iff in H as [H1 H2].
    apply negb_false_iff in H1, H2. apply bool_decide_eq_true in H1, H2. auto. }
  pose proof (Hback _ _ _ _ _ E1) as B1. pose proof (Hback _ _ _ _ _ E2) as B2.
  pose proof (Hback _ _ _ _ _ E3) as B3. pose proof (Hback _ _ _ _ _ E4) as B4.
  clear E1 E2 E3 E4 Hback.
  destruct r as [w bl]. simpl in Hw, Hb.
  unfold rights_backed, rights_ok, is_rights.
  destruct Hw as [-> | [-> | [-> | ->]]], Hb as [-> | [-> | [-> | ->]]];
    destruct c1, c2, c3, c4;
    (split; [vm_compute; tauto|]);
    intros [|]; (split; intros H; try (vm_compute in H; discriminate H));
    first [apply B1|apply B2|apply B3|apply B4]; reflexivity.
Qed.

Section Editing.
Context (K : Zobrist).

Lemma runs_when_modify (c : bool) (f : Game -> Game) g :
  runs (when c (modify f)) g tt (if c then f g else g).
Proof. destruct c; reflexivity. Qed.

Lemma updateCastlingRights_runs g :
  rights_ok (_castling g) ->
  exists h,
    runs (_updateCastlingRights K) g tt
         (set_hash h (set_castling (pruned_rights (_board g) (_castling g)) g)).
Proof.
  intros Hc.
  destruct (pruned_rights_facts (_board g) (_castling g) Hc) as [Hc' _].
  eexists. unfold _updateCastlingRights, xor_hash.
  eapply runs_bind; [eapply runs_bind; [apply runs_castlingKey; exact Hc|apply runs_modify]|].
  eapply runs_bind; [apply runs_modify|].
  eapply runs_bind; [apply runs_castlingKey; destruct g; exact Hc'|].
  eapply runs_eq; [apply runs_modify|].
  destruct g; reflexivity.
Qed.

Lemma updateEnPassantSquare_runs g :
  _updateEnPassantSquare K g
  = Ok tt (if _epSquare g =? EMPTY then g
           else set_epSquare EMPTY
                  (set_hash (Z.lxor (_hash g) (EP_KEYS K (Z.land (_epSquare g) 7))) g)).
Proof.
  unfold _updateEnPassantSquare, bind, gets.
  destruct (_epSquare g =? EMPTY) eqn:E; [reflexivity|].
  unfold not_null. cbn [orb]. unfold _epKey, xor_hash, modify, gets. rewrite E.
  destruct g; reflexivity.
Qed.

Lemma fen_runs_no_ep g :
  _epSquare g = EMPTY -> exists s, fen K false g = Ok s g.
Proof.
  intros E. unfold fen, bind, gets, ret. rewrite E. cbn [negb Z.eqb EMPTY].
  destruct (negb (_fenEpSquare g =? EMPTY)); eexists; reflexivity.
Qed.

(** What the three closing steps of [put] and [remove] do to a position
    whose castling masks are in range. *)
Lemma closing_steps_run {A} (a : A) g :
  rights_ok (_castling g) ->
  exists g',
    runs (_updateCastlingRights K ;; _updateEnPassantSquare K ;; fen K false ;; ret a) g a g' /\
    _board g' = _board g /\ _kings g' = _kings g /\ _turn g' = _turn g /\
    _castling g' = pruned_rights (_board g) (_castling g) /\
    _epSquare g' = EMPTY /\ _fenEpSquare g' = _fenEpSquare g /\
    _history g' = _history g /\ _positionCount g' = _positionCount g.
Proof.
  intros Hc. destruct (updateCastlingRights_runs g Hc) as [h H1].
  set (g1 := set_hash h (set_castling (pruned_rights (_board g) (_castling g)) g)) in *.
  pose proof (updateEnPassantSquare_runs g1) as H2.
  set (g2 := if _epSquare g1 =? EMPTY then g1
             else set_epSquare EMPTY
                    (set_hash (Z.lxor (_hash g1) (EP_KEYS K (Z.land (_epSquare g1) 7))) g1))
    in *.
  assert (Hep : _epSquare g2 = EMPTY).
  { subst g2. destruct (_epSquare g1 =? EMPTY) eqn:E; [apply Z.eqb_eq; exact E|].
    destruct g1; reflexivity. }
  destruct (fen_runs_no_ep g2 Hep) as [s H3].
  exists g2. split.
  - eapply runs_bind; [exact H1|]. eapply runs_bind; [exact H2|].
    eapply runs_bind; [exact H3|]. apply runs_ret.
  - subst g2 g1. destruct g as [b tn ks hm hh pc ep c hist fep mn]. cbn.
    destruct (ep =? EMPTY) eqn:E; cbn; repeat split; try reflexivity.
    apply Z.eqb_eq. exact E.
Qed.


Lemma put_inner_runs piece square sq g :
  in_range (_board g) ->
  Ox88_of square = Some sq ->
  (ptype piece = KING ->
   pc_get (_kings g) (pcolor piece) = EMPTY \/ pc_get (_kings g) (pcolor piece) = sq) ->
  exists g1,
    runs (_put K piece square) g true g1 /\
    _board g1 = <[sq := piece]> (_board g) /\
    _kings g1 =
      (let ks1 := match _board g !! sq with
                  | Some current =>
                      if bool_decide (ptype current = KING)
                      then pc_set (_kings g) (pcolor current) EMPTY else _kings g
                  | None => _kings g
                  end in
       if bool_decide (ptype piece = KING) then pc_set ks1 (pcolor piece) sq else ks1) /\
    _castling g1 = _castling g /\ _turn g1 = _turn g /\
    _fenEpSquare g1 = _fenEpSquare g /\ _history g1 = _history g /\
    _positionCount g1 = _positionCount g.
Proof.
  intros Hr Hsq Hking. unfold _put. rewrite Hsq.
  assert (Hcond : bool_decide (ptype piece = KING)
                  && negb ((pc_get (_kings g) (pcolor piece) =? EMPTY)
                           || (pc_get (_kings g) (pcolor piece) =? sq)) = false).
  { destruct (bool_decide (ptype piece = KING)) eqn:Ek; [|reflexivity].
    apply bool_decide_eq_true in Ek. simpl. apply negb_false_iff, orb_true_iff.
    destruct (Hking Ek) as [H|H]; [left|right]; apply Z.eqb_eq; exact H. }
  destruct (Ox88_of_on_board square sq Hsq) as [Hrange _].
  set (ks1 := match _board g !! sq with
              | Some current =>
                  if bool_decide (ptype current = KING)
                  then pc_set (_kings g) (pcolor current) EMPTY else _kings g
              | None => _kings g
              end).
  set (g0 := set_kings ks1 g).
  assert (H0 : runs (match _board g !! sq with
                     | Some current =>
                         when (bool_decide (ptype current = KING))
                           (modify (fun g => set_kings
                                      (pc_set (_kings g) (pcolor current) EMPTY) g))
                     | None => ret tt
                     end) g tt g0).
  { subst g0 ks1. destruct (_board g !! sq) as [cur|].
    - eapply runs_eq; [apply runs_when_modify|].
      destruct (bool_decide (ptype cur = KING)); destruct g; reflexivity.
    - eapply runs_eq; [apply runs_ret|]. destruct g; reflexivity. }
  assert (Hr0 : in_range (_board g0)) by (destruct g; exact Hr).
  pose proof (runs_set K sq piece g0 Hr0 Hrange) as Hset.
  eexists. split.
  - eapply runs_bind; [apply runs_gets|]. cbv beta. rewrite Hcond.
    eapply runs_bind; [apply runs_gets|]. cbv beta.
    eapply runs_bind; [exact H0|].
    eapply runs_bind; [exact Hset|].
    eapply runs_bind; [apply runs_when_modify|].
    apply runs_ret.
  - subst g0. destruct g as [b tn ks hm hh pc ep c hist fep mn]. cbn in *.
    destruct (bool_decide (ptype piece = KING)); cbn; repeat split; reflexivity.
Qed.

Lemma remove_runs square g :
  in_range (_board g) -> rights_ok (_castling g) ->
  exists g',
    runs (remove K square) g
         (match Ox88_of square with Some sq => _board g !! sq | None => None end) g' /\
    _board g' = match Ox88_of square with
                | Some sq => delete sq (_board g)
                | None => _board g
                end /\
    _kings g' = match Ox88_of square with
                | Some sq =>
                    match _board g !! sq with
                    | Some p => if bool_decide (ptype p = KING)
                                then pc_set (_kings g) (pcolor p) EMPTY else _kings g
                    | None => _kings g
                    end
                | None => _kings g
                end /\
    _epSquare g' = EMPTY /\
    rights_backed (_board g') (_castling g').
Proof.
  intros Hr Hc. unfold remove, get.
  set (piece := match Ox88_of square with Some sq => _board g !! sq | None => None end).
  set (b1 := match Ox88_of square with
             | Some sq => delete sq (_board g)
             | None => _board g
             end).
  assert (H1 : exists h, runs (match Ox88_of square with
                               | Some sq => _clear K sq
                               | None => ret tt
                               end) g tt (with_bh b1 h g)).
  { subst b1. destruct (Ox88_of square) as [sq|].
    - eexists. apply runs_clear. exact Hr.
    - exists (_hash g). eapply runs_eq; [apply runs_ret|]. destruct g; reflexivity. }
  destruct H1 as [h H1].
  set (ks1 := match piece with
              | Some p => if bool_decide (ptype p = KING)
                          then pc_set (_kings g) (pcolor p) EMPTY else _kings g
              | None => _kings g
              end).
  set (g2 := set_kings ks1 (with_bh b1 h g)).
  assert (H2 : runs (match piece with
                     | Some p =>
                         when (bool_decide (ptype p = KING))
                           (modify (fun g => set_kings (pc_set (_kings g) (pcolor p) EMPTY) g))
                     | None => ret tt
                     end) (with_bh b1 h g) tt g2).
  { subst g2 ks1. destruct piece as [p|].
    - eapply runs_eq; [apply runs_when_modify|].
      destruct (bool_decide (ptype p = KING)); destruct g; reflexivity.
    - eapply runs_eq; [apply runs_ret|]. destruct g; reflexivity. }
  assert (Hc2 : rights_ok (_castling g2)) by (destruct g; exact Hc).
  destruct (closing_steps_run piece g2 Hc2)
    as (g' & H3 & Hb & Hk & _ & Hcas & Hep & _).
  exists g'. split; [|split; [|split; [|split]]].
  - eapply runs_bind; [apply runs_gets|]. cbv beta. fold piece.
    eapply runs_bind; [exact H1|]. eapply runs_bind; [exact H2|]. exact H3.
  - rewrite Hb. destruct g; reflexivity.
  - rewrite Hk. subst g2 ks1 piece. destruct g. cbn.
    destruct (Ox88_of square); reflexivity.
  - exact Hep.
  - rewrite Hcas, Hb. apply pruned_rights_facts. exact Hc2.
Qed.

End Editing.

(** X17: [_updateEnPassantSquare] never keeps an en-passant square.  Its
    first test compares board slots with [null], which no slot ever is, so
    whenever an en-passant square is set the method XORs its key out of the
    hash and clears it, even when a pawn stands ready to capture there.
    The call always returns, leaves the board and the FEN en-passant square
    alone, and keeps a stored hash that was the computed one the computed
    one. *)
Theorem updateEnPassantSquare_always_clears (K : Zobrist) g :
  exists g',
    _updateEnPassantSquare K g = Ok tt g' /\
    _epSquare g' = EMPTY /\
    _board g' = _board g /\
    _fenEpSquare g' = _fenEpSquare g /\
    (in_range (_board g) -> rights_ok (_castling g) ->
     _computeHash K g = Ok (_hash g) g ->
     _computeHash K g' = Ok (_hash g') g').
Proof.
  eexists. split; [apply updateEnPassantSquare_runs|].
  destruct (_epSquare g =? EMPTY) eqn:E.
  - apply Z.eqb_eq in E. repeat split; auto.
  - split; [destruct g; reflexivity|]. split; [destruct g; reflexivity|].
    split; [destruct g; reflexivity|].
    intros Hr Hc Hh. pose proof (consistent_hash K g Hr Hc Hh) as Hv.
    rewrite computeHash_value; [|destruct g; exact Hr|destruct g; exact Hc].
    f_equal. destruct g as [b tn ks hm hh pc ep c hist fep mn].
    unfold position_hash in *. cbn in *. rewrite E in Hv. subst hh.
    destruct (bool_decide (tn = BLACK)); xor_solve.
Qed.

Lemma updateEnPassantSquare_always_clears_witness :
  exists g',
    _updateEnPassantSquare sample_keys ep_capture_game = Ok tt g' /\
    _epSquare ep_capture_game = 84 /\
    _board ep_capture_game !! 67 = Some (mkPiece PAWN BLACK) /\
    _epSquare g' = EMPTY.
Proof.
  destruct (updateEnPassantSquare_always_clears sample_keys ep_capture_game)
    as (g' & H1 & H2 & _).
  exists g'. split; [exact H1|]. split; [vm_compute; reflexivity|].
  split; [vm_compute; reflexivity|exact H2].
Defined.

(** X18: [put] on a named square, with no second king of the colour
    coming onto the board, returns true on every position whose occupied
    slots and castling masks are in range; afterwards the board is the old
    board with the piece on that square, [get] of the square returns the
    piece, no en-passant square is set, and every castling right left has
    its king and rook at home. *)
Theorem put_places_the_piece (K : Zobrist) g piece square sq :
  in_range (_board g) -> rights_ok (_castling g) ->
  Ox88_of square = Some sq ->
  (ptype piece = KING ->
   pc_get (_kings g) (pcolor piece) = EMPTY \/ pc_get (_kings g) (pcolor piece) = sq) ->
  exists g',
    put K piece square g = Ok true g' /\
    _board g' = <[sq := piece]> (_board g) /\
    get square g' = Ok (Some piece) g' /\
    _epSquare g' = EMPTY /\
    rights_backed (_board g') (_castling g').
Proof.
  intros Hr Hc Hsq Hking.
  destruct (put_inner_runs K piece square sq g Hr Hsq Hking)
    as (g1 & H1 & Hb1 & _ & Hc1 & _).
  assert (Hc1' : rights_ok (_castling g1)) by (rewrite Hc1; exact Hc).
  destruct (closing_steps_run K true g1 Hc1') as (g' & H2 & Hb & _ & _ & Hcas & Hep & _).
  exists g'. split; [|split; [|split; [|split]]].
  - unfold put. eapply runs_bind; [exact H1|]. exact H2.
  - rewrite Hb. exact Hb1.
  - unfold get, gets. rewrite Hsq, Hb, Hb1, lookup_insert_eq. reflexivity.
  - exact Hep.
  - rewrite Hcas, Hb. apply pruned_rights_facts. exact Hc1'.
Qed.

Lemma put_places_the_piece_witness :
  exists g',
    put sample_keys (mkPiece QUEEN WHITE) "e4" start_pgn = Ok true g' /\
    get "e4" g' = Ok (Some (mkPiece QUEEN WHITE)) g'.
Proof.
  assert (Hwf : WF start_pgn) by (apply wf_check_sound; vm_compute; reflexivity).
  destruct (put_places_the_piece sample_keys start_pgn (mkPiece QUEEN WHITE) "e4" 68)
    as (g' & H1 & _ & H2 & _).
  - intros i p Hi. apply (wf_board _ Hwf i p Hi).
  - split; vm_compute; tauto.
  - reflexivity.
  - simpl. discriminate.
  - exists g'. split; assumption.
Defined.

(** X19: [put] refuses, returning false and leaving the game exactly as
    it was, when the string names no square, and when the piece is a king
    while a king of its colour is on record on another square. *)
Theorem put_refuses (K : Zobrist) g piece square :
  Ox88_of square = None \/
  (exists sq, Ox88_of square = Some sq /\ ptype piece = KING /\
              pc_get (_kings g) (pcolor piece) <> EMPTY /\
              pc_get (_kings g) (pcolor piece) <> sq) ->
  put K piece square g = Ok false g.
Proof.
  intros [Hn|(sq & Hsq & Hk & H1 & H2)]; unfold put, _put, bind, gets, ret.
  - rewrite Hn. reflexivity.
  - rewrite Hsq. rewrite bool_decide_eq_true_2 by exact Hk.
    apply Z.eqb_neq in H1, H2. rewrite H1, H2. reflexivity.
Qed.

Lemma put_refuses_witness :
  put sample_keys (mkPiece KING WHITE) "e4" start_pgn = Ok false start_pgn.
Proof.
  apply put_refuses. right. exists 68.
  split; [reflexivity|]. split; [reflexivity|].
  split; vm_compute; discriminate.
Defined.

(** X20: [remove] undoes [put] on the board: putting a piece on an empty
    named square and removing it again returns the piece and leaves the
    board as it was before the two calls. *)
Theorem remove_undoes_put (K : Zobrist) g piece square sq :
  in_range (_board g) -> rights_ok (_castling g) ->
  Ox88_of square = Some sq ->
  (ptype piece = KING ->
   pc_get (_kings g) (pcolor piece) = EMPTY \/ pc_get (_kings g) (pcolor piece) = sq) ->
  _board g !! sq = None ->
  exists g',
    (put K piece square ;; remove K square) g = Ok (Some piece) g' /\
    _board g' = _board g.
Proof.
  intros Hr Hc Hsq Hking Hempty.
  destruct (put_inner_runs K piece square sq g Hr Hsq Hking)
    as (g0 & H0 & Hb0 & _ & Hc0 & _).
  assert (Hc0' : rights_ok (_castling g0)) by (rewrite Hc0; exact Hc).
  destruct (closing_steps_run K true g0 Hc0') as (g1 & H1 & Hb1 & _ & _ & Hcas1 & _).
  assert (Hr1 : in_range (_board g1)).
  { rewrite Hb1, Hb0. apply in_range_insert; [exact Hr|].
    apply (Ox88_of_on_board square sq Hsq). }
  assert (Hc1 : rights_ok (_castling g1)).
  { rewrite Hcas1. apply pruned_rights_facts. exact Hc0'. }
  destruct (remove_runs K square g1 Hr1 Hc1) as (g' & H2 & Hb2 & _).
  rewrite Hsq in H2, Hb2. rewrite Hb1, Hb0 in H2, Hb2. rewrite lookup_insert_eq in H2.
  exists g'. split.
  - eapply runs_bind; [|exact H2]. unfold put. eapply runs_bind; [exact H0|]. exact H1.
  - rewrite Hb2, delete_insert_eq. apply delete_id. exact Hempty.
Qed.

Lemma remove_undoes_put_witness :
  exists g',
    (put sample_keys (mkPiece QUEEN WHITE) "e4" ;; remove sample_keys "e4") start_pgn
      = Ok (Some (mkPiece QUEEN WHITE)) g' /\
    _board g' = _board start_pgn.
Proof.
  assert (Hwf : WF start_pgn) by (apply wf_check_sound; vm_compute; reflexivity).
  apply (remove_undoes_put sample_keys start_pgn (mkPiece QUEEN WHITE) "e4" 68).
  - intros i p Hi. apply (wf_board _ Hwf i p Hi).
  - split; vm_compute; tauto.
  - reflexivity.
  - simpl. discriminate.
  - vm_compute. reflexivity.
Defined.

Lemma pc_get_set p c v c' :
  pc_get (pc_set p c v) c' = if decide (c = c') then v else pc_get p c'.
Proof. destruct c, c'; reflexivity. Qed.

(** After the king record has been cleared for a king that leaves
    square [sq], every king still on record stands elsewhere. *)
Lemma kings_after_leaving g sq c :
  kings_tracked g ->
  let ks1 := match _board g !! sq with
             | Some current =>
                 if bool_decide (ptype current = KING)
                 then pc_set (_kings g) (pcolor current) EMPTY else _kings g
             | None => _kings g
             end in
  pc_get ks1 c <> EMPTY ->
  pc_get ks1 c = pc_get (_kings g) c /\
  _board g !! pc_get (_kings g) c = Some (mkPiece KING c) /\
  pc_get (_kings g) c <> sq.
Proof.
  intros Ht ks1 Hne. subst ks1.
  destruct (_board g !! sq) as [cur|] eqn:Ecur.
  - destruct (bool_decide (ptype cur = KING)) eqn:Ek.
    + apply bool_decide_eq_true in Ek. rewrite pc_get_set in Hne |- *.
      destruct (decide (pcolor cur = c)) as [Hcc|Hcc]; [contradiction|].
      split; [reflexivity|]. split; [apply Ht; exact Hne|].
      intros Heq. pose proof (Ht c Hne) as Hb. rewrite Heq, Ecur in Hb.
      inversion Hb; subst cur. simpl in Hcc. contradiction.
    + apply bool_decide_eq_false in Ek.
      split; [reflexivity|]. split; [apply Ht; exact Hne|].
      intros Heq. pose proof (Ht c Hne) as Hb. rewrite Heq, Ecur in Hb.
      inversion Hb; subst cur. simpl in Ek. contradiction.
  - split; [reflexivity|]. split; [apply Ht; exact Hne|].
    intros Heq. pose proof (Ht c Hne) as Hb. rewrite Heq, Ecur in Hb. discriminate.
Qed.

(** X21: [put] and [remove] keep the king record true to the board: if
    every king on record stood on the square recorded for it, this is
    still so after either call, on every position whose occupied slots and
    castling masks are in range. *)
Theorem put_and_remove_keep_kings_tracked (K : Zobrist) g piece square :
  in_range (_board g) -> rights_ok (_castling g) -> kings_tracked g ->
  kings_tracked (state_of (put K piece square g)) /\
  kings_tracked (state_of (remove K square g)).
Proof.
  intros Hr Hc Ht. split.
  - destruct (Ox88_of square) as [sq|] eqn:Hsq;
      [|rewrite put_refuses by (left; exact Hsq); exact Ht].
    destruct (decide (ptype piece = KING /\
                      pc_get (_kings g) (pcolor piece) <> EMPTY /\
                      pc_get (_kings g) (pcolor piece) <> sq)) as [Hrefuse|Hok].
    { rewrite put_refuses; [exact Ht|]. right. exists sq. tauto. }
    assert (Hking : ptype piece = KING ->
              pc_get (_kings g) (pcolor piece) = EMPTY \/
              pc_get (_kings g) (pcolor piece) = sq).
    { intros Hk. destruct (decide (pc_get (_kings g) (pcolor piece) = EMPTY)); [auto|].
      destruct (decide (pc_get (_kings g) (pcolor piece) = sq)); [auto|]. tauto. }
    destruct (put_inner_runs K piece square sq g Hr Hsq Hking)
      as (g1 & H1 & Hb1 & Hk1 & Hc1 & _).
    assert (Hc1' : rights_ok (_castling g1)) by (rewrite Hc1; exact Hc).
    destruct (closing_steps_run K true g1 Hc1') as (g' & H2 & Hb & Hk & _).
    assert (Hrun : put K piece square g = Ok true g').
    { unfold put. eapply runs_bind; [exact H1|]. exact H2. }
    rewrite Hrun. simpl. intros c. rewrite Hk, Hb, Hk1, Hb1. cbv zeta.
    destruct (bool_decide (ptype piece = KING)) eqn:Ek.
    + apply bool_decide_eq_true in Ek. rewrite pc_get_set.
      destruct (decide (pcolor piece = c)) as [Hcc|Hcc].
      * intros _. rewrite lookup_insert_eq. destruct piece; simpl in *; subst. reflexivity.
      * intros Hne. destruct (kings_after_leaving g sq c Ht Hne) as (E & Hb0 & Hsq0).
        rewrite E. rewrite lookup_insert_ne by congruence. exact Hb0.
    + intros Hne. destruct (kings_after_leaving g sq c Ht Hne) as (E & Hb0 & Hsq0).
      rewrite E. rewrite lookup_insert_ne by congruence. exact Hb0.
  - destruct (remove_runs K square g Hr Hc) as (g' & H & Hb & Hk & _).
    unfold runs in H. rewrite H. simpl. intros c. rewrite Hk, Hb.
    destruct (Ox88_of square) as [sq|]; [|apply Ht].
    intros Hne. destruct (kings_after_leaving g sq c Ht Hne) as (E & Hb0 & Hsq0).
    rewrite E. rewrite lookup_delete_ne by congruence. exact Hb0.
Qed.

Lemma put_and_remove_keep_kings_tracked_witness :
  kings_tracked (state_of (put sample_keys (mkPiece QUEEN BLACK) "e1" start_pgn)) /\
  kings_tracked (state_of (remove sample_keys "e1" start_pgn)).
Proof.
  assert (Hwf : WF start_pgn) by (apply wf_check_sound; vm_compute; reflexivity).
  apply (put_and_remove_keep_kings_tracked sample_keys start_pgn).
  - intros i p Hi. apply (wf_board _ Hwf i p Hi).
  - split; vm_compute; tauto.
  - intros [|] _; vm_compute; reflexivity.
Defined.

Lemma is_rights_side x side :
  is_rights x ->
  is_rights (Z.lor x (SIDES side)) /\ is_rights (Z.land x (Z.lnot (SIDES side))).
Proof.
  unfold is_rights.
  intros [-> | [-> | [-> | ->]]]; destruct side; vm_compute; tauto.
Qed.

(** X22: [setCastlingRights] always returns on a position whose
    castling masks are in range, leaves the board alone, and can switch a
    right on only while the king and the rook of that side stand at home:
    afterwards every right in force is backed by king and rook, and the
    result is true exactly when each right that was asked for has the value
    asked for. *)
Theorem setCastlingRights_reports_the_outcome (K : Zobrist) g color king queen :
  rights_ok (_castling g) ->
  exists result g',
    setCastlingRights K color king queen g = Ok result g' /\
    _board g' = _board g /\
    rights_backed (_board g') (_castling g') /\
    (result = true <->
     (forall k, king = Some k ->
                has (pc_get (_castling g') color) BITS.KSIDE_CASTLE = k) /\
     (forall q, queen = Some q ->
                has (pc_get (_castling g') color) BITS.QSIDE_CASTLE = q)).
Proof.
  intros Hc.
  assert (Hupd : forall side right g0,
            rights_ok (_castling g0) ->
            exists g1,
              runs (match right with
                    | Some true =>
                        modify (fun g => set_castling
                                  (pc_set (_castling g) color
                                     (Z.lor (pc_get (_castling g) color) (SIDES side))) g)
                    | Some false =>
                        modify (fun g => set_castling
                                  (pc_set (_castling g) color
                                     (Z.land (pc_get (_castling g) color)
                                             (Z.lnot (SIDES side)))) g)
                    | None => ret tt
                    end) g0 tt g1 /\
              _board g1 = _board g0 /\ rights_ok (_castling g1)).
  { intros side right g0 [Hw Hb].
    destruct right as [[|]|]; eexists; (split; [first [apply runs_modify|apply runs_ret]|]).
    - split; [destruct g0; reflexivity|].
      destruct g0 as [? ? ? ? ? ? ? [cw cb] ? ? ?]; destruct color; simpl in *;
        split; try assumption; apply is_rights_side; assumption.
    - split; [destruct g0; reflexivity|].
      destruct g0 as [? ? ? ? ? ? ? [cw cb] ? ? ?]; destruct color; simpl in *;
        split; try assumption; apply is_rights_side; assumption.
    - split; [reflexivity|split; assumption]. }
  destruct (Hupd KING king g Hc) as (g1 & H1 & Hb1 & Hc1).
  destruct (Hupd QUEEN queen g1 Hc1) as (g2 & H2 & Hb2 & Hc2).
  destruct (updateCastlingRights_runs K g2 Hc2) as [h H3].
  set (g3 := set_hash h (set_castling (pruned_rights (_board g2) (_castling g2)) g2)) in *.
  exists ((match king with
           | None => true
           | Some r => Bool.eqb r (has (pc_get (_castling g3) color) (SIDES KING))
           end)
          && (match queen with
              | None => true
              | Some r => Bool.eqb r (has (pc_get (_castling g3) color) (SIDES QUEEN))
              end)), g3.
  split; [|split; [|split]].
  - unfold setCastlingRights. cbv zeta.
    eapply runs_bind; [exact H1|]. eapply runs_bind; [exact H2|].
    eapply runs_bind; [exact H3|].
    eapply runs_bind; [apply runs_gets|]. apply runs_ret.
  - subst g3. rewrite <- Hb1, <- Hb2. destruct g2; reflexivity.
  - assert (E : _castling g3 = pruned_rights (_board g2) (_castling g2))
      by (subst g3; destruct g2; reflexivity).
    assert (Eb : _board g3 = _board g2) by (subst g3; destruct g2; reflexivity).
    rewrite E, Eb. apply pruned_rights_facts. exact Hc2.
  - change (SIDES KING) with BITS.KSIDE_CASTLE.
    change (SIDES QUEEN) with BITS.QSIDE_CASTLE.
    rewrite andb_true_iff. split.
    + intros [Hk Hq]. split.
      * intros k ->. apply Bool.eqb_prop in Hk. symmetry. exact Hk.
      * intros q ->. apply Bool.eqb_prop in Hq. symmetry. exact Hq.
    + intros [Hk Hq]. split.
      * destruct king as [k|]; [|reflexivity]. rewrite (Hk k eq_refl).
        apply Bool.eqb_reflx.
      * destruct queen as [q|]; [|reflexivity]. rewrite (Hq q eq_refl).
        apply Bool.eqb_reflx.
Qed.

Lemma setCastlingRights_reports_the_outcome_witness :
  exists result g',
    setCastlingRights sample_keys WHITE (Some true) (Some false) start_pgn = Ok result g' /\
    rights_backed (_board g') (_castling g').
Proof.
  destruct (setCastlingRights_reports_the_outcome sample_keys start_pgn WHITE
              (Some true) (Some false)) as (result & g' & H1 & _ & H2 & _).
  - split; vm_compute; tauto.
  - exists result, g'. split; assumption.
Defined.

(** *** The index and the header scanner *)

Lemma length_append (a b : string) :
  String.length (a +:+ b) = (String.length a + String.length b)%nat.
Proof.
  induction a as [|x a IH]; [reflexivity|].
  change (S (String.length (a +:+ b)) = S (String.length a + String.length b)).
  rewrite IH. reflexivity.
Qed.

Lemma close_last_snoc indices a stop :
  endOffset a = 0 ->
  close_last (indices ++ [a]) stop = indices ++ [mkIndex (startOffset a) stop (headers a)].
Proof.
  intros Ha. unfold close_last. rewrite reverse_snoc, Ha. simpl.
  rewrite reverse_cons, reverse_involutive. reflexivity.
Qed.

Lemma contiguous_snoc l o stop hs :
  contiguous l o -> o < stop -> contiguous (l ++ [mkIndex o stop hs]) stop.
Proof.
  intros Hl Hlt. induction l as [|a rest IH]; simpl.
  - repeat split; simpl; lia.
  - destruct Hl as (H1 & H2 & H3). split; [exact H1|]. split.
    + destruct rest as [|b rest']; simpl; [exact H2|exact H2].
    + apply IH. exact H3.
Qed.

Lemma tag_line_nonempty l : startsWith "[" (trim l) = true -> (1 <= String.length l)%nat.
Proof. destruct l; [discriminate|simpl; lia]. Qed.

Lemma index_lines_contiguous total : forall lines prev offset indices lo,
  (lines = [] /\ offset = total + 1 \/
   lines <> [] /\ offset + Z.of_nat (String.length (join (str1 newline) lines)) = total) ->
  lo <= offset -> lo <= total ->
  (forall stop, lo <= stop -> contiguous (close_last indices stop) stop) ->
  contiguous (close_last (index_lines lines prev offset indices) total) total.
Proof.
  induction lines as [|l rest IH]; intros prev offset indices lo HJ Hlo Htot HI.
  - simpl. apply HI. exact Htot.
  - destruct HJ as [[HJ _]|[_ HJ]]; [discriminate|].
    assert (Hline : offset + Z.of_nat (String.length l) <= total /\
                    (rest = [] /\ offset + Z.of_nat (String.length l) + 1 = total + 1 \/
                     rest <> [] /\
                     offset + Z.of_nat (String.length l) + 1
                     + Z.of_nat (String.length (join (str1 newline) rest)) = total)).
    { destruct rest as [|l2 rest'].
      - simpl in HJ. split; [lia|left; split; [reflexivity|lia]].
      - rewrite join_cons in HJ by discriminate.
        rewrite !length_append in HJ.
        change (String.length (str1 newline)) with 1%nat in HJ.
        split; [lia|right; split; [discriminate|lia]]. }
    destruct Hline as [Hend HJ'].
    cbn [index_lines]. cbv zeta.
    destruct (startsWith "[" (trim l)) eqn:Etag;
      [|apply (IH _ _ _ lo); [exact HJ'|lia|exact Htot|exact HI]].
    destruct (negb (_ =? EmptyString)%string);
      [apply (IH _ _ _ lo); [exact HJ'|lia|exact Htot|exact HI]|].
    pose proof (tag_line_nonempty l Etag) as Hlen.
    apply (IH _ _ _ (offset + 1)); [exact HJ'|lia|lia|].
    intros stop Hstop. rewrite close_last_snoc by reflexivity. simpl.
    apply contiguous_snoc; [apply HI; exact Hlo|lia].
Qed.

(** X23: the entries of the index partition the text from the first tag
    line on: every entry is a non-empty range, each entry ends where the
    next begins, and the last ends at the end of the text. *)
Theorem index_entries_are_contiguous pgn :
  contiguous (indexPgnGames pgn) (Z.of_nat (String.length pgn)).
Proof.
  unfold indexPgnGames. cbv zeta.
  apply (index_lines_contiguous _ _ _ _ _ 0).
  - right. split; [apply split_char_go_nonempty|].
    rewrite join_split. lia.
  - lia.
  - lia.
  - intros stop _. exact I.
Qed.

Lemma index_lines_no_tag : forall lines prev offset indices,
  (forall line, line ∈ lines -> startsWith "[" (trim line) = false) ->
  index_lines lines prev offset indices = indices.
Proof.
  induction lines as [|l rest IH]; intros prev offset indices H; [reflexivity|].
  cbn [index_lines]. cbv zeta. rewrite (H l) by left.
  apply IH. intros line Hin. apply H. right. exact Hin.
Qed.

(** X24: a text in which no line begins, after trimming, with an opening
    bracket has no index entries: movetext without a tag line is no game
    for the indexer. *)
Theorem text_without_tag_line_has_no_games pgn :
  (forall line, line ∈ split_char newline pgn -> startsWith "[" (trim line) = false) ->
  indexPgnGames pgn = [].
Proof.
  intros H. unfold indexPgnGames. cbv zeta.
  rewrite index_lines_no_tag by exact H. reflexivity.
Qed.

Lemma text_without_tag_line_has_no_games_witness :
  indexPgnGames "1. e4 e5 2. Nf3 Nc6 *" = [].
Proof.
  apply text_without_tag_line_has_no_games.
  intros line Hin. apply list_elem_of_In in Hin. vm_compute in Hin.
  destruct Hin as [<-|[]]. vm_compute. reflexivity.
Defined.

Lemma string_rev_cons c s : string_rev (String c s) = string_rev s +:+ str1 c.
Proof. unfold string_rev at 1. simpl. apply string_rev_acc_app. Qed.

Lemma string_rev_app a b : string_rev (a +:+ b) = string_rev b +:+ string_rev a.
Proof.
  induction a as [|c a IH].
  - simpl. rewrite append_nil_r. reflexivity.
  - change (String c a +:+ b) with (String c (a +:+ b)).
    rewrite !string_rev_cons, IH, append_assoc. reflexivity.
Qed.

Lemma string_rev_involutive s : string_rev (string_rev s) = s.
Proof.
  induction s as [|c s IH]; [reflexivity|].
  rewrite string_rev_cons, string_rev_app, IH. reflexivity.
Qed.

Lemma trim_id s :
  drop_spaces s = s -> drop_spaces (string_rev s) = string_rev s -> trim s = s.
Proof. intros H1 H2. unfold trim. rewrite H1, H2. apply string_rev_involutive. Qed.

Lemma take_drop_name name rest :
  string_forallb is_name_char name = true ->
  match rest with String c _ => is_name_char c = false | EmptyString => True end ->
  take_while is_name_char (name +:+ rest) = name /\
  drop_while is_name_char (name +:+ rest) = rest.
Proof.
  intros Hn Hr. induction name as [|c name IH].
  - simpl. destruct rest as [|d rest]; [auto|]. simpl. rewrite Hr. auto.
  - cbn [string_forallb] in Hn. apply andb_true_iff in Hn as [Hc Hn].
    destruct (IH Hn) as [IH1 IH2].
    change (String c name +:+ rest) with (String c (name +:+ rest)).
    cbn [take_while drop_while]. rewrite Hc, IH1, IH2. auto.
Qed.

Lemma scan_plain_value rest v : forall raw,
  string_forallb (fun c => negb (Ascii.eqb c dquote) && negb (Ascii.eqb c backslash)) v
    = true ->
  scan_value (v +:+ String dquote rest) 0 raw = Some (string_rev raw +:+ v, rest).
Proof.
  induction v as [|c v IH]; intros raw Hv.
  - simpl. rewrite append_nil_r. reflexivity.
  - cbn [string_forallb] in Hv. apply andb_true_iff in Hv as [Hc Hv].
    apply andb_true_iff in Hc as [Hq Hb]. apply negb_true_iff in Hq, Hb.
    change (String c v +:+ String dquote rest) with (String c (v +:+ String dquote rest)).
    cbn [scan_value]. rewrite Hq, Hb. cbn [andb].
    rewrite IH by exact Hv. rewrite string_rev_cons, append_assoc. reflexivity.
Qed.

Lemma unescape_plain v :
  string_forallb (fun c => negb (Ascii.eqb c dquote) && negb (Ascii.eqb c backslash)) v
    = true ->
  unescape_backslashes v = v /\ unescape_quotes v = v.
Proof.
  induction v as [|c v IH]; intros Hv; [auto|].
  cbn [string_forallb] in Hv. apply andb_true_iff in Hv as [Hc Hv].
  apply andb_true_iff in Hc as [Hq Hb]. apply negb_true_iff in Hq, Hb.
  destruct (IH Hv) as [IH1 IH2].
  destruct v as [|d v]; [auto|].
  split.
  - change (unescape_backslashes (String c (String d v)))
      with (if Ascii.eqb c backslash && Ascii.eqb d backslash
            then String backslash (unescape_backslashes v)
            else String c (unescape_backslashes (String d v))).
    rewrite Hb, IH1. reflexivity.
  - change (unescape_quotes (String c (String d v)))
      with (if Ascii.eqb c backslash && Ascii.eqb d dquote
            then String dquote (unescape_quotes v)
            else String c (unescape_quotes (String d v))).
    rewrite Hb, IH2. reflexivity.
Qed.

(** X25: [parseTagPairLine] reads back a tag pair written in the plain
    form: for a non-empty name of letters, digits and underscores and a
    value that holds neither a double quote nor a backslash, the line
    [[name "value"]] scans to exactly that name and value. *)
Theorem parseTagPairLine_reads_back name value :
  name <> EmptyString ->
  string_forallb is_name_char name = true ->
  string_forallb (fun c => negb (Ascii.eqb c dquote) && negb (Ascii.eqb c backslash)) value
    = true ->
  parseTagPairLine (tag_line name value) = Some (name, value).
Proof.
  intros Hne Hname Hvalue.
  assert (Hform : tag_line name value
                  = String "[" (name +:+ String " " (String dquote
                                  (value +:+ String dquote "]")))).
  { unfold tag_line, quoted, str1. rewrite !append_assoc. reflexivity. }
  assert (Htrim : trim (tag_line name value) = tag_line name value).
  { apply trim_id.
    - rewrite Hform. reflexivity.
    - unfold tag_line. rewrite <- !append_assoc. rewrite string_rev_app. reflexivity. }
  unfold parseTagPairLine. rewrite Htrim, Hform.
  destruct (take_drop_name name (String " " (String dquote (value +:+ String dquote "]")))
              Hname eq_refl) as [Ht Hd].
  rewrite Ht, Hd.
  destruct name as [|c name]; [congruence|].
  cbn [String.eqb negb drop_while].
  change (is_space " ") with true. cbn [negb]. cbv iota.
  change (is_space dquote) with false. cbv iota.
  cbn [after_first_quote]. change (Ascii.eqb dquote dquote) with true. cbv iota.
  rewrite scan_plain_value by exact Hvalue.
  destruct (unescape_plain value Hvalue) as [U1 U2].
  change (string_rev EmptyString +:+ value) with value.
  change (negb (startsWith "]" (trim "]"))) with false. cbv iota.
  rewrite U1, U2. reflexivity.
Qed.

Lemma parseTagPairLine_reads_back_witness :
  parseTagPairLine (tag_line "White" "Carlsen, Magnus") = Some ("White", "Carlsen, Magnus").
Proof.
  apply parseTagPairLine_reads_back.
  - discriminate.
  - vm_compute. reflexivity.
  - vm_compute. reflexivity.
Defined.

(** *** A validated FEN always loads *)

Lemma valid_row_length s : forall sum prev,
  0 <= sum -> valid_row_from s sum prev = None ->
  sum <= 8 /\ length (linear_cells s) = Z.to_nat (8 - sum).
Proof.
  induction s as [|c s IH]; intros sum prev Hsum Hv.
  - simpl in Hv. destruct (sum =? 8) eqn:E; [|discriminate].
    apply Z.eqb_eq in E. subst sum. split; [lia|reflexivity].
  - simpl in Hv. cbn [linear_cells].
    destruct (is_digit c) eqn:Ed.
    + destruct prev; [discriminate|].
      destruct (digit_string c Ed) as (_ & Hd & _ & Hslash). rewrite Hslash.
      destruct (IH (sum + digit_value c) true ltac:(lia) Hv) as [Hle Hlen].
      split; [lia|]. rewrite length_app, length_replicate, Hlen. lia.
    + destruct (contains_char c "prnbqkPRNBQK") eqn:Ec; [|discriminate]. simpl in Hv.
      destruct (piece_letter_of c Ec) as (_ & Hslash & ty & Ht & _).
      rewrite Hslash, Ht.
      destruct (IH (sum + 1) false ltac:(lia) Hv) as [Hle Hlen].
      split; [lia|]. cbn [length]. rewrite Hlen. lia.
Qed.

(** The placement of a FEN that [validateFen] accepts: characters the
    placement loop of [load] handles, filling the 8 by 8 board. *)
Lemma validated_placement t0 :
  length (split_char "/" t0) = 8%nat ->
  first_error valid_row (split_char "/" t0) = None ->
  string_forallb placement_char t0 = true /\ length (linear_cells t0) = 120%nat.
Proof.
  intros Hlen Hrows.
  pose proof (join_split "/" t0) as Hj. change (str1 "/") with "/" in Hj.
  apply first_error_none in Hrows.
  destruct (split_char "/" t0) as [|r0 [|r1 [|r2 [|r3 [|r4 [|r5 [|r6 [|r7 [|]]]]]]]]];
    try discriminate.
  clear Hlen. subst t0. unfold join. cbn [String.concat].
  repeat match goal with
         | H : Forall _ (_ :: _) |- _ => inversion H; subst; clear H
         | H : Forall _ [] |- _ => clear H
         end.
  repeat match goal with
         | H : valid_row ?r = None |- _ =>
             pose proof (valid_row_chars r 0 false H);
             pose proof (proj2 (valid_row_length r 0 false ltac:(lia) H));
             pose proof (fun t => linear_cells_row r 0 false t H);
             clear H
         end.
  split.
  - rewrite !string_forallb_app.
    repeat match goal with
           | H : string_forallb placement_char _ = true |- _ => rewrite H; clear H
           end.
    reflexivity.
  - repeat match goal with
           | H : forall t, linear_cells (?r +:+ t) = _ |- context [linear_cells (?r +:+ _)] =>
               rewrite H;
               change (linear_cells ("/" +:+ ?x)) with (replicate 8 None ++ linear_cells x)
           end.
    rewrite !length_app, !length_replicate.
    repeat match goal with
           | H : length (linear_cells _) = _ |- _ => rewrite H; clear H
           end.
    reflexivity.
Qed.

Lemma validated_numbers f :
  validateFen f = None ->
  exists hm mn,
    parseInt (nth 4 (split_ws f) EmptyString) = Some hm /\
    parseInt (nth 5 (split_ws f) EmptyString) = Some mn.
Proof.
  unfold validateFen. cbv zeta.
  destruct (negb (length (split_ws f) =? 6)%nat); [discriminate|].
  destruct (parseInt (nth 5 (split_ws f) EmptyString)) as [mn|]; [|discriminate].
  destruct (parseInt (nth 4 (split_ws f) EmptyString)) as [hm|];
    [|destruct (mn <=? 0); discriminate].
  intros _. eauto.
Qed.

Section LoadAny.
Context (K : Zobrist).

Lemma load_runs_any f g t0 t1 t2 t3 t4 t5 hm mn :
  split_ws (autofill f) = [t0; t1; t2; t3; t4; t5] ->
  string_forallb placement_char t0 = true ->
  length (linear_cells t0) = 120%nat ->
  t1 = "w" \/ t1 = "b" ->
  t3 = "-" \/ (exists ep, Ox88_of t3 = Some ep) ->
  parseInt t4 = Some hm -> parseInt t5 = Some mn ->
  exists g1, runs (load K f) g tt g1 /\ True.
Proof.
  intros Htok Hok Hlen Hturn Hep Hhm Hmn.
  unfold load. rewrite Htok. cbv zeta. cbn [nth length].
  destruct g as [b0 tn0 k0 hm0 h0 pc0 ep0 c0 hist0 fep0 mn0].
  do 9 smod.
  (* the first hash *)
  match goal with
  | |- exists _, runs _ ?g _ _ /\ _ =>
      destruct (runs_computeHash K g) as [hA HA];
        [intros i p; cbn; rewrite lookup_empty; discriminate
        |split; left; reflexivity|]
  end.
  eapply then_runs;
    [eapply runs_bind; [exact HA|apply runs_modify'; norm; reflexivity]|]; cbv beta.
  smod.
  (* the placement *)
  match goal with
  | |- exists _, runs _ ?g _ _ /\ _ =>
      destruct (runs_load_placement K t0 0 g) as (ks & hB & HB & HrB);
        [intros i p; cbn; rewrite lookup_empty; discriminate
        |lia|rewrite Hlen; lia|exact Hok|]
  end.
  eapply then_runs; [exact HB|]; cbv beta. unfold placed. norm.
  (* side to move *)
  change (6 <? 3)%nat with false. cbv iota.
  destruct Hturn as [-> | ->];
    change ("w" =? "w")%string with true; change ("b" =? "w")%string with false;
    change ("b" =? "b")%string with true; cbv iota; smod.
  (* the rights named in the castling field *)
  all: destruct (contains_char "K" t2), (contains_char "Q" t2),
                (contains_char "k" t2), (contains_char "q" t2).
  all: do 4 swhen.
  all: match goal with
       | |- exists _, runs _ (mkGame _ _ _ _ _ _ _ ?c _ _ _) _ _ /\ _ =>
           let c' := eval vm_compute in c in change c with c'
       end.
  (* pruning the rights *)
  all: match goal with
       | |- exists _, runs _ ?g _ _ /\ _ =>
           let Hu := fresh "Hu" in
           destruct (updateCastlingRights_runs K g) as [hU Hu];
             [split; vm_compute; tauto|];
           eapply then_runs; [exact Hu|]; cbv beta; norm; clear Hu
       end.
  all: match goal with
       | |- exists _, runs _ (mkGame ?b _ _ _ _ _ _ (pruned_rights ?b' ?c) _ _ _) _ _ /\ _ =>
           assert (Hrok : rights_ok (pruned_rights b' c))
             by (apply pruned_rights_facts; split; vm_compute; tauto);
           generalize dependent (pruned_rights b' c); intros r Hrok
       end.
  (* the en-passant square *)
  all: assert (Hepr : exists ep, (if (t3 =? "-")%string then ret EMPTY
                                  else or_unmodelled (Ox88_of t3)) = ret ep);
    [destruct Hep as [->|[ep Hox]];
     [exists EMPTY; reflexivity
     |exists (if (t3 =? "-")%string then EMPTY else ep);
      destruct (t3 =? "-")%string; [reflexivity|rewrite Hox; reflexivity]]|].
  all: destruct Hepr as [ep Hepr].
  all: rewrite Hepr, Hhm, Hmn; unfold or_unmodelled.
  all: eapply then_runs;
    [eapply runs_bind; [apply runs_ret|];
     eapply runs_bind; apply runs_modify'; norm; reflexivity|]; cbv beta.
  all: do 2 (eapply then_runs;
    [eapply runs_bind; [apply runs_ret|apply runs_modify'; norm; reflexivity]|];
    cbv beta).
  (* the final hash *)
  all: match goal with
       | |- exists _, runs _ ?g _ _ /\ _ =>
           destruct (runs_computeHash K g) as [hC HC]; [exact HrB|exact Hrok|]
       end.
  all: eexists; split;
    [eapply runs_bind; [exact HC|apply runs_modify'; norm; reflexivity]|exact I].
Qed.

End LoadAny.

(** X27: a FEN string that [validateFen] accepts always loads: from any
    state, [Game.load] returns on it and so does [ChessPGN.load] with
    validation switched on. *)
Theorem validated_fen_loads (K : Zobrist) fen g :
  validateFen fen = None ->
  (exists g1, load K fen g = Ok tt g1) /\
  (exists g2, ChessPGN_load K fen false g = Ok tt g2).
Proof.
  intros Hval.
  destruct (validateFen_ok fen Hval)
    as (t0 & t1 & t2 & t3 & t4 & t5 & Htok & Hep & Hturn & Hlen & Hrows).
  destruct (validated_numbers fen Hval) as (hm & mn & Hhm & Hmn).
  rewrite Htok in Hhm, Hmn. cbn [nth] in Hhm, Hmn.
  destruct (validated_placement t0 Hlen Hrows) as [Hchars Hcells].
  assert (Hauto : autofill fen = fen) by (unfold autofill; rewrite Htok; reflexivity).
  assert (Hepv : t3 = "-" \/ (exists ep, Ox88_of t3 = Some ep)).
  { destruct (valid_ep_cases t3 Hep) as [->|(i & Hox & _)]; [left; reflexivity|].
    right. exists i. exact Hox. }
  destruct (load_runs_any K fen g t0 t1 t2 t3 t4 t5 hm mn) as (g1 & Hrun & _);
    try assumption.
  { rewrite Hauto. exact Htok. }
  unfold runs in Hrun. split; [exists g1; exact Hrun|].
  eexists. unfold ChessPGN_load, bind. rewrite Hrun. cbn [negb]. rewrite Hval.
  reflexivity.
Qed.

Lemma validated_fen_loads_witness :
  (exists g1, load sample_keys ep_capture_fen start_game = Ok tt g1) /\
  (exists g2, ChessPGN_load sample_keys ep_capture_fen false start_game = Ok tt g2).
Proof.
  apply validated_fen_loads. vm_compute. reflexivity.
Defined.

(** *** Making a move keeps the hash *)

Lemma fold_left_nil_eq {A B} (f : A -> B -> A) a : fold_left f [] a = a.
Proof. reflexivity. Qed.
Lemma fold_left_cons_eq {A B} (f : A -> B -> A) x l a :
  fold_left f (x :: l) a = fold_left f l (f a x).
Proof. reflexivity. Qed.

Section MakeHash.
Context (K : Zobrist).

(** A board that differs from [b] on the squares of [S] only. *)
Lemma board_hash_changes S : forall (b b' : gmap Z Piece),
  NoDup S -> (forall sq, sq ∈ S -> on_board sq) ->
  (forall i, i ∉ S -> b' !! i = b !! i) ->
  board_hash K b' board_squares 0
    = fold_left (fun h sq => Z.lxor (Z.lxor h (key_at K b sq)) (key_at K b' sq)) S
                (board_hash K b board_squares 0).
Proof.
  induction S as [|sq S IH]; intros b b' Hnd Hon Hsame.
  - assert (E : b' = b) by (apply map_eq; intros i; apply Hsame, not_elem_of_nil).
    rewrite E, fold_left_nil_eq. reflexivity.
  - apply NoDup_cons in Hnd as [Hnot Hnd].
    set (b1 := match b' !! sq with Some p => <[sq := p]> b | None => delete sq b end).
    assert (H1 : forall i, i <> sq -> b1 !! i = b !! i).
    { intros i Hi. subst b1. destruct (b' !! sq).
      - apply lookup_insert_ne. congruence.
      - apply lookup_delete_ne. congruence. }
    assert (H1' : b1 !! sq = b' !! sq).
    { subst b1. destruct (b' !! sq) eqn:E.
      - apply lookup_insert_eq.
      - apply lookup_delete_eq. }
    assert (H2 : forall i, i ∉ S -> b' !! i = b1 !! i).
    { intros i Hi. destruct (decide (i = sq)) as [->|Hne]; [symmetry; exact H1'|].
      rewrite H1 by exact Hne. apply Hsame.
      intros Hin. apply elem_of_cons in Hin as [?|?]; contradiction. }
    rewrite (IH b1 b' Hnd); [|intros s Hs; apply Hon; right; exact Hs|exact H2].
    rewrite fold_left_cons_eq.
    rewrite (board_hash_update K b b1 sq board_squares 0 H1 board_squares_NoDup).
    rewrite (bool_decide_eq_true_2 (sq ∈ board_squares))
      by (apply on_board_square, Hon; left).
    assert (Hk : key_at K b1 sq = key_at K b' sq) by (unfold key_at; rewrite H1'; reflexivity).
    rewrite Hk.
    assert (Hfold : forall l h,
              (forall s, s ∈ l -> s <> sq) ->
              fold_left (fun h s => Z.lxor (Z.lxor h (key_at K b1 s)) (key_at K b' s)) l h
              = fold_left (fun h s => Z.lxor (Z.lxor h (key_at K b s)) (key_at K b' s)) l h).
    { clear. induction l as [|s l IHl]; intros h Hl; [reflexivity|].
      rewrite !fold_left_cons_eq.
      assert (Es : key_at K b1 s = key_at K b s).
      { unfold key_at. subst b1. assert (s <> sq) by (apply Hl; left).
        destruct (b' !! sq).
        - rewrite lookup_insert_ne by congruence. reflexivity.
        - rewrite lookup_delete_ne by congruence. reflexivity. }
      rewrite Es. apply IHl. intros s' Hs'. apply Hl. right. exact Hs'. }
    apply Hfold. intros s Hs ->. contradiction.
Qed.

End MakeHash.

Ltac nodup_tac :=
  repeat (apply NoDup_cons_2;
          [rewrite ?elem_of_cons, ?elem_of_nil; intuition (try kill)|]);
  apply NoDup_nil_2.

Ltac hash_close K S b Hob :=
  match goal with
  | Hh : _ = position_hash K _ |- _ =>
      revert Hh; unfold position_hash; norm; intros Hh; rewrite Hh; clear Hh
  end;
  repeat match goal with
  | |- context [board_hash K ?b' board_squares 0] =>
      lazymatch b' with
      | b => fail
      | _ => rewrite (board_hash_changes K S b b');
             [ rewrite !fold_left_cons_eq, fold_left_nil_eq
             | nodup_tac
             | let sq := fresh "sq" in
               let Hs := fresh "Hs" in
               intros sq Hs;
               repeat (apply elem_of_cons in Hs as [->|Hs]);
               [ first [ assumption
                       | eapply Hob; eassumption
                       | split; [lia|reflexivity] ] ..
               | apply elem_of_nil in Hs; destruct Hs ]
             | let i := fresh "i" in
               let Hi := fresh "Hi" in
               intros i Hi;
               repeat (apply not_elem_of_cons in Hi as [? Hi]);
               simp_lookup; try reflexivity; try congruence ]
      end
  end;
  unfold key_at; simp_lookup; norm;
  change (EMPTY =? EMPTY) with true; cbn iota; xor_solve.

Ltac finish K S b Hob :=
  eexists; split; [unfold _makeMove; norm; run1 K|];
  split; [unfold position_hash at 1; norm; hash_close K S b Hob|];
  split; norm; [range_tac|rights_tac].

Section MakeMoveHash.
Context (K : Zobrist).

Lemma makeMove_hash g m :
  WF g -> generated g m -> off_board (m_to m) = false ->
  _hash g = position_hash K g ->
  exists g2,
    runs (_makeMove K m) g tt g2 /\
    _hash g2 = position_hash K g2 /\
    in_range (_board g2) /\ rights_ok (_castling g2).
Proof.
  intros Hwf Hgen Hoff Hh.
  assert (Hr : in_range (_board g)).
  { intros i p Hi. apply (wf_board g Hwf) in Hi. apply Hi. }
  assert (Hob : forall i p, _board g !! i = Some p -> on_board i).
  { intros i p Hi. apply (wf_board g Hwf _ _ Hi). }
  assert (Hc : rights_ok (_castling g)).
  { split; [apply (wf_rights g Hwf WHITE)|apply (wf_rights g Hwf BLACK)]. }
  clear Hwf.
  destruct g as [b t k hm h pc ep c hist fep mn]; simpl in *.
  destruct Hgen as [from to piece base promo flags Hfrom Hto Hrange Hbase Hrec
                   |from to piece captured promo flags Hfrom Hto Hrec
                   |from to promo flags Hfrom Hto Hrange Hvic Hrec
                   |king Hk Hking H1 H2
                   |king Hk Hking H1 H2 H3]; simpl in *.
  - assert (Hne : from <> to) by congruence.
    assert (Hf : 0 <= from < 128) by (exact (Hr _ _ Hfrom)).
    assert (Hto_on : on_board to) by (split; assumption).
    destruct Hrec as [[-> ->]|(-> & pr & Hpr & -> & ->)].
    + destruct Hbase as [->|[-> ->]].
      * destruct t, piece; finish K [from; to] b Hob.
      * destruct t;
          [ destruct (enemy_pawn_beside (move_slot from to b) BLACK to) eqn:Hadj
          | destruct (enemy_pawn_beside (move_slot from to b) WHITE to) eqn:Hadj ];
          finish K [from; to] b Hob.
    + apply list_elem_of_In in Hpr. simpl in Hpr.
      destruct Hbase as [->|[-> _]].
      * destruct Hpr as [<-|[<-|[<-|[<-|[]]]]]; destruct t; finish K [from; to] b Hob.
      * destruct Hpr as [<-|[<-|[<-|[<-|[]]]]]; destruct t;
          [ destruct (enemy_pawn_beside (<[to := mkPiece QUEEN WHITE]> (delete to (move_slot from to b))) BLACK to) eqn:Hadj
          | destruct (enemy_pawn_beside (<[to := mkPiece QUEEN BLACK]> (delete to (move_slot from to b))) WHITE to) eqn:Hadj
          | destruct (enemy_pawn_beside (<[to := mkPiece ROOK WHITE]> (delete to (move_slot from to b))) BLACK to) eqn:Hadj
          | destruct (enemy_pawn_beside (<[to := mkPiece ROOK BLACK]> (delete to (move_slot from to b))) WHITE to) eqn:Hadj
          | destruct (enemy_pawn_beside (<[to := mkPiece BISHOP WHITE]> (delete to (move_slot from to b))) BLACK to) eqn:Hadj
          | destruct (enemy_pawn_beside (<[to := mkPiece BISHOP BLACK]> (delete to (move_slot from to b))) WHITE to) eqn:Hadj
          | destruct (enemy_pawn_beside (<[to := mkPiece KNIGHT WHITE]> (delete to (move_slot from to b))) BLACK to) eqn:Hadj
          | destruct (enemy_pawn_beside (<[to := mkPiece KNIGHT BLACK]> (delete to (move_slot from to b))) WHITE to) eqn:Hadj ];
          finish K [from; to] b Hob.
  - assert (Hne : from <> to) by (destruct t; intros ->; rewrite Hfrom in Hto; discriminate).
    assert (Hf : 0 <= from < 128) by (exact (Hr _ _ Hfrom)).
    assert (Hrange : 0 <= to < 128) by (exact (Hr _ _ Hto)).
    destruct Hrec as [[-> ->]|(-> & pr & Hpr & -> & ->)].
    + destruct t, piece; simpl in Hto; finish K [from; to] b Hob.
    + apply list_elem_of_In in Hpr. simpl in Hpr.
      destruct Hpr as [<-|[<-|[<-|[<-|[]]]]]; destruct t; simpl in Hto;
        finish K [from; to] b Hob.
  - assert (Hne : from <> to) by congruence.
    assert (Hf : 0 <= from < 128) by (exact (Hr _ _ Hfrom)).
    assert (Hv : 0 <= ep_victim t to < 128) by (exact (Hr _ _ Hvic)).
    assert (Hnv : ep_victim t to <> from) by (destruct t; intros E; rewrite E in Hvic; rewrite Hfrom in Hvic; discriminate).
    assert (Hnv2 : ep_victim t to <> to) by (destruct t; simpl; lia).
    assert (Hto_on : on_board to) by (split; assumption).
    destruct Hrec as [[-> ->]|(_ & pr & Hpr & -> & ->)].
    + destruct t; simpl in *;
        [finish K [from; to; to + 16] b Hob|finish K [from; to; to - 16] b Hob].
    + apply list_elem_of_In in Hpr. simpl in Hpr.
      destruct Hpr as [<-|[<-|[<-|[<-|[]]]]]; destruct t; simpl in *;
        first [finish K [from; to; to + 16] b Hob|finish K [from; to; to - 16] b Hob].
  - destruct t; simpl in Hk; subst king;
      change Ox88.e1 with 116 in *; change Ox88.e8 with 4 in *;
      change (116 + 1) with 117 in *; change (116 + 2) with 118 in *;
      change (4 + 1) with 5 in *; change (4 + 2) with 6 in *;
      [finish K [116; 118; 119; 117] b Hob|finish K [4; 6; 7; 5] b Hob].
  - destruct t; simpl in Hk; subst king;
      change Ox88.e1 with 116 in *; change Ox88.e8 with 4 in *;
      change (116 - 1) with 115 in *; change (116 - 2) with 114 in *;
      change (116 - 3) with 113 in *;
      change (4 - 1) with 3 in *; change (4 - 2) with 2 in *;
      change (4 - 3) with 1 in *;
      [finish K [116; 114; 112; 115] b Hob|finish K [4; 2; 0; 3] b Hob].
Qed.

End MakeMoveHash.

(** X28: a move that [_moves] returns keeps the stored hash right.  In a
    well-formed position whose stored hash is the one [_computeHash]
    computes, [_makeMove] of any such move returns and leaves a position
    whose stored hash is again the computed one: the incremental updates
    of captures, en-passant captures, promotions, castling, lost castling
    rights, the en-passant square and the side to move add up. *)
Theorem makeMove_keeps_hash (K : Zobrist) g legal piece square ms g' m :
  WF g ->
  _computeHash K g = Ok (_hash g) g ->
  _moves K legal piece square g = Ok ms g' ->
  m ∈ ms ->
  exists g2,
    _makeMove K m g = Ok tt g2 /\
    _computeHash K g2 = Ok (_hash g2) g2.
Proof.
  intros Hwf Hh Hrun Hin.
  assert (Hr : in_range (_board g)).
  { intros i p Hi. apply (wf_board g Hwf) in Hi. apply Hi. }
  assert (Hc : rights_ok (_castling g)).
  { split; [apply (wf_rights g Hwf WHITE)|apply (wf_rights g Hwf BLACK)]. }
  pose proof (consistent_hash K g Hr Hc Hh) as Hv.
  destruct (moves_runs K g legal piece square Hwf) as (ms' & Hrun' & Hsub).
  unfold runs in Hrun'. rewrite Hrun' in Hrun. inversion Hrun; subst ms' g'.
  apply list_elem_of_In, Hsub in Hin.
  pose proof (pseudo_moves_generated g Hwf piece square m Hin) as Hgen.
  pose proof (pseudo_moves_on_board g Hwf piece square m Hin) as Hoff.
  destruct (makeMove_hash K g m Hwf Hgen Hoff Hv) as (g2 & Hmake & Hv2 & Hr2 & Hc2).
  exists g2. split; [exact Hmake|].
  rewrite (computeHash_value K g2 Hr2 Hc2), Hv2. reflexivity.
Qed.

Lemma makeMove_keeps_hash_witness :
  exists g2,
    _makeMove sample_keys e4_move start_game = Ok tt g2 /\
    _computeHash sample_keys g2 = Ok (_hash g2) g2.
Proof.
  refine (makeMove_keeps_hash sample_keys start_game true None None _ start_game e4_move
            _ _ _ _).
  - apply wf_check_sound. vm_compute. reflexivity.
  - vm_compute. reflexivity.
  - vm_compute. reflexivity.
  - apply list_elem_of_In. vm_compute. tauto.
Defined.

(** *** Writing a FEN leaves the position alone *)

Section FenReadOnly.
Context (K : Zobrist).

Lemma fen_ep_try_runs g squares :
  WF g -> _epSquare g <> EMPTY ->
  exists s, runs (fen_ep_try K squares) g s g.
Proof.
  intros Hwf Hep. induction squares as [|square rest IH]; simpl.
  - eexists. apply runs_ret.
  - destruct IH as [s IH].
    destruct (off_board square); [exists s; exact IH|].
    destruct (bool_decide (_board g !! square = Some (mkPiece PAWN (_turn g)))) eqn:Ep.
    + apply bool_decide_eq_true in Ep.
      destruct (wf_ep g Hwf) as [He|[He1 He2]]; [contradiction|].
      assert (Hrange : 0 <= _epSquare g < 128).
      { pose proof (wf_pawns g Hwf _ _ He2) as Hv.
        unfold ep_victim in Hv. destruct (_turn g); lia. }
      assert (Hgen : generated g (mkMove (_turn g) square (_epSquare g) PAWN (Some PAWN)
                                         None BITS.EP_CAPTURE)).
      { apply gen_ep; [exact Ep|exact He1|exact Hrange|exact He2|].
        left. split; reflexivity. }
      destruct (make_unmake K g _ Hwf Hgen) as (g2 & Hmake & Hundo).
      exists (if negb (_isKingAttacked g2 (_turn g)) then algebraic (_epSquare g) else s).
      eapply runs_bind; [apply runs_gets|]. cbv beta.
      eapply runs_bind; [apply runs_gets|]. cbv beta.
      rewrite bool_decide_eq_true_2 by exact Ep.
      eapply runs_bind; [apply runs_gets|]. cbv beta.
      eapply runs_bind; [exact Hmake|].
      eapply runs_bind; [apply runs_gets|]. cbv beta.
      eapply runs_bind; [exact Hundo|].
      destruct (negb (_isKingAttacked g2 (_turn g))).
      * eapply runs_bind; [apply runs_gets|]. apply runs_ret.
      * exact IH.
    + exists s.
      eapply runs_bind; [apply runs_gets|]. cbv beta.
      eapply runs_bind; [apply runs_gets|]. cbv beta.
      rewrite Ep. exact IH.
Qed.

End FenReadOnly.

(** X29: [fen()] is read-only.  In a well-formed position it returns a
    string and leaves the game exactly as it was, with and without
    [forceEnpassantSquare], although in the default mode it makes and
    unmakes the en-passant captures to see whether one is legal. *)
Theorem fen_leaves_the_position (K : Zobrist) g forceEnpassantSquare :
  WF g ->
  exists s, fen K forceEnpassantSquare g = Ok s g.
Proof.
  intros Hwf. unfold fen.
  assert (Hfield : exists s,
            runs (if negb (_fenEpSquare g =? EMPTY) then
                    if forceEnpassantSquare then ret (algebraic (_fenEpSquare g))
                    else if negb (_epSquare g =? EMPTY) then
                      let* t := gets _turn in
                      let bigPawnSquare :=
                        _epSquare g + (if bool_decide (t = WHITE) then 16 else -16) in
                      fen_ep_try K [bigPawnSquare + 1; bigPawnSquare - 1]
                    else ret "-"
                  else ret "-") g s g).
  { destruct (negb (_fenEpSquare g =? EMPTY)); [|eexists; apply runs_ret].
    destruct forceEnpassantSquare; [eexists; apply runs_ret|].
    destruct (negb (_epSquare g =? EMPTY)) eqn:E; [|eexists; apply runs_ret].
    apply negb_true_iff, Z.eqb_neq in E.
    destruct (fen_ep_try_runs K g
                [_epSquare g + (if bool_decide (_turn g = WHITE) then 16 else -16) + 1;
                 _epSquare g + (if bool_decide (_turn g = WHITE) then 16 else -16) - 1]
                Hwf E) as [s Hs].
    exists s. eapply runs_bind; [apply runs_gets|]. exact Hs. }
  destruct Hfield as [s Hs]. eexists.
  eapply runs_bind; [apply runs_gets|]. cbv beta.
  eapply runs_bind; [apply runs_gets|]. cbv beta.
  eapply runs_bind; [apply runs_gets|]. cbv beta.
  eapply runs_bind; [apply runs_gets|]. cbv beta.
  eapply runs_bind; [exact Hs|]. cbv beta.
  eapply runs_bind; [apply runs_gets|]. apply runs_ret.
Qed.

Lemma fen_leaves_the_position_witness :
  exists s, fen sample_keys false ep_capture_game = Ok s ep_capture_game.
Proof.
  apply fen_leaves_the_position.
  apply wf_check_sound. vm_compute. reflexivity.
Defined.

(** *** Decoding SAN in strict mode *)

Lemma find_by_san_In (K : Zobrist) key cleanMove all rest : forall g m g',
  find_by_san K key cleanMove all rest g = Ok (Some m) g' -> In m rest.
Proof.
  induction rest as [|m0 rest IH]; intros g m g' H; simpl in H.
  - inversion H.
  - apply bind_Ok in H as (san & g1 & _ & H).
    destruct (String.eqb cleanMove (key san)).
    + inversion H; subst. left. reflexivity.
    + right. eapply IH. exact H.
Qed.

(** X30: in strict mode [_moveFromSan] never returns a move that is not
    legal: in a well-formed position its result, when there is one, is
    the null move (for the two dashes) or one of the moves that [_moves]
    with the legality filter returns for the piece kind the SAN names. *)
Theorem strict_san_decodes_to_a_legal_move (K : Zobrist) g san m g' :
  WF g ->
  _moveFromSan K san true g = Ok (Some m) g' ->
  m = null_move (_turn g) \/
  exists ms,
    _moves K true (_inferPieceType (_strippedSan san)) None g = Ok ms g /\
    m ∈ ms.
Proof.
  intros Hwf H. unfold _moveFromSan in H. cbn [negb] in H. cbv zeta in H.
  destruct (String.eqb (_strippedSan san) SAN_NULLMOVE).
  - left. unfold bind, gets, ret in H. inversion H. reflexivity.
  - right.
    destruct (moves_runs K g true (_inferPieceType (_strippedSan san)) None Hwf)
      as (ms & Hrun & _).
    exists ms. split; [exact Hrun|].
    apply bind_Ok in H as (ms' & g1 & Hm & H).
    unfold runs in Hrun. rewrite Hrun in Hm. inversion Hm; subst ms' g1.
    apply bind_Ok in H as (found & g2 & Hf & H).
    destruct found as [m0|]; [|inversion H].
    inversion H; subst m0 g'.
    apply list_elem_of_In. eapply find_by_san_In. exact Hf.
Qed.

Lemma strict_san_decodes_to_a_legal_move_witness :
  e4_move = null_move (_turn start_game) \/
  exists ms,
    _moves sample_keys true (_inferPieceType (_strippedSan "e4")) None start_game
      = Ok ms start_game /\
    e4_move ∈ ms.
Proof.
  apply (strict_san_decodes_to_a_legal_move sample_keys start_game "e4" e4_move start_game).
  - apply wf_check_sound. vm_compute. reflexivity.
  - vm_compute. reflexivity.
Defined.

(** *** The cursor that classifies the error *)

Section ClassifiedFacts.
Context {G Root : Type}.
Context (processPgnToGame : string -> bool -> G + JsError).
Context (parse : string -> Root + JsError).
Context (Game_of : gmap string string -> Root -> G + JsError).

Import Classified.

Local Abbreviation parseGame := (Classified.parseGame processPgnToGame parse Game_of).
Local Abbreviation prefetch_loop :=
  (Classified.prefetch_loop processPgnToGame parse Game_of).
Local Abbreviation prefetchGames :=
  (Classified.prefetchGames processPgnToGame parse Game_of).
Local Abbreviation next := (Classified.next processPgnToGame parse Game_of).

Local Abbreviation kept := (@Classified.extends G).














End ClassifiedFacts.



(** *** Escaped values and texts of two games *)

(** **** Splitting what was joined *)



(** **** The scan of an escaped value *)


(** **** The two replacements undo the escaping *)







(** **** The header block that holds the line *)




(** **** The line loop *)






